(** * tap-facebook: the incremental extraction engine

    A shallow embedding of [tap_facebook/streams.py] (class
    [FacebookAdsInsights]) and [tap_facebook/client.py] (the throttle
    classifier [is_throttle], the retried [Facebook.__do], and the requests
    of [Facebook.list_insights] with [__encode_params], [__parse_date] and
    [__paginate]), with the properties of the engine stated and proved over
    it.

    Conventions.
    - A Python [date] is its proleptic Gregorian ordinal ([date.toordinal()]),
      a naive [datetime] is a count of microseconds since the midnight that
      starts ordinal 0, a [timedelta] is a count of microseconds. A
      [datetime] that may carry a [tzinfo], as [isoparse] returns it, is a
      [timestamp]: the count of microseconds of its own fields and its UTC
      offset. Python refuses dates outside the years 1..9999: the parser
      is modelled with that bound, the arithmetic of the engine on its clock
      readings is not.
    - Python [str] values are [string]s, compared in code-point order
      ([String.ltb]), as Python's [<] does.
    - The state handed around by singer is a dict that the tap only reads and
      writes below its ["bookmarks"] member: it is modelled as that member,
      a map  stream id -> account id -> bookmark record.
    - The libraries are modelled from their sources and documentation:
      [dateutil.parser.isoparse] in full, [backoff.on_exception] and
      [ratelimit.limits] as the tap configures them, [time.sleep] with its
      ValueError on a negative length. *)

From Stdlib Require Import ZArith Lia Bool List Ascii String.
From stdpp Require Import gmap strings list.
From Equations Require Import Equations.
From Equations.Prop Require Import Logic.
Import ListNotations.

Local Open Scope Z_scope.

(** ** Calendar: the parts of Python's [datetime] module the tap relies on *)

Module Calendar.

Abbreviation date := Z (only parsing).
Abbreviation datetime := Z (only parsing).
Abbreviation timedelta := Z (only parsing).

Definition usec_per_second : Z := 1000000.
Definition usec_per_day : Z := 86400 * usec_per_second.

(** [timedelta(days=d)] and [timedelta(weeks=w)]. *)
Definition timedelta_days (d : Z) : timedelta := d * usec_per_day.
Definition timedelta_weeks (w : Z) : timedelta := timedelta_days (7 * w).

Definition is_leap (year : Z) : bool :=
  (year mod 4 =? 0) && (negb (year mod 100 =? 0) || (year mod 400 =? 0)).

Definition days_in_month (year month : Z) : Z :=
  if month =? 2 then (if is_leap year then 29 else 28)
  else if (month =? 4) || (month =? 6) || (month =? 9) || (month =? 11) then 30
  else 31.

Definition days_before_year (year : Z) : Z :=
  let y := year - 1 in y * 365 + y / 4 - y / 100 + y / 400.

(** Days of the year that precede the first day of [month]. *)
Fixpoint days_before_month_aux (year : Z) (n : nat) : Z :=
  match n with
  | O => 0
  | S k => days_before_month_aux year k + days_in_month year (Z.of_nat (S k))
  end.

Definition days_before_month (year month : Z) : Z :=
  days_before_month_aux year (Z.to_nat (month - 1)).

(** [date(y, m, d).toordinal()]. *)
Definition ymd2ord (year month day : Z) : date :=
  days_before_year year + days_before_month year month + day.

(** The month that contains day number [n] (0-based) of [year], and the day
    of that month (1-based): a scan over the twelve months. *)
Fixpoint month_scan (year : Z) (fuel : nat) (month n : Z) : Z * Z :=
  match fuel with
  | O => (month, n + 1)
  | S k =>
      let dim := days_in_month year month in
      if n <? dim then (month, n + 1) else month_scan year k (month + 1) (n - dim)
  end.

(** [date.fromordinal(n)] as (year, month, day). *)
Definition ord2ymd (n : date) : Z * Z * Z :=
  let n := n - 1 in
  let n400 := n / 146097 in
  let n := n mod 146097 in
  let n100 := n / 36524 in
  let n := n mod 36524 in
  let n4 := n / 1461 in
  let n := n mod 1461 in
  let n1 := n / 365 in
  let n := n mod 365 in
  let year := n400 * 400 + 1 + n100 * 100 + n4 * 4 + n1 in
  if (n1 =? 4) || (n100 =? 4) then (year - 1, 12, 31)
  else let '(m, d) := month_scan year 11 1 n in (year, m, d).

(** [datetime.date()] and [datetime.combine(d, time.min)]. *)
Definition date_of (dt : datetime) : date := dt / usec_per_day.
Definition midnight (d : date) : datetime := d * usec_per_day.

(** *** Printing *)

Definition digit_char (d : Z) : ascii := ascii_of_N (Z.to_N (48 + d mod 10)).

(** [n] printed in decimal on exactly [width] characters, zero padded
    (the ["%04d"] and ["%02d"] of the isoformat methods). *)
Fixpoint zero_padded (width : nat) (n : Z) : string :=
  match width with
  | O => ""
  | S w => zero_padded w (n / 10) +:+ String (digit_char n) ""
  end.

(** [date.isoformat()], also [str(date)]. *)
Definition date_isoformat (d : date) : string :=
  let '(y, m, dd) := ord2ymd d in
  zero_padded 4 y +:+ "-" +:+ zero_padded 2 m +:+ "-" +:+ zero_padded 2 dd.

(** *** Datetime objects *)

(** A [datetime] object: its own fields, from year to microsecond, counted
    in microseconds, and its [tzinfo], which is [None] on a naive datetime
    and else the offset from UTC, in minutes, of the fixed zone that
    [isoparse] attaches ([tz.UTC] is the offset 0). *)
Record timestamp := Timestamp {
  wall : datetime;
  tzinfo : option Z
}.

Definition naive (dt : datetime) : timestamp := Timestamp dt None.

(** [date.max.toordinal()], the ordinal of 9999-12-31. *)
Definition max_ordinal : date := 3652059.

(** The time of day as [isoformat] prints it: the microseconds only when
    there are some. *)
Definition time_isoformat (us : Z) : string :=
  let secs := us / usec_per_second in
  let frac := us mod usec_per_second in
  zero_padded 2 (secs / 3600) +:+ ":"
    +:+ zero_padded 2 (secs / 60 mod 60) +:+ ":"
    +:+ zero_padded 2 (secs mod 60)
    +:+ (if frac =? 0 then "" else "." +:+ zero_padded 6 frac).

(** The UTC offset as [isoformat] prints it. *)
Definition offset_isoformat (tz : option Z) : string :=
  match tz with
  | None => ""
  | Some minutes =>
      (if minutes <? 0 then "-" else "+")
        +:+ zero_padded 2 (Z.abs minutes / 60) +:+ ":"
        +:+ zero_padded 2 (Z.abs minutes mod 60)
  end.

(** [datetime.isoformat()]. *)
Definition isoformat (t : timestamp) : string :=
  date_isoformat (date_of (wall t)) +:+ "T"
    +:+ time_isoformat (wall t mod usec_per_day)
    +:+ offset_isoformat (tzinfo t).

(** *** Parsing: [int] on bytes *)

Definition digit_of (c : ascii) : option Z :=
  let n := Z.of_N (N_of_ascii c) in
  if (48 <=? n) && (n <=? 57) then Some (n - 48) else None.

(** The white space that [int] skips around a number. *)
Definition is_space (c : ascii) : bool :=
  let n := Z.of_N (N_of_ascii c) in
  ((9 <=? n) && (n <=? 13)) || (n =? 32).

Fixpoint lstrip (l : list ascii) : list ascii :=
  match l with
  | c :: rest => if is_space c then lstrip rest else l
  | [] => []
  end.

(** The digits of a number, with single underscores between them: their
    value and what follows them. [seen] says that a digit was met,
    [underscore] that the last character was an underscore. *)
Fixpoint int_digits (acc : Z) (seen underscore : bool) (l : list ascii)
  : option (Z * list ascii) :=
  match l with
  | c :: rest =>
      match digit_of c with
      | Some d => int_digits (acc * 10 + d) true false rest
      | None =>
          if Ascii.eqb c "_" then
            if underscore then None else int_digits acc seen true rest
          else if underscore || negb seen then None
          else Some (acc, l)
      end
  | [] => if underscore || negb seen then None else Some (acc, [])
  end.

(** [int(b)] on a bytes object, in base 10: white space, a sign, digits
    with underscores between them, white space. [None] is the ValueError. *)
Definition int_of_bytes (b : list ascii) : option Z :=
  let b := lstrip b in
  let '(sign, b) :=
    match b with
    | c :: rest =>
        if Ascii.eqb c "-" then (-1, rest)
        else if Ascii.eqb c "+" then (1, rest)
        else (1, b)
    | [] => (1, b)
    end in
  match b with
  | c :: _ =>
      if Ascii.eqb c "_" then None
      else
        match int_digits 0 false false b with
        | Some (n, rest) =>
            match lstrip rest with
            | [] => Some (sign * n)
            | _ :: _ => None
            end
        | None => None
        end
  | [] => None
  end.

(** [b[pos:pos + k]], [b[pos:]] and [b[pos:pos + 1] == c]. *)
Definition slice (b : list ascii) (pos k : nat) : list ascii := firstn k (skipn pos b).

Definition from (b : list ascii) (pos : nat) : list ascii := skipn pos b.

Definition at_char (b : list ascii) (pos : nat) (c : ascii) : bool :=
  match nth_error b pos with
  | Some c' => Ascii.eqb c' c
  | None => false
  end.

(** *** Parsing: [dateutil.parser.isoparse] *)

(** What a part of the parser comes to: its result, a ValueError, or the
    OverflowError of date arithmetic that leaves the years 1 to 9999. *)
Inductive parse (A : Type) :=
| Parsed (a : A)
| Invalid
| Overflow.

Arguments Parsed {A} a.
Arguments Invalid {A}.
Arguments Overflow {A}.

Definition of_option {A} (o : option A) : parse A :=
  match o with
  | Some a => Parsed a
  | None => Invalid
  end.

Definition and_then {A B} (p : parse A) (f : A -> parse B) : parse B :=
  match p with
  | Parsed a => f a
  | Invalid => Invalid
  | Overflow => Overflow
  end.

(** The test of the [date] and [datetime] constructors on a calendar day. *)
Definition valid_date (year month day : Z) : bool :=
  (1 <=? year) && (year <=? 9999) && (1 <=? month) && (month <=? 12)
  && (1 <=? day) && (day <=? days_in_month year month).

(** [isoparser._parse_isodate_common]: the components and the position
    behind them. The components are not tested here. *)
Definition parse_isodate_common (dt_str : list ascii) : option (Z * Z * Z * nat) :=
  let len_str := length dt_str in
  if (len_str <? 4)%nat then None
  else
    year ← int_of_bytes (slice dt_str 0 4);
    if (len_str <=? 4)%nat then Some (year, 1, 1, 4%nat)
    else
      let has_sep := at_char dt_str 4 "-" in
      let pos := if has_sep then 5%nat else 4%nat in
      if (len_str - pos <? 2)%nat then None
      else
        month ← int_of_bytes (slice dt_str pos 2);
        let pos := (pos + 2)%nat in
        if (len_str <=? pos)%nat then
          if has_sep then Some (year, month, 1, pos) else None
        else if has_sep && negb (at_char dt_str pos "-") then None
        else
          let pos := if has_sep then S pos else pos in
          if (len_str - pos <? 2)%nat then None
          else
            day ← int_of_bytes (slice dt_str pos 2);
            Some (year, month, day, (pos + 2)%nat).

(** [isoparser._calculate_weekdate], as an ordinal. The Monday of week 1
    is never before the first day of the year 1. *)
Definition calculate_weekdate (year week day : Z) : parse date :=
  if negb ((0 <? week) && (week <? 54)) then Invalid
  else if negb ((0 <? day) && (day <? 8)) then Invalid
  else if negb ((1 <=? year) && (year <=? 9999)) then Invalid
  else
    let jan_4 := ymd2ord year 1 4 in
    let isoweekday := (jan_4 + 6) mod 7 + 1 in
    let week_1 := jan_4 - (isoweekday - 1) in
    let week_offset := (week - 1) * 7 + (day - 1) in
    if max_ordinal <? week_1 + week_offset then Overflow
    else Parsed (week_1 + week_offset).

(** [isoparser._parse_isodate_uncommon]: week dates and ordinal dates. The
    components are those of the date that was computed. *)
Definition parse_isodate_uncommon (dt_str : list ascii) : parse (Z * Z * Z * nat) :=
  if (length dt_str <? 4)%nat then Invalid
  else
    and_then (of_option (int_of_bytes (slice dt_str 0 4))) (fun year =>
    let has_sep := at_char dt_str 4 "-" in
    let pos := if has_sep then 5%nat else 4%nat in
    if at_char dt_str pos "W" then
      let pos := S pos in
      and_then (of_option (int_of_bytes (slice dt_str pos 2))) (fun weekno =>
      let pos := (pos + 2)%nat in
      and_then
        (if (pos <? length dt_str)%nat then
           if negb (Bool.eqb (at_char dt_str pos "-") has_sep) then Invalid
           else
             let pos := if has_sep then S pos else pos in
             and_then (of_option (int_of_bytes (slice dt_str pos 1))) (fun dayno =>
             Parsed (dayno, S pos))
         else Parsed (1, pos)) (fun '(dayno, pos) =>
      and_then (calculate_weekdate year weekno dayno) (fun base_date =>
      Parsed (ord2ymd base_date, pos))))
    else if (length dt_str - pos <? 3)%nat then Invalid
    else
      and_then (of_option (int_of_bytes (slice dt_str pos 3))) (fun ordinal_day =>
      if (ordinal_day <? 1) || ((if is_leap year then 366 else 365) <? ordinal_day)
      then Invalid
      else if negb ((1 <=? year) && (year <=? 9999)) then Invalid
      else Parsed (ord2ymd (ymd2ord year 1 1 + (ordinal_day - 1)), (pos + 3)%nat))).

(** [isoparser._parse_isodate]: the common layouts first, the others when
    these raise a ValueError. *)
Definition parse_isodate (dt_str : list ascii) : parse (Z * Z * Z * nat) :=
  match parse_isodate_common dt_str with
  | Some components => Parsed components
  | None => parse_isodate_uncommon dt_str
  end.

(** [isoparser._parse_tzstr]: the offset in minutes. *)
Definition parse_tzstr (tzstr : list ascii) : option Z :=
  match tzstr with
  | [c] => if Ascii.eqb c "Z" || Ascii.eqb c "z" then Some 0 else None
  | _ =>
      let len := length tzstr in
      if negb ((len =? 3)%nat || (len =? 5)%nat || (len =? 6)%nat) then None
      else
        mult ← (if at_char tzstr 0 "-" then Some (-1)
                else if at_char tzstr 0 "+" then Some 1
                else None);
        hours ← int_of_bytes (slice tzstr 1 2);
        minutes ← (if (len =? 3)%nat then Some 0
                   else int_of_bytes (from tzstr (if at_char tzstr 3 ":" then 4 else 3)));
        if (hours =? 0) && (minutes =? 0) then Some 0
        else if 59 <? minutes then None
        else if 23 <? hours then None
        else Some (mult * (hours * 60 + minutes))
  end.

(** The regular expression [[\.,]([0-9]+)] at the start of [b]: the digits
    it matches, greedily, when it matches. *)
Fixpoint leading_digits (b : list ascii) : list ascii :=
  match b with
  | c :: rest =>
      match digit_of c with
      | Some _ => c :: leading_digits rest
      | None => []
      end
  | [] => []
  end.

Definition fraction_match (b : list ascii) : option (list ascii) :=
  match b with
  | c :: rest =>
      if Ascii.eqb c "." || Ascii.eqb c "," then
        match leading_digits rest with
        | [] => None
        | digits => Some digits
        end
      else None
  | [] => None
  end.

(** The hour, minute, second and microsecond of [components]. *)
Definition set_component (components : Z * Z * Z * Z) (comp : nat) (v : Z)
  : Z * Z * Z * Z :=
  let '(h, m, s, us) := components in
  match comp with
  | 0%nat => (v, m, s, us)
  | 1%nat => (h, v, s, us)
  | 2%nat => (h, m, v, us)
  | _ => (h, m, s, v)
  end.

(** The [while] loop of [isoparser._parse_isotime]; [comp] is the value
    that the turn gives to the variable of that name, and [turns] are the
    turns left until it reaches 5. The result is the position, the
    components and the offset at the end of the loop. *)
Fixpoint isotime_loop (turns : nat) (timestr : list ascii) (pos comp : nat)
  (has_sep : bool) (components : Z * Z * Z * Z)
  : option (nat * (Z * Z * Z * Z) * option Z) :=
  match turns with
  | O => Some (pos, components, None)
  | S turns' =>
      if negb (pos <? length timestr)%nat then Some (pos, components, None)
      else if at_char timestr pos "-" || at_char timestr pos "+"
              || at_char timestr pos "Z" || at_char timestr pos "z" then
        tz ← parse_tzstr (from timestr pos);
        Some (length timestr, components, Some tz)
      else
        '(pos, has_sep) ←
          (if (comp =? 1)%nat && at_char timestr pos ":" then Some (S pos, true)
           else if (comp =? 2)%nat && has_sep then
             if at_char timestr pos ":" then Some (S pos, has_sep) else None
           else Some (pos, has_sep));
        if (comp <? 3)%nat then
          v ← int_of_bytes (slice timestr pos 2);
          isotime_loop turns' timestr (pos + 2) (S comp) has_sep
            (set_component components comp v)
        else if (comp =? 3)%nat then
          match fraction_match (from timestr pos) with
          | None => isotime_loop turns' timestr pos (S comp) has_sep components
          | Some digits =>
              let us_str := firstn 6 digits in
              v ← int_of_bytes us_str;
              isotime_loop turns' timestr (pos + S (length digits)) (S comp) has_sep
                (set_component components comp (v * 10 ^ Z.of_nat (6 - length us_str)))
          end
        else isotime_loop turns' timestr pos (S comp) has_sep components
  end.

(** [isoparser._parse_isotime]. *)
Definition parse_isotime (timestr : list ascii) : option (Z * Z * Z * Z * option Z) :=
  if (length timestr <? 2)%nat then None
  else
    '(pos, components, tz) ← isotime_loop 6 timestr 0 0 false (0, 0, 0, 0);
    if (pos <? length timestr)%nat then None
    else
      let '(h, m, s, us) := components in
      if (h =? 24) && negb ((m =? 0) && (s =? 0) && (us =? 0)) then None
      else Some (h, m, s, us, tz).

(** The [datetime] constructor on the components that the parser found. *)
Definition datetime_of (year month day h m s us : Z) (tz : option Z)
  : option timestamp :=
  if valid_date year month day && (0 <=? h) && (h <=? 23) && (0 <=? m) && (m <=? 59)
     && (0 <=? s) && (s <=? 59) && (0 <=? us) && (us <=? 999999)
  then Some (Timestamp (midnight (ymd2ord year month day)
                        + ((h * 60 + m) * 60 + s) * usec_per_second + us) tz)
  else None.

(** [isoparser.isoparse] with the default separator, which is any one
    character. A string that is not ASCII is refused before all else. *)
Definition isoparse_bytes (dt_str : list ascii) : parse timestamp :=
  if negb (forallb (fun c => Z.of_N (N_of_ascii c) <? 128) dt_str) then Invalid
  else
    and_then (parse_isodate dt_str) (fun '(year, month, day, pos) =>
    if (pos <? length dt_str)%nat then
      and_then (of_option (parse_isotime (from dt_str (S pos)))) (fun '(h, m, s, us, tz) =>
      if h =? 24 then
        and_then (of_option (datetime_of year month day 0 m s us tz)) (fun t =>
        if max_ordinal <? date_of (wall t) + 1 then Overflow
        else Parsed (Timestamp (wall t + timedelta_days 1) tz))
      else of_option (datetime_of year month day h m s us tz))
    else of_option (datetime_of year month day 0 0 0 0 None)).

(** [dateutil.parser.isoparse]: the datetime, when there is one. *)
Definition isoparse (s : string) : option timestamp :=
  match isoparse_bytes (list_ascii_of_string s) with
  | Parsed t => Some t
  | _ => None
  end.

(** Whether [isoparse] ends in the OverflowError; its other failures are
    ValueErrors. *)
Definition isoparse_overflows (s : string) : bool :=
  match isoparse_bytes (list_ascii_of_string s) with
  | Overflow => true
  | _ => false
  end.

End Calendar.

Import Calendar.

(** ** The extraction engine of [streams.py] *)

(** Exceptions that travel through [process_account]. Only
    [FacebookRequestError] is caught by the retry of a report job;
    [api_error_code()] and [api_error_subcode()] are its two fields. *)
Inductive exn :=
| FacebookRequestError (api_error_code api_error_subcode : Z)
| ValueError (msg : string)
| KeyError (key : string)
| OtherError (name : string).

(** One row of a report, [dict(ads_insight)]. *)
Abbreviation insight := (gmap string string).

(** [state["bookmarks"]]: stream id -> account id -> bookmark record. *)
Abbreviation state := (gmap string (gmap string (gmap string string))).

(** What the engine does to the outside world, in order. *)
Inductive effect :=
| WriteRecord (tap_stream_id : string) (record : insight)
| WriteState (value : state)
| Sleep (seconds : Z).

(** The values [__advance_bookmark] is called with:
    [Union[str, datetime, None]], and the [date] of the final advance. *)
Inductive bookmark :=
| BNone
| BStr (s : string)
| BDatetime (dt : timestamp)
| BDate (d : date).

(** Python truthiness of a string, and of a bookmark: [None] and the empty
    string are falsy, date and datetime objects are always truthy. *)
Definition nonempty (s : string) : bool := negb (String.eqb s "").

Definition truthy (b : bookmark) : bool :=
  match b with
  | BNone => false
  | BStr s => nonempty s
  | BDatetime _ | BDate _ => true
  end.

Definition of_prev (prev_bookmark : option string) : bookmark :=
  match prev_bookmark with
  | None => BNone
  | Some s => BStr s
  end.

(** [self.bookmark_key], set in [__init__]. *)
Definition bookmark_key : string := "date_start".

(** [singer.get_bookmark(state, tap_stream_id, key)]:
    [state.get("bookmarks", {}).get(tap_stream_id, {}).get(key)]. *)
Definition get_bookmark (st : state) (tap_stream_id key : string)
  : option (gmap string string) :=
  match st !! tap_stream_id with
  | Some accounts => accounts !! key
  | None => None
  end.

(** [singer.write_bookmark(state, tap_stream_id, key, val)]:
    [state["bookmarks"][tap_stream_id][key] = val], creating the stream's
    dict when it is missing. *)
Definition write_bookmark (st : state) (tap_stream_id key : string)
  (val : gmap string string) : state :=
  <[tap_stream_id := <[key := val]> (default ∅ (st !! tap_stream_id))]> st.

(** The exception that [parser.isoparse(s)] raises, when it raises. *)
Definition isoparse_error (s : string) : exn :=
  if isoparse_overflows s then OtherError "OverflowError" else ValueError "isoparse".

(** The datetime that [__advance_bookmark] derives from a truthy bookmark,
    and the exception that it raises when there is none: the one of
    [isoparse], or the ValueError of the last branch. *)
Definition bookmark_datetime (b : bookmark) : option timestamp :=
  match b with
  | BNone => None
  | BDatetime dt => Some dt
  | BStr s => isoparse s
  | BDate d => isoparse (date_isoformat d)
  end.

Definition bookmark_error (b : bookmark) : exn :=
  match b with
  | BStr s => isoparse_error s
  | BDate d => isoparse_error (date_isoformat d)
  | BNone | BDatetime _ => ValueError "bookmark"
  end.

(** The result of a call that works on the shared state dict: the effects
    it had, the dict as the call leaves it, and the exception it raised. *)
Record outcome := Outcome {
  effects : list effect;
  store : state;
  raised : option exn
}.

(** [FacebookAdsInsights.__advance_bookmark]. *)
Definition advance_bookmark (account_id : string) (st : state) (b : bookmark)
  (tap_stream_id : string) : outcome :=
  if negb (truthy b) then Outcome [WriteState st] st None
  else
    match bookmark_datetime b with
    | None => Outcome [] st (Some (bookmark_error b))
    | Some dt =>
        let st' := write_bookmark st tap_stream_id account_id
                     {[ bookmark_key := isoformat dt ]} in
        Outcome [WriteState st'] st' None
    end.

(** *** Resolving the start date *)

Record config := Config { start_date : option string }.

(** The readings of the clock that [process_account] takes, in the order of
    the calls: [utcnow()] in [__get_start], in the 37-month test and in the
    clamp, then [date.today()]. *)
Record clock := Clock {
  utcnow_default : datetime;
  utcnow_test : datetime;
  utcnow_clamp : datetime;
  today : date
}.

(** [parser.isoparse(s)] as a call: the datetime, or the exception. *)
Definition parsed (s : string) : exn + timestamp :=
  match isoparse s with
  | Some t => inr t
  | None => inl (isoparse_error s)
  end.

(** [FacebookAdsInsights.__get_start]: the datetime it returns, or the
    exception of [isoparse]. The configured date loses its UTC offset, the
    bookmark keeps the one it has. *)
Definition get_start (cfg : config) (utcnow : datetime) (account_id : string)
  (st : state) (tap_stream_id : string) : exn + timestamp :=
  let default_date :=
    match start_date cfg with
    | Some config_start_date =>
        if nonempty config_start_date then
          match parsed config_start_date with
          | inr t => inr (naive (wall t))
          | inl e => inl e
          end
        else inr (naive (utcnow + timedelta_weeks 4))
    | None => inr (naive (utcnow + timedelta_weeks 4))
    end in
  match default_date with
  | inl e => inl e
  | inr default_date =>
      if bool_decide (st = ∅) then inr default_date
      else
        match get_bookmark st tap_stream_id account_id with
        | None => inr default_date
        | Some account_record =>
            if bool_decide (account_record = ∅) then inr default_date
            else
              match account_record !! bookmark_key with
              | None => inr default_date
              | Some current_bookmark =>
                  if nonempty current_bookmark then parsed current_bookmark
                  else inr default_date
              end
        end
  end.

(** Lines 39-44 of [process_account]: the override for start dates that lie
    further back than the API supports, else the one-day step back. *)
Definition adjust_start (clk : clock) (start : datetime) : datetime :=
  if timedelta_days (37 * 30) <? utcnow_test clk - start
  then utcnow_clamp clk - timedelta_days (36 * 30)
  else start - timedelta_days 1.

(** Modelled from the spec: [utils.parse_date] is not among the sources. The
    end-to-end scenario of the specification (a bookmark of 2024-01-05 makes
    the first range start on 2024-01-04) fixes it on a datetime as the
    calendar date of that datetime, which is also what the client's own
    [__parse_date] returns. *)
Definition parse_date (dt : datetime) : date := date_of dt.

(** *** Date ranges *)

(** The [while True] loop of lines 88-97, from the current [from_date] and
    the ranges appended so far to the ranges and the [from_date] at the
    [break]. Every turn moves [from_date] two days ahead. *)
Equations? chunk_loop (from_date until : date) (time_ranges : list (date * date))
  : list (date * date) * date by wf (Z.to_nat (until + 1 - from_date)) lt :=
  chunk_loop from_date until time_ranges with Z_lt_le_dec until (from_date + 1) => {
    | left _ := (time_ranges, from_date);
    | right _ := chunk_loop (from_date + 1 + 1) until
                   (time_ranges ++ [(from_date, from_date + 1)]) }.
Proof. lia. Qed.

(** Lines 82-102: the ranges that are requested for [since .. until]. *)
Definition time_ranges_of (since until : date) : list (date * date) :=
  if 1 <? until - since then
    let '(time_ranges, from_date) := chunk_loop since until [] in
    if from_date <=? until then time_ranges ++ [(from_date, until)]
    else time_ranges
  else [(since, until)].

(** The days of one range, both ends included. *)
Definition days_of (r : date * date) : list date :=
  seqZ (fst r) (snd r - fst r + 1).

(** *** Emitting the rows of a report *)

(** The loop variables that survive one turn of the record loop:
    [prev_bookmark] and the shared state dict. *)
Record cursor := Cursor {
  prev_bookmark : option string;
  cur_state : state
}.

(** The result of a piece of [process_account]'s body: its effects, the loop
    variables where it stopped, and the exception it stopped with. *)
Record step := Step {
  done_effects : list effect;
  reached : cursor;
  failure : option exn
}.

(** [prev_bookmark] after [if not prev_bookmark: prev_bookmark = new_bookmark]. *)
Definition seed_prev (prev : option string) (new_bookmark : string) : string :=
  match prev with
  | Some p => if nonempty p then p else new_bookmark
  | None => new_bookmark
  end.

(** The body of the loop over the rows (lines 126-138). *)
Definition emit_insight (account_id tap_stream_id : string) (c : cursor)
  (record : insight) : step :=
  let written := WriteRecord tap_stream_id record in
  match record !! bookmark_key with
  | None => Step [written] c (Some (KeyError bookmark_key))
  | Some new_bookmark =>
      let prev := seed_prev (prev_bookmark c) new_bookmark in
      if String.ltb prev new_bookmark then
        let adv := advance_bookmark account_id (cur_state c) (BStr prev) tap_stream_id in
        match raised adv with
        | Some e => Step (written :: effects adv) (Cursor (Some prev) (store adv)) (Some e)
        | None => Step (written :: effects adv) (Cursor (Some new_bookmark) (store adv)) None
        end
      else Step [written] (Cursor (Some prev) (cur_state c)) None
  end.

(** [for ads_insight in ads_insights_result: ...] over the rows that arrive. *)
Fixpoint emit_insights (account_id tap_stream_id : string) (c : cursor)
  (records : list insight) : step :=
  match records with
  | [] => Step [] c None
  | record :: rest =>
      let s := emit_insight account_id tap_stream_id c record in
      match failure s with
      | Some e => s
      | None =>
          let s' := emit_insights account_id tap_stream_id (reached s) rest in
          Step (done_effects s ++ done_effects s') (reached s') (failure s')
      end
  end.

(** What the remote side does in one run of a report job: the rows that
    reach the record loop, and the exception, if any, that ends the run
    (raised by the submission, the polling, [get_result] or the paging of
    the rows). *)
Record report := Report {
  rows : list insight;
  breaks_with : option exn
}.

(** The remote side: the report obtained for a range at a given attempt. *)
Definition remote := date * date -> nat -> report.

(** The body of the [try] of lines 120-140 for one attempt. *)
Definition attempt_report (account_id tap_stream_id : string) (c : cursor)
  (r : report) : step :=
  let s := emit_insights account_id tap_stream_id c (rows r) in
  match failure s with
  | Some e => s
  | None => Step (done_effects s) (reached s) (breaks_with r)
  end.

(** The test of line 149 on a caught exception. *)
Definition seemingly_temporary (e : exn) (attempt : nat) : bool :=
  match e with
  | FacebookRequestError code subcode =>
      (code =? 2601) && (subcode =? 1815107) && (attempt <? 5)%nat
  | _ => false
  end.

(** Whether an attempt that stopped as [s] is followed by another one. *)
Definition retries (s : step) (attempt : nat) : bool :=
  match failure s with
  | Some e => seemingly_temporary e attempt
  | None => false
  end.

(** The [while True] of lines 118-155 for one range, from the current value
    of [attempt]: an attempt that ends without exception leaves the loop, one
    that fails the test of line 149 re-raises, any other sleeps and goes
    round again. *)
Equations? report_loop (api : remote) (account_id tap_stream_id : string)
  (range : date * date) (attempt : nat) (c : cursor) : step
  by wf (5 - attempt)%nat lt :=
  report_loop api account_id tap_stream_id range attempt c
    with inspect (retries (attempt_report account_id tap_stream_id c (api range attempt))
                    attempt) => {
    | exist _ false _ := attempt_report account_id tap_stream_id c (api range attempt);
    | exist _ true again :=
        let s := attempt_report account_id tap_stream_id c (api range attempt) in
        let s' := report_loop api account_id tap_stream_id range (S attempt) (reached s) in
        Step (done_effects s ++ Sleep 20 :: done_effects s') (reached s') (failure s') }.
Proof.
  unfold retries, seemingly_temporary in again.
  destruct (failure _) as [[]|]; try discriminate.
  apply andb_prop in again as [_ again]. apply Nat.ltb_lt in again. lia.
Qed.

(** [for (start, stop) in time_ranges: ...] (lines 104-155). *)
Fixpoint range_loop (api : remote) (account_id tap_stream_id : string)
  (c : cursor) (time_ranges : list (date * date)) : step :=
  match time_ranges with
  | [] => Step [] c None
  | range :: rest =>
      let s := report_loop api account_id tap_stream_id range 0 c in
      match failure s with
      | Some e => s
      | None =>
          let s' := range_loop api account_id tap_stream_id (reached s) rest in
          Step (done_effects s ++ done_effects s') (reached s') (failure s')
      end
  end.

(** Lines 103-162: the [try] around the ranges with its [except Exception]
    handler, then the final advance. In the handler the result of
    [__advance_bookmark] is dropped, the dict it worked on is the shared one,
    and an exception of the handler's own replaces the one being handled. *)
Definition run_ranges (api : remote) (account_id tap_stream_id : string)
  (st : state) (time_ranges : list (date * date)) (until : date) : outcome :=
  let s := range_loop api account_id tap_stream_id (Cursor None st) time_ranges in
  let prev := prev_bookmark (reached s) in
  match failure s with
  | Some e =>
      let flush := advance_bookmark account_id (cur_state (reached s)) (of_prev prev)
                     tap_stream_id in
      Outcome (done_effects s ++ effects flush) (store flush)
        (Some (default e (raised flush)))
  | None =>
      let last := if truthy (of_prev prev) then of_prev prev else BDate until in
      let adv := advance_bookmark account_id (cur_state (reached s)) last tap_stream_id in
      Outcome (done_effects s ++ effects adv) (store adv) (raised adv)
  end.

(** [FacebookAdsInsights.process_account]. A start date with a UTC offset
    cannot be subtracted from the naive [utcnow()] of line 41, which raises
    a TypeError. The test [if not start_date] of line 73 is on a datetime
    object, which is always truthy. *)
Definition process_account (cfg : config) (clk : clock) (api : remote)
  (account_id tap_stream_id : string) (st : state) : outcome :=
  match get_start cfg (utcnow_default clk) account_id st tap_stream_id with
  | inl e => Outcome [] st (Some e)
  | inr resolved =>
      match tzinfo resolved with
      | Some _ => Outcome [] st (Some (OtherError "TypeError"))
      | None =>
          let start := adjust_start clk (wall resolved) in
          let since := parse_date start in
          let until := today clk - 1 in
          run_ranges api account_id tap_stream_id st (time_ranges_of since until) until
      end
  end.

(** [FacebookAdsInsights.stream]: the accounts one after the other, each on
    the state the previous one left. The clock and the remote side are
    given per account. *)
Fixpoint stream (cfg : config) (runs : list (string * clock * remote))
  (st : state) (tap_stream_id : string) : outcome :=
  match runs with
  | [] => Outcome [] st None
  | (account_id, clk, api) :: rest =>
      let o := process_account cfg clk api account_id tap_stream_id st in
      match raised o with
      | Some e => o
      | None =>
          let o' := stream cfg rest (store o) tap_stream_id in
          Outcome (effects o ++ effects o') (store o') (raised o')
      end
  end.

(** ** The report job poller of [streams.py] *)

Module Poller.

(** The fields of an [AdReportRun] that [__run_adreport] reads. *)
Record job := Job {
  id : string;
  async_status : string;
  async_percent_completion : Z
}.

(** What one call of [async_job.api_get()] does. *)
Inductive response :=
| Answers (j : job)
| Throws (e : exn).

Inductive event :=
| ApiGet
| LogError (job_id status : string)
| LogFinished (job_id : string)
| LogStatus (job_id status : string)
| Sleep (seconds : Z).

(** How the call ends. [api_get] refreshes the [AdReportRun] it is called
    on and hands that same object back, so the [async_job] that is returned
    carries the id and the status of the last poll. [Polling] is the loop
    still going round when the scripted responses are used up. *)
Inductive result :=
| Returned (async_job : job)
| Raised (e : exn)
| Polling.

Definition failed_status (status : string) : bool :=
  String.eqb status "Job Skipped" || String.eqb status "Job Failed".

Definition pending_status (status : string) : bool :=
  String.eqb status "Job Not Started" || String.eqb status "Job Started"
  || String.eqb status "Job Running" || String.eqb status "Job Completed".

(** The [while True] of lines 199-232 over the successive answers of
    [api_get]. A status that is in neither list goes round again at once,
    without sleeping. *)
Fixpoint poll (responses : list response) : list event * result :=
  match responses with
  | [] => ([], Polling)
  | Throws e :: _ => ([ApiGet], Raised e)
  | Answers j :: rest =>
      let status := async_status j in
      if failed_status status then
        ([ApiGet; LogError (id j) status], Returned j)
      else if String.eqb status "Job Completed" && (async_percent_completion j =? 100) then
        ([ApiGet; LogFinished (id j)], Returned j)
      else if pending_status status then
        let '(events, r) := poll rest in
        (ApiGet :: LogStatus (id j) status :: Sleep 2 :: events, r)
      else
        let '(events, r) := poll rest in
        (ApiGet :: events, r)
  end.

(** [FacebookAdsInsights.__run_adreport]: the submission with
    [is_async=True], which may raise, then the polling. *)
Definition run_adreport (submission : option exn) (responses : list response)
  : list event * result :=
  match submission with
  | Some e => ([], Raised e)
  | None => poll responses
  end.

Definition polls (events : list event) : nat :=
  List.length (List.filter (fun e => match e with ApiGet => true | _ => false end) events).

Definition slept (events : list event) : list Z :=
  omap (fun e => match e with Sleep s => Some s | _ => None end) events.

End Poller.

(** ** The HTTP client of [client.py] *)

Module Client.

Definition RATE_LIMIT_SUBCODE : Z := 2446079.
Definition ADS_INSIGHTS_CODE : Z := 80000.
Definition CUSTOM_AUDIENCE_CODE : Z := 80003.
Definition ADS_MANAGEMENT : Z := 80004.

(** The member ["error"] of a response body; a field is [None] when the
    key is missing, and [error.get] then supplies its default. *)
Record error := Error {
  code : option Z;
  error_subcode : option Z;
  is_transient : option bool
}.

(** One element of the lists in the [x-business-use-case-usage] header;
    the field is [None] when the key is missing. *)
Record metadata := Metadata {
  estimated_time_to_regain_access : option Z
}.

(** A response as [is_throttle] looks at it: the status, the usage header
    after [json.loads] ([None] when the header is missing or empty), listed
    in the order of [items()], and the ["error"] member of the JSON body
    ([None] when the body has none). *)
Record response := Response {
  status_code : Z;
  use_case_usage : option (list (string * list metadata));
  body_error : option error
}.

Inductive event :=
| Request
| Sleep (seconds : Z)
| Backoff (tries : nat) (bound : Z).

(** What [is_throttle] makes of an exception: the boolean it returns to the
    decorator, or an exception of its own. *)
Inductive failure :=
| HTTPError (r : response)
| AttributeError
| ValueError.

Inductive verdict :=
| Returns (giveup : bool)
| Throws (e : failure).

(** [time.sleep(seconds)] in [is_throttle], which returns [False] after
    it: a negative length raises a ValueError. Lengths beyond what the
    platform can sleep are outside the model. *)
Definition sleep_then_retry (seconds : Z) : list event * verdict :=
  if seconds <? 0 then ([], Throws ValueError) else ([Sleep seconds], Returns false).

(** The inner [for metadata in account_metadata] of [is_throttle]: what
    the function ends with when it ends in this loop, having slept or not;
    [None] when the loop runs to its end. *)
Fixpoint scan_metadata (account_metadata : list metadata)
  : option (list event * verdict) :=
  match account_metadata with
  | [] => None
  | m :: rest =>
      match estimated_time_to_regain_access m with
      | None => scan_metadata rest
      | Some wait_time_in_minutes =>
          if wait_time_in_minutes =? 0 then Some ([], Returns false)
          else Some (sleep_then_retry (wait_time_in_minutes * 60))
      end
  end.

(** The outer [for account_id, account_metadata in use_case_usage.items()];
    the function returns [False] when the loops run to their end. *)
Fixpoint scan_usage (usage : list (string * list metadata)) : list event * verdict :=
  match usage with
  | [] => ([], Returns false)
  | (_, account_metadata) :: rest =>
      match scan_metadata account_metadata with
      | Some ended => ended
      | None => scan_usage rest
      end
  end.

Definition rate_limit_code (c : Z) : bool :=
  (c =? ADS_INSIGHTS_CODE) || (c =? ADS_MANAGEMENT) || (c =? CUSTOM_AUDIENCE_CODE).

(** [is_throttle(err)] on [err.response]: the sleeps it takes and what it
    ends with. *)
Definition is_throttle (r : response) : list event * verdict :=
  match body_error r with
  | None => ([], Returns true)
  | Some error =>
      if negb (default false (is_transient error)) then ([], Returns true)
      else if negb (rate_limit_code (default 0 (code error))
                    && (default 0 (error_subcode error) =? RATE_LIMIT_SUBCODE))
      then ([], Returns false)
      else
        match use_case_usage r with
        | None => ([], Returns false)
        | Some usage => scan_usage usage
        end
  end.

(** What one call of [self.__session.request] does: a response comes back,
    or a [RequestException] that carries no response is raised. *)
Inductive attempt :=
| Responds (r : response)
| Breaks.

Inductive result :=
| Returned (r : response)
| Raised (e : failure)
| Retrying.

(** [resp.raise_for_status()] raises on the 4xx and 5xx statuses. *)
Definition raises_for_status (r : response) : bool :=
  (400 <=? status_code r) && (status_code r <? 600).

(** [backoff.expo()]: the n-th value of the wait generator. With the
    default full jitter the time slept is drawn between 0 and that value. *)
Definition expo (n : nat) : Z := 2 ^ Z.of_nat n.

(** [Facebook.__do] under [backoff.on_exception(backoff.expo, ...,
    giveup=is_throttle)], which sets neither [max_tries] nor [max_time]:
    the loop of the decorator after [tries] failed calls, over what the
    successive requests do. When [giveup] returns true the exception is
    re-raised, and when it raises, its own exception goes to the caller;
    otherwise the decorator sleeps the next wait of the generator and calls
    again. [is_throttle] on an exception without response fails on
    [err.response.headers]. [Retrying] is the loop still going round when
    the scripted attempts are used up. *)
Fixpoint retry (tries : nat) (attempts : list attempt) : list event * result :=
  match attempts with
  | [] => ([], Retrying)
  | Breaks :: _ => ([Request], Raised AttributeError)
  | Responds r :: rest =>
      if raises_for_status r then
        let '(sleeps, ended) := is_throttle r in
        match ended with
        | Throws e => (Request :: sleeps, Raised e)
        | Returns true => (Request :: sleeps, Raised (HTTPError r))
        | Returns false =>
            let '(events, res) := retry (S tries) rest in
            (Request :: sleeps ++ Backoff (S tries) (expo tries) :: events, res)
        end
      else ([Request], Returned r)
  end.

Definition do (attempts : list attempt) : list event * result := retry 0 attempts.

End Client.

(** ** The request side of [client.py] *)

Module Requests.

(** The values that the client puts in [params]: strings, numbers, lists
    (or tuples) and dicts. A dict keeps the order in which its keys were
    set, and holds a key once. *)
#[warnings="-register-all"]
Inductive value :=
| VStr (s : string)
| VInt (n : Z)
| VList (items : list value)
| VDict (members : list (string * value)).

Abbreviation dict := (list (string * value)).

(** [d[k]] and [d[k] = v]. *)
Fixpoint dict_get (k : string) (d : dict) : option value :=
  match d with
  | [] => None
  | (k', v) :: rest => if String.eqb k k' then Some v else dict_get k rest
  end.

Fixpoint dict_set (k : string) (v : value) (d : dict) : dict :=
  match d with
  | [] => [(k, v)]
  | (k', v') :: rest =>
      if String.eqb k k' then (k, v) :: rest else (k', v') :: dict_set k v rest
  end.

(** The elements of a list as [str.join] takes them: [None] is the
    TypeError that it raises on an element that is not a string. *)
Fixpoint strings_of (items : list value) : option (list string) :=
  match items with
  | [] => Some []
  | VStr s :: rest =>
      match strings_of rest with
      | Some l => Some (s :: l)
      | None => None
      end
  | _ :: _ => None
  end.

Section Encoding.

(** [json.dumps] on a dict. *)
Variable json_dumps : dict -> string.

(** One turn of the loop of [__encode_params]. *)
Definition encode_value (v : value) : option value :=
  match v with
  | VDict members => Some (VStr (json_dumps members))
  | VList items =>
      match strings_of items with
      | Some l => Some (VStr (String.concat "," l))
      | None => None
      end
  | VStr _ | VInt _ => Some v
  end.

(** [Facebook.__encode_params]; [None] is the TypeError of [",".join]. *)
Fixpoint encode_params (params : dict) : option dict :=
  match params with
  | [] => Some []
  | (k, v) :: rest =>
      match encode_value v, encode_params rest with
      | Some v', Some rest' => Some ((k, v') :: rest')
      | _, _ => None
      end
  end.

(** The first three lines of [Facebook.__do]: the parameters that go to
    [session.request]. *)
Definition request_params (access_token : string) (params : dict) : option dict :=
  encode_params (dict_set "access_token" (VStr access_token) params).

(** *** The rate limiter *)

(** The state of the decorator [ratelimit.limits(calls=20, period=60,
    raise_on_limit=False)] on [__do]: the reading of the monotonic clock at
    which the current window began, and the calls counted in it. The
    decorator is made once, when the class is defined, and counts the calls
    of every client. Clock readings are in nanoseconds. *)
Record limiter := Limiter {
  last_reset : Z;
  num_calls : nat
}.

Definition clamped_calls : nat := 20.
Definition period : Z := 60 * 1000000000.

(** The readings of the clock that one call of the wrapper can take: the
    one against which the window is tested, and the one that begins the new
    window, which is read only when the window has run out. *)
Record reading := Reading {
  at_test : Z;
  at_reset : Z
}.

(** The wrapper of the decorator around one call: the state it leaves, and
    whether the call goes through. A call over the limit is not made and
    the wrapper returns [None]. *)
Definition limits (l : limiter) (r : reading) : limiter * bool :=
  let period_remaining := period - (at_test r - last_reset l) in
  let l := if period_remaining <=? 0 then Limiter (at_reset r) 0 else l in
  let l := Limiter (last_reset l) (S (num_calls l)) in
  (l, negb (clamped_calls <? num_calls l)%nat).

(** *** Paging *)

(** What a call of [__do] with [paginate=True] comes to: the [None] of the
    rate limiter or, once the call went through and with the retries of the
    backoff decorator included, the data of a page and its [paging.next],
    or an exception. *)
Inductive fetched :=
| Nothing
| Page (data : list insight) (next : option string)
| Failed (e : exn).

(** The remote side: what the request for an url with given parameters
    comes to. *)
Definition server := string -> dict -> fetched.

Definition do_page (srv : server) (l : limiter) (r : reading)
  (access_token url : string) (params : dict) : limiter * fetched :=
  let '(l, through) := limits l r in
  if through then
    (l, match request_params access_token params with
        | Some encoded => srv url encoded
        | None => Failed (OtherError "TypeError")
        end)
  else (l, Nothing).

(** How a generator that is drained ends. [Paging] is the loop still going
    round when the scripted clock readings are used up. *)
Inductive ending :=
| Finished
| Raised (e : exn)
| Paging.

(** What a drained generator has done: the urls of its calls that went
    through the limiter, the items it yielded, how it ended, and the state
    in which it leaves the limiter. *)
Record drained := Drained {
  asked : list string;
  yielded : list insight;
  ended : ending;
  limiter_left : limiter
}.

(** [Facebook.__paginate], drained, with one clock reading per call of
    [__do]. The [None] of a call that did not go through cannot be unpacked
    into [data, next], which raises a TypeError. An empty [next] ends the
    loop like a missing one. *)
Fixpoint paginate (srv : server) (l : limiter) (ticks : list reading)
  (access_token url : string) (params : dict) : drained :=
  match ticks with
  | [] => Drained [] [] Paging l
  | r :: ticks' =>
      let '(l, page) := do_page srv l r access_token url params in
      match page with
      | Nothing => Drained [] [] (Raised (OtherError "TypeError")) l
      | Failed e => Drained [url] [] (Raised e) l
      | Page data next =>
          match next with
          | Some next_url =>
              if nonempty next_url then
                let rest := paginate srv l ticks' access_token next_url params in
                Drained (url :: asked rest) (data ++ yielded rest) (ended rest)
                  (limiter_left rest)
              else Drained [url] data Finished l
          | None => Drained [url] data Finished l
          end
      end
  end.

(** *** [list_insights] *)

(** The first argument of [__parse_date]: [None], a string, a [datetime]
    (whose [tzinfo] plays no part), or a [date] that is not a [datetime]. *)
Inductive dateobj :=
| DNone
| DStr (s : string)
| DDatetime (dt : datetime)
| DDate (d : date).

Definition given (d : dateobj) : bool :=
  match d with
  | DNone => false
  | DStr s => nonempty s
  | DDatetime _ | DDate _ => true
  end.

(** [Facebook.__parse_date]: a [date] that is not a [datetime] falls
    through both tests, as [None] does. *)
Definition parse_date (d : dateobj) : exn + date :=
  match d with
  | DDatetime dt => inr (date_of dt)
  | DStr s =>
      match parsed s with
      | inr t => inr (date_of (wall t))
      | inl e => inl e
      end
  | DNone | DDate _ => inl (ValueError "invalid date")
  end.

(** The arguments of [list_insights]. *)
Record query := Query {
  account_id : string;
  start_date : dateobj;
  end_date : dateobj;
  fields : list string;
  limit : Z;
  action_breakdowns : list string;
  breakdowns : list string;
  time_increments : Z;
  action_attribution_windows : list string
}.

Definition default_fields : list string :=
  ["account_id"; "account_name"; "ad_id"; "ad_name"; "adset_id"; "adset_name";
   "campaign_id"; "campaign_name"; "clicks"; "ctr"; "date_start"; "date_stop";
   "frequency"; "impressions"; "reach"; "social_spend"; "spend";
   "unique_clicks"; "unique_ctr"].

(** Lines 87-131 of [list_insights]: the parameters of the request, or the
    exception that is raised before any request. *)
Definition insights_params (today : date) (q : query) : exn + dict :=
  if negb (given (start_date q)) then inl (ValueError "client: start_date is required")
  else
    match parse_date (start_date q) with
    | inl e => inl e
    | inr since =>
        let until :=
          if given (end_date q) then parse_date (end_date q)
          else inr (today + -1) in
        match until with
        | inl e => inl e
        | inr until =>
            let fields := match fields q with
                          | [] => default_fields
                          | _ :: _ => fields q
                          end in
            inr [("level", VStr "ad");
                 ("limit", VInt (limit q));
                 ("action_breakdowns", VList (map VStr (action_breakdowns q)));
                 ("breakdowns", VList (map VStr (breakdowns q)));
                 ("fields", VList (map VStr fields));
                 ("time_increment", VInt 1);
                 ("action_attribution_windows",
                  VList (map VStr (action_attribution_windows q)));
                 ("time_range",
                  VDict [("since", VStr (date_isoformat since));
                         ("until", VStr (date_isoformat until))])]
        end
    end.

(** [Facebook.list_insights], drained; [version] is the one given to
    [__init__]. *)
Definition list_insights (srv : server) (l : limiter) (ticks : list reading)
  (access_token version : string) (today : date) (q : query) : drained :=
  match insights_params today q with
  | inl e => Drained [] [] (Raised e) l
  | inr params =>
      paginate srv l ticks access_token
        ("https://graph.facebook.com/" +:+ version +:+ "/" +:+ account_id q
           +:+ "/insights")
        params
  end.

End Encoding.

End Requests.

(** ** Vocabulary of the statements *)

(** [chained a rs b]: the ranges [rs] follow one another from day [a] on,
    each spans at most one day more than its start, each starts the day
    after the previous one ends, and [b] is the day after the last end. *)
Fixpoint chained (a : date) (rs : list (date * date)) (b : date) : Prop :=
  match rs with
  | [] => a = b
  | r :: rs' => fst r = a /\ fst r <= snd r <= fst r + 1 /\ chained (snd r + 1) rs' b
  end.

(** A datetime object as the constructor of [datetime] lets them be: a day
    of the years 1 to 9999, a time of that day, and a UTC offset, if any,
    of less than a day. *)
Definition well_formed (t : timestamp) : Prop :=
  (exists year month day h m s us,
      wall t = midnight (ymd2ord year month day)
               + ((h * 60 + m) * 60 + s) * usec_per_second + us
      /\ valid_date year month day = true
      /\ 0 <= h <= 23 /\ 0 <= m <= 59 /\ 0 <= s <= 59 /\ 0 <= us <= 999999)
  /\ (forall minutes, tzinfo t = Some minutes -> -1440 < minutes < 1440).

(** The characters that [isoformat] prints for a day, a time of day, its
    microseconds and a UTC offset. *)
Definition printed_date (year month day : Z) : list ascii :=
  [digit_char (year / 10 / 10 / 10); digit_char (year / 10 / 10); digit_char (year / 10);
   digit_char year; "-"%char; digit_char (month / 10); digit_char month; "-"%char;
   digit_char (day / 10); digit_char day].

Definition printed_time (h m s : Z) : list ascii :=
  [digit_char (h / 10); digit_char h; ":"%char; digit_char (m / 10); digit_char m;
   ":"%char; digit_char (s / 10); digit_char s].

Definition printed_fraction (us : Z) : list ascii :=
  if us =? 0 then []
  else ["."%char; digit_char (us / 10 / 10 / 10 / 10 / 10);
        digit_char (us / 10 / 10 / 10 / 10); digit_char (us / 10 / 10 / 10);
        digit_char (us / 10 / 10); digit_char (us / 10); digit_char us].

Definition printed_offset (tz : option Z) : list ascii :=
  match tz with
  | None => []
  | Some minutes =>
      [if minutes <? 0 then "-"%char else "+"%char;
       digit_char (Z.abs minutes / 60 / 10); digit_char (Z.abs minutes / 60); ":"%char;
       digit_char (Z.abs minutes mod 60 / 10); digit_char (Z.abs minutes mod 60)]
  end.

(** The state after [__advance_bookmark] has stored the datetime [dt] for an
    account of a stream. *)
Definition stored (account_id tap_stream_id : string) (st : state)
  (dt : timestamp) : state :=
  write_bookmark st tap_stream_id account_id {[ bookmark_key := isoformat dt ]}.

(** The rows, the states and the sleeps among some effects, in order. *)
Definition records (l : list effect) : list insight :=
  omap (fun e => match e with WriteRecord _ r => Some r | _ => None end) l.

Definition states (l : list effect) : list state :=
  omap (fun e => match e with WriteState s => Some s | _ => None end) l.

Definition sleeps (l : list effect) : list Z :=
  omap (fun e => match e with Sleep s => Some s | _ => None end) l.

(** The bookmark that a state holds for an account of a stream. *)
Definition bookmark_at (account_id tap_stream_id : string) (st : state)
  : option string :=
  match get_bookmark st tap_stream_id account_id with
  | Some account_record => account_record !! bookmark_key
  | None => None
  end.

(** The error signature that the retry of a report job looks for. *)
Definition flaky : exn := FacebookRequestError 2601 1815107.

(** The partition keys of the rows among some effects, in order. *)
Definition keys (l : list effect) : list string :=
  omap (fun r : insight => r !! bookmark_key) (records l).

(** [p] is one of the keys [ks] and none of them is above it. *)
Definition greatest (p : string) (ks : list string) : Prop :=
  In p ks /\ Forall (fun k => String.leb k p = true) ks.

(** [prev_bookmark] is the greatest of the keys seen, [None] before any. *)
Definition last_seen (prev : option string) (ks : list string) : Prop :=
  match prev with
  | None => ks = []
  | Some p => greatest p ks
  end.

(** The loop variables [c] after the rows with keys [ks], as the record loop
    keeps them: [prev_bookmark] is the greatest key seen, and while there is
    none the state is still the one, [st0], that the account started from. *)
Definition in_flight (st0 : state) (c : cursor) (ks : list string) : Prop :=
  last_seen (prev_bookmark c) ks /\ (prev_bookmark c = None -> cur_state c = st0).

(** The step ended in the lagged advance, on a key that [isoparse] refuses:
    [prev_bookmark] is still that key, the greatest of the keys written before
    the last row, whose key is above it; [ks] are the keys written so far. *)
Definition stopped_in_advance (s : step) (ks : list string) : Prop :=
  exists p k ks',
    prev_bookmark (reached s) = Some p /\ nonempty p = true
    /\ isoparse p = None /\ failure s = Some (isoparse_error p)
    /\ ks = ks' ++ [k] /\ greatest p ks' /\ String.ltb p k = true.

(** The remote side can deliver a row with partition key [k]. *)
Definition delivers (api : remote) (k : string) : Prop :=
  exists range attempt r,
    In r (rows (api range attempt)) /\ r !! bookmark_key = Some k.

(** The timestamps that the advance writes for [k] and [k'] are ordered like
    the keys themselves (as they are for calendar dates in ISO layout). *)
Definition chronological (k k' : string) : Prop :=
  forall t t', isoparse k = Some t -> isoparse k' = Some t' ->
               String.leb (isoformat t) (isoformat t') = true.

(** The bookmark [b] is not below the bookmark [a]; no bookmark is below
    every bookmark. *)
Definition not_below (a b : option string) : Prop :=
  match a, b with
  | None, _ => True
  | Some x, Some y => String.leb x y = true
  | Some _, None => False
  end.

(** From each state of [W] to the next, the bookmark of the account does not
    decrease. *)
Definition ascending (account_id tap_stream_id : string) (W : list state) : Prop :=
  forall i s s', W !! i = Some s -> W !! S i = Some s' ->
    not_below (bookmark_at account_id tap_stream_id s)
      (bookmark_at account_id tap_stream_id s').

(** The loop variables [c] against the states [W] written so far in the run
    of an account: the bookmarks of [W] ascend; once a state was written, the
    last one is the current state, it holds the timestamp of a delivered key
    [l], and [prev_bookmark] is a key above [l]; and [prev_bookmark] is a
    delivered key. *)
Definition tracked (api : remote) (account_id tap_stream_id : string)
  (c : cursor) (W : list state) : Prop :=
  ascending account_id tap_stream_id W
  /\ (W <> [] ->
      exists l t p,
        delivers api l /\ isoparse l = Some t
        /\ last W = Some (cur_state c)
        /\ bookmark_at account_id tap_stream_id (cur_state c) = Some (isoformat t)
        /\ prev_bookmark c = Some p /\ String.ltb l p = true)
  /\ (forall p, prev_bookmark c = Some p -> delivers api p).

(** The bookmark that [__get_start] takes from a state: the one of the
    account, unless it is missing or empty. *)
Definition persisted (account_id tap_stream_id : string) (st : state)
  : option string :=
  match bookmark_at account_id tap_stream_id st with
  | Some b => if nonempty b then Some b else None
  | None => None
  end.

(** The statuses on which the poller goes on: not started, started, running,
    and completed below 100 percent. *)
Definition keeps_polling (j : Poller.job) : Prop :=
  Poller.async_status j = "Job Not Started"
  \/ Poller.async_status j = "Job Started"
  \/ Poller.async_status j = "Job Running"
  \/ (Poller.async_status j = "Job Completed"
      /\ Poller.async_percent_completion j < 100).

(** The first [estimated_time_to_regain_access] in a usage header, in the
    order of the accounts and, for each, of its list. *)
Definition first_estimate (usage : list (string * list Client.metadata))
  : option Z :=
  head (omap Client.estimated_time_to_regain_access (concat (map snd usage))).

(** A transient error of the rate-limit family: one of the three codes with
    the rate-limit subcode. *)
Definition rate_limited (r : Client.response) : Prop :=
  Client.raises_for_status r = true
  /\ exists err c,
       Client.body_error r = Some err
       /\ Client.is_transient err = Some true
       /\ Client.code err = Some c
       /\ (c = 80000 \/ c = 80003 \/ c = 80004)
       /\ Client.error_subcode err = Some 2446079.

(** *** Example data *)

Module Examples.

Definition stream_id : string := "ads_insights".
Definition account : string := "act_1".

(** A row of the report with its partition key. *)
Definition row (ad_id date_start : string) : insight :=
  {[ "ad_id" := ad_id; "date_start" := date_start ]}.

(** A state that holds a bookmark for the account. *)
Definition bookmarked (b : string) : state :=
  {[ stream_id := {[ account := {[ "date_start" := b ]} ]} ]}.

Definition jan (d : Z) : date := ymd2ord 2024 1 d.

(** 2024-01-09 at 06:00, for every reading of the clock. *)
Definition morning : clock :=
  let now := midnight (jan 9) + 6 * 3600 * usec_per_second in
  Clock now now now (jan 9).

(** A remote side that never fails: two ads on 4 and 5 January, in the
    range that starts on the 4th, one ad on 6 January, in the range that
    starts on the 6th, and nothing else. *)
Definition steady : remote := fun range _ =>
  if fst range =? jan 4 then
    Report [row "1" "2024-01-04"; row "2" "2024-01-04";
            row "1" "2024-01-05"; row "2" "2024-01-05"] None
  else if fst range =? jan 6 then
    Report [row "1" "2024-01-06"] None
  else Report [] None.

(** A remote side that has no rows and never fails. *)
Definition silent : remote := fun _ _ => Report [] None.

(** A remote side whose connection drops after the first row of the second
    day. *)
Definition cut_short : remote := fun _ _ =>
  Report [row "1" "2024-01-04"; row "2" "2024-01-04"; row "1" "2024-01-05"]
    (Some (OtherError "ConnectionError")).

(** A remote side whose report job fails with the known signature on the
    first [n] runs for a range, and then delivers one row. *)
Definition flaky_for (n : nat) : remote := fun _ attempt =>
  if (attempt <? n)%nat then Report [] (Some flaky)
  else Report [row "1" "2024-01-04"] None.

(** A remote side whose partition keys are no dates. *)
Definition unreadable : remote := fun _ _ =>
  Report [row "1" "abc"; row "1" "abd"; row "1" "abe"] None.

(** A remote side that rejects the token. *)
Definition unauthorized : remote := fun _ _ =>
  Report [] (Some (FacebookRequestError 190 460)).

(** A throttled response that announces one minute of waiting, a server
    error without error body, a permanent error, and a good response. *)
Definition throttled : Client.response :=
  Client.Response 400
    (Some [("act_1", [Client.Metadata None; Client.Metadata (Some 1)])])
    (Some (Client.Error (Some 80000) (Some 2446079) (Some true))).

(** A throttled response whose header gives a negative estimate. *)
Definition overdue : Client.response :=
  Client.Response 400
    (Some [("act_1", [Client.Metadata (Some (-1))])])
    (Some (Client.Error (Some 80004) (Some 2446079) (Some true))).

Definition bare_failure : Client.response := Client.Response 500 None None.

Definition permanent : Client.response :=
  Client.Response 400 None (Some (Client.Error (Some 100) None (Some false))).

Definition good : Client.response := Client.Response 200 None None.

End Examples.

(** *** Requests *)

(** A value that [requests] can put in a query string as it is. *)
Definition scalar (v : Requests.value) : Prop :=
  match v with
  | Requests.VStr _ | Requests.VInt _ => True
  | Requests.VList _ | Requests.VDict _ => False
  end.

(** A list with an element that is not a string. *)
Definition unjoinable (v : Requests.value) : Prop :=
  match v with
  | Requests.VList items => Requests.strings_of items = None
  | _ => False
  end.

(** What the server answers to a call of [__do] that goes through. *)
Definition answers (json_dumps : Requests.dict -> string) (srv : Requests.server)
  (access_token : string) (params : Requests.dict) (url : string) : Requests.fetched :=
  match Requests.request_params json_dumps access_token params with
  | Some encoded => srv url encoded
  | None => Requests.Failed (OtherError "TypeError")
  end.

(** [follows srv token params url pages e]: asked for [url] and then for
    what each page names as next, the server answers with the [pages] (the
    url asked for and the data that came), and the walk ends as [e]: on a
    page without next, or on a request that fails (listed with no data). *)
Inductive follows (json_dumps : Requests.dict -> string) (srv : Requests.server)
  (access_token : string) (params : Requests.dict)
  : string -> list (string * list insight) -> Requests.ending -> Prop :=
| follows_last url data next :
    answers json_dumps srv access_token params url = Requests.Page data next ->
    next = None \/ next = Some "" ->
    follows json_dumps srv access_token params url [(url, data)] Requests.Finished
| follows_failed url e :
    answers json_dumps srv access_token params url = Requests.Failed e ->
    follows json_dumps srv access_token params url [(url, [])] (Requests.Raised e)
| follows_next url data next pages e :
    answers json_dumps srv access_token params url = Requests.Page data (Some next) ->
    nonempty next = true ->
    follows json_dumps srv access_token params next pages e ->
    follows json_dumps srv access_token params url ((url, data) :: pages) e.

(** A date argument that [__parse_date] refuses: a string that [isoparse]
    refuses, [None], or a [date] that is not a [datetime]. *)
Definition refused (d : Requests.dateobj) : Prop :=
  match d with
  | Requests.DStr s => isoparse s = None
  | Requests.DDatetime _ => False
  | Requests.DNone | Requests.DDate _ => True
  end.

(** The state of the rate limiter after the calls that take the readings
    [ticks], one each. *)
Definition counted (l : Requests.limiter) (ticks : list Requests.reading)
  : Requests.limiter :=
  fold_left (fun l r => fst (Requests.limits l r)) ticks l.

(** The limiter lets every one of these calls through. *)
Fixpoint lets_through (l : Requests.limiter) (ticks : list Requests.reading) : Prop :=
  match ticks with
  | [] => True
  | r :: ticks' =>
      snd (Requests.limits l r) = true /\ lets_through (fst (Requests.limits l r)) ticks'
  end.

(** None of the readings is taken when the window of the limiter has run
    out. *)
Definition within_window (l : Requests.limiter) (ticks : list Requests.reading) : Prop :=
  Forall (fun r => Requests.at_test r - Requests.last_reset l < Requests.period) ticks.

(** The longest sleep, in seconds, that [time.sleep] takes on every
    platform (the oldest limit is that of Windows, which counts the
    milliseconds in 32 bits). *)
Definition sleep_limit : Z := 4294967.

(** A status that [__run_adreport] has in neither of its lists. *)
Definition unlisted (j : Poller.job) : Prop :=
  Poller.failed_status (Poller.async_status j) = false
  /\ Poller.pending_status (Poller.async_status j) = false.

(** A job on which the poller returns. *)
Definition settled (j : Poller.job) : Prop :=
  Poller.async_status j = "Job Failed" \/ Poller.async_status j = "Job Skipped"
  \/ (Poller.async_status j = "Job Completed"
      /\ Poller.async_percent_completion j = 100).

(** The requests made and the bounds of the backoff waits among the events
    of the client. *)
Definition requests (l : list Client.event) : nat :=
  List.length
    (List.filter (fun e => match e with Client.Request => true | _ => false end) l).

Definition bounds (l : list Client.event) : list Z :=
  omap (fun e => match e with Client.Backoff _ b => Some b | _ => None end) l.

Definition waits (l : list Client.event) : list Z :=
  omap (fun e => match e with Client.Sleep s => Some s | _ => None end) l.

(** *** More example data *)

Module Samples.

Import Examples.

(** A remote side whose first report for a range breaks with the retried
    signature after two rows, and whose second report is whole. *)
Definition breaks_once : remote := fun _ attempt =>
  match attempt with
  | O => Report [row "1" "2024-01-04"; row "2" "2024-01-04"] (Some flaky)
  | _ => Report [row "1" "2024-01-04"; row "2" "2024-01-04"; row "1" "2024-01-05"] None
  end.

(** A state with the bookmarks of two accounts in one stream and of one
    account in another stream. *)
Definition crowded : state :=
  {[ stream_id := {[ account := {[ "date_start" := "2024-01-05T00:00:00" ]};
                     "act_2" := {[ "date_start" := "2023-12-24T00:00:00" ]} ]};
     "leads" := {[ account := {[ "date_start" := "2023-11-30T00:00:00" ]} ]} ]}.

(** A clock that stands 37 months of 30 days after midnight of
    2024-01-05. *)
Definition on_the_limit : clock :=
  let now := midnight (jan 5) + timedelta_days (37 * 30) in
  Clock now now now (jan 5 + 37 * 30).

(** [json.dumps] on the only dict that the client encodes, the time range,
    and on nothing else. *)
Definition quoted (s : string) : string :=
  String (ascii_of_N 34) s +:+ String (ascii_of_N 34) "".

Definition dumps_range (d : Requests.dict) : string :=
  match d with
  | [(k1, Requests.VStr v1); (k2, Requests.VStr v2)] =>
      "{" +:+ quoted k1 +:+ ": " +:+ quoted v1 +:+ ", "
        +:+ quoted k2 +:+ ": " +:+ quoted v2 +:+ "}"
  | _ => "{}"
  end.

(** Parameters with a dict, a list and a number, and parameters with a list
    that holds a number. *)
Definition plain_params : Requests.dict :=
  [("level", Requests.VStr "ad");
   ("fields", Requests.VList [Requests.VStr "ad_id"; Requests.VStr "clicks"]);
   ("limit", Requests.VInt 100);
   ("access_token", Requests.VStr "stale");
   ("time_range", Requests.VDict [("since", Requests.VStr "2024-01-04");
                                  ("until", Requests.VStr "2024-01-05")])].

Definition mixed_params : Requests.dict :=
  [("level", Requests.VStr "ad");
   ("fields", Requests.VList [Requests.VStr "ad_id"; Requests.VInt 7])].

(** A server with three pages of insights, the second of them empty, and a
    server whose second page cannot be had. *)
Definition three_pages : Requests.server := fun url _ =>
  if String.eqb url "https://graph.facebook.com/v4.0/act_1/insights" then
    Requests.Page [row "1" "2024-01-04"] (Some "https://graph.facebook.com/page2")
  else if String.eqb url "https://graph.facebook.com/page2" then
    Requests.Page [] (Some "https://graph.facebook.com/page3")
  else if String.eqb url "https://graph.facebook.com/page3" then
    Requests.Page [row "1" "2024-01-05"; row "1" "2024-01-04"] None
  else Requests.Failed (OtherError "HTTPError").

Definition circular : Requests.server := fun url _ =>
  Requests.Page [row "1" "2024-01-04"] (Some url).

(** A call of [list_insights] with a start date and nothing else but the
    defaults of the method. *)
Definition from_january (start : Requests.dateobj) : Requests.query :=
  Requests.Query account start Requests.DNone [] 50 [] [] 7 [].

(** A remote side whose partition keys carry a UTC offset. *)
Definition zoned : remote := fun _ _ =>
  Report [row "1" "2024-01-04T00:00:00Z"] None.

(** A rate limiter whose window began at 0 and has counted [n] calls, and
    the clock readings of [n] calls that are one second apart, from one
    second after that on. *)
Definition counting (n : nat) : Requests.limiter := Requests.Limiter 0 n.

Definition seconds_apart (n : nat) : list Requests.reading :=
  map (fun i => let now := (Z.of_nat i + 1) * 1000000000 in Requests.Reading now now)
    (seq 0 n).

(** A transient error that is not of the rate-limit family. *)
Definition hiccup : Client.response :=
  Client.Response 503 None (Some (Client.Error (Some 2) None (Some true))).

End Samples.

(** ** Python's order on [str] *)

Section StringOrder.

Implicit Types (a b c : string).

Lemma ascii_compare_trans (x y z : ascii) o :
  Ascii.compare x y = o -> Ascii.compare y z = o -> Ascii.compare x z = o.
Proof.
  unfold Ascii.compare. intros <-.
  destruct (N.compare_spec (N_of_ascii x) (N_of_ascii y)) as [E|E|E]; intros H.
  - now rewrite E.
  - apply N.compare_lt_iff in H. apply N.compare_lt_iff.
    eapply N.lt_trans; eassumption.
  - apply N.compare_gt_iff in H. apply N.compare_gt_iff.
    eapply N.lt_trans; eassumption.
Qed.

Lemma compare_lt_trans a b c :
  String.compare a b = Lt -> String.compare b c = Lt -> String.compare a c = Lt.
Proof.
  revert b c. induction a as [|x a IH]; intros [|y b] [|z c]; simpl; try congruence.
  destruct (Ascii.compare x y) eqn:Exy; try discriminate;
    destruct (Ascii.compare y z) eqn:Eyz; try discriminate; intros Hab Hbc.
  - rewrite (ascii_compare_trans x y z Eq Exy Eyz). eauto.
  - apply Ascii.compare_eq_iff in Exy. subst. now rewrite Eyz.
  - apply Ascii.compare_eq_iff in Eyz. subst. now rewrite Exy.
  - now rewrite (ascii_compare_trans x y z Lt Exy Eyz).
Qed.

Lemma compare_refl a : String.compare a a = Eq.
Proof.
  induction a as [|x a IH]; simpl; [reflexivity|].
  assert (E : Ascii.compare x x = Eq) by (unfold Ascii.compare; apply N.compare_refl).
  now rewrite E.
Qed.

Lemma leb_refl a : String.leb a a = true.
Proof. unfold String.leb. now rewrite compare_refl. Qed.

Lemma ltb_leb a b : String.ltb a b = true -> String.leb a b = true.
Proof. unfold String.ltb, String.leb. now destruct (String.compare a b). Qed.

Lemma ltb_false_leb a b : String.ltb a b = false -> String.leb b a = true.
Proof.
  unfold String.ltb, String.leb. rewrite (String.compare_antisym a b).
  now destruct (String.compare b a).
Qed.

Lemma leb_trans a b c :
  String.leb a b = true -> String.leb b c = true -> String.leb a c = true.
Proof.
  unfold String.leb.
  destruct (String.compare a b) eqn:Eab; try discriminate;
    destruct (String.compare b c) eqn:Ebc; try discriminate; intros _ _.
  - apply String.compare_eq_iff in Eab. subst. now rewrite Ebc.
  - apply String.compare_eq_iff in Eab. subst. now rewrite Ebc.
  - apply String.compare_eq_iff in Ebc. subst. now rewrite Eab.
  - now rewrite (compare_lt_trans a b c Eab Ebc).
Qed.

Lemma ltb_irrefl a : String.ltb a a = false.
Proof. unfold String.ltb. now rewrite compare_refl. Qed.

Lemma ltb_nonempty a b : String.ltb a b = true -> nonempty b = true.
Proof. destruct b; [now destruct a | reflexivity]. Qed.

Lemma leb_empty a : String.leb "" a = true.
Proof. now destruct a. Qed.

End StringOrder.

(** ** Date ranges (the chunking of lines 82-102) *)

Section Ranges.

Implicit Types (a b c since until : date) (rs : list (date * date)).

Lemma chained_app a b c rs rs' :
  chained a rs b -> chained b rs' c -> chained a (rs ++ rs') c.
Proof.
  revert a. induction rs as [|r rs IH]; simpl; intros a.
  - now intros ->.
  - intros (? & ? & ?) ?. repeat split; auto; lia.
Qed.

Lemma chained_le a b rs : chained a rs b -> a <= b.
Proof.
  revert a. induction rs as [|r rs IH]; simpl; intros a.
  - lia.
  - intros (? & ? & H). apply IH in H. lia.
Qed.

Lemma chained_days a b rs :
  chained a rs b -> concat (map days_of rs) = seqZ a (b - a).
Proof.
  revert a. induction rs as [|r rs IH]; simpl; intros a.
  - intros ->. now rewrite seqZ_nil by lia.
  - intros (Ha & Hr & H). pose proof (chained_le _ _ _ H) as Hle.
    rewrite (IH _ H). unfold days_of. rewrite Ha in *.
    replace (b - a) with ((snd r - a + 1) + (b - (snd r + 1))) by lia.
    rewrite (seqZ_app a (snd r - a + 1) (b - (snd r + 1))) by lia.
    do 2 f_equal; lia.
Qed.

Lemma chained_adjacent a b rs i r r' :
  chained a rs b -> rs !! i = Some r -> rs !! S i = Some r' -> fst r' = snd r + 1.
Proof.
  revert a i. induction rs as [|r0 rs IH]; intros a i; [discriminate|].
  simpl. intros (_ & _ & H). destruct i as [|i]; simpl.
  - intros [= ->]. destruct rs as [|r1 rs]; [discriminate|].
    simpl. intros [= ->]. simpl in H. tauto.
  - apply (IH _ _ H).
Qed.

Lemma chained_widths a b rs :
  chained a rs b -> Forall (fun r => fst r <= snd r /\ snd r - fst r <= 1) rs.
Proof.
  revert a. induction rs as [|r rs IH]; simpl; intros a; [constructor|].
  intros (_ & ? & H). constructor; [lia | eauto].
Qed.

Lemma chained_last a b rs :
  chained a rs b -> rs <> [] -> exists r, last rs = Some r /\ snd r = b - 1.
Proof.
  revert a. induction rs as [|r rs IH]; intros a; [congruence|].
  simpl. intros (_ & _ & H) _. destruct rs as [|r1 rs].
  - simpl in H. exists r. split; [reflexivity | lia].
  - rewrite last_cons_cons. apply (IH _ H). discriminate.
Qed.

(** The loop extends a chain by two-day ranges and stops on [until] or on
    the day after it. *)
Lemma chunk_loop_chained a from_date until acc :
  chained a acc from_date -> from_date <= until + 1 ->
  chained a (fst (chunk_loop from_date until acc)) (snd (chunk_loop from_date until acc))
  /\ until <= snd (chunk_loop from_date until acc) <= until + 1.
Proof.
  funelim (chunk_loop from_date until acc); intros Hacc Hle.
  - simpl. split; [assumption | lia].
  - apply H; [|lia].
    eapply chained_app; [eassumption|]. simpl. repeat split; lia.
Qed.

Lemma time_ranges_chained since until :
  since <= until -> chained since (time_ranges_of since until) (until + 1).
Proof.
  intros Hle. unfold time_ranges_of.
  destruct (1 <? until - since) eqn:Hbig.
  - pose proof (chunk_loop_chained since since until [] eq_refl ltac:(lia)) as [Hc Hb].
    destruct (chunk_loop since until []) as [rs from_date]. simpl in *.
    destruct (from_date <=? until) eqn:Htail.
    + apply Z.leb_le in Htail. eapply chained_app; [eassumption|].
      simpl. repeat split; lia.
    + apply Z.leb_gt in Htail. now replace (until + 1) with from_date by lia.
  - apply Z.ltb_ge in Hbig. simpl. repeat split; lia.
Qed.

(** C4. For [since <= until] the ranges requested by [process_account]
    start at [since] and end at [until]; the days of the ranges, listed in
    order, are exactly the days [since .. until], each once; every range
    starts the day after the previous one ends; every range ends at most
    one day after it starts; when [until - since <= 1] day the single range
    [(since, until)] is requested; and when the chunking loop leaves a
    [from_date] that is still [<= until], the range from it to [until] is
    the last one. *)
Theorem time_ranges_partition since until :
  since <= until ->
  let rs := time_ranges_of since until in
  (exists r, head rs = Some r /\ fst r = since)
  /\ (exists r, last rs = Some r /\ snd r = until)
  /\ concat (map days_of rs) = seqZ since (until - since + 1)
  /\ (forall i r r', rs !! i = Some r -> rs !! S i = Some r' -> fst r' = snd r + 1)
  /\ Forall (fun r => fst r <= snd r /\ snd r - fst r <= 1) rs
  /\ (until - since <= 1 -> rs = [(since, until)])
  /\ (1 < until - since ->
      snd (chunk_loop since until []) <= until ->
      last rs = Some (snd (chunk_loop since until []), until)).
Proof.
  intros Hle rs. pose proof (time_ranges_chained since until Hle) as Hc.
  fold rs in Hc.
  assert (Hne : rs <> []).
  { intros E. rewrite E in Hc. simpl in Hc. lia. }
  repeat split.
  - destruct rs as [|r rs']; [congruence|]. exists r. simpl in Hc. tauto.
  - destruct (chained_last _ _ _ Hc Hne) as (r & ? & ?). exists r. split; [assumption | lia].
  - rewrite (chained_days _ _ _ Hc). f_equal. lia.
  - intros i r r'. apply (chained_adjacent _ _ _ _ _ _ Hc).
  - apply (chained_widths _ _ _ Hc).
  - intros Hsmall. subst rs. unfold time_ranges_of.
    now replace (1 <? until - since) with false by (symmetry; apply Z.ltb_ge; lia).
  - intros Hbig Htail. subst rs. unfold time_ranges_of.
    replace (1 <? until - since) with true by (symmetry; apply Z.ltb_lt; lia).
    destruct (chunk_loop since until []) as [rs' from_date]. simpl in *.
    replace (from_date <=? until) with true by (symmetry; apply Z.leb_le; lia).
    apply last_snoc.
Qed.

End Ranges.

Section RangeCount.

Implicit Types (since until from_date : date) (acc : list (date * date)).

(** The loop appends one range for every two days that are left. *)
Lemma chunk_loop_count from_date until acc :
  from_date <= until + 1 ->
  Z.of_nat (length (fst (chunk_loop from_date until acc)))
  = Z.of_nat (length acc) + (until + 1 - from_date) / 2
  /\ snd (chunk_loop from_date until acc)
     = from_date + 2 * ((until + 1 - from_date) / 2).
Proof.
  funelim (chunk_loop from_date until acc); intros Hle.
  - simpl. assert (E : (until + 1 - from_date) / 2 = 0)
      by (apply Z.div_small; lia).
    rewrite E. lia.
  - destruct H as [Hlen Hend]; [lia|].
    rewrite Hlen, Hend, length_app. simpl.
    replace (until + 1 - from_date) with ((until + 1 - (from_date + 1 + 1)) + 1 * 2) by lia.
    rewrite Z.div_add by lia. lia.
Qed.

(** A span of [n] days from [since] to [until] is asked for in
    [n / 2 + 1] reports (one report per pair of days, and one for the day
    that is left over or for the span of at most one day). *)
Theorem time_ranges_count since until :
  since <= until ->
  Z.of_nat (length (time_ranges_of since until)) = (until - since) / 2 + 1.
Proof.
  intros Hle. unfold time_ranges_of.
  destruct (1 <? until - since) eqn:Hbig.
  - apply Z.ltb_lt in Hbig.
    destruct (chunk_loop_count since until [] ltac:(lia)) as [Hlen Hend].
    destruct (chunk_loop since until []) as [rs from_date]. simpl in *.
    pose proof (Z.div_mod (until + 1 - since) 2 ltac:(lia)) as Hdm.
    pose proof (Z.mod_pos_bound (until + 1 - since) 2 ltac:(lia)) as Hm.
    pose proof (Z.div_mod (until - since) 2 ltac:(lia)) as Hdm'.
    pose proof (Z.mod_pos_bound (until - since) 2 ltac:(lia)) as Hm'.
    destruct (from_date <=? until) eqn:Htail.
    + apply Z.leb_le in Htail. rewrite length_app. simpl. lia.
    + apply Z.leb_gt in Htail. lia.
  - apply Z.ltb_ge in Hbig. simpl.
    assert (E : (until - since) / 2 = 0) by (apply Z.div_small; lia).
    rewrite E. reflexivity.
Qed.

End RangeCount.

(** ** Timestamps: what is written can be read back *)

Section CalendarRoundTrip.

(** *** Digits and numbers *)

Lemma digit_char_code x : Z.of_N (N_of_ascii (digit_char x)) = 48 + x mod 10.
Proof.
  unfold digit_char.
  pose proof (Z.mod_pos_bound x 10 ltac:(lia)) as Hm.
  rewrite N_ascii_embedding by lia. lia.
Qed.

Lemma digit_of_digit_char x : digit_of (digit_char x) = Some (x mod 10).
Proof.
  unfold digit_of. rewrite digit_char_code.
  pose proof (Z.mod_pos_bound x 10 ltac:(lia)) as Hm.
  replace (48 <=? 48 + x mod 10) with true by (symmetry; apply Z.leb_le; lia).
  replace (48 + x mod 10 <=? 57) with true by (symmetry; apply Z.leb_le; lia).
  simpl. f_equal. lia.
Qed.

Lemma digit_of_bound c d : digit_of c = Some d -> 0 <= d <= 9.
Proof.
  unfold digit_of. destruct (_ && _) eqn:E; [|discriminate]. intros [= <-].
  apply andb_prop in E as [E1 E2]. apply Z.leb_le in E1, E2. lia.
Qed.

(** A digit is no other character. *)
Lemma digit_char_is_not x c : digit_of c = None -> Ascii.eqb (digit_char x) c = false.
Proof.
  intros Hc. apply Ascii.eqb_neq. intros <-.
  rewrite digit_of_digit_char in Hc. discriminate.
Qed.

Lemma digit_char_no_space x : is_space (digit_char x) = false.
Proof.
  unfold is_space. rewrite digit_char_code.
  pose proof (Z.mod_pos_bound x 10 ltac:(lia)) as Hm.
  apply orb_false_iff. split.
  - apply andb_false_iff. right. apply Z.leb_gt. lia.
  - apply Z.eqb_neq. lia.
Qed.

Lemma digit_char_ascii x : (Z.of_N (N_of_ascii (digit_char x)) <? 128) = true.
Proof.
  rewrite digit_char_code. pose proof (Z.mod_pos_bound x 10 ltac:(lia)).
  apply Z.ltb_lt. lia.
Qed.

Lemma int_digits_digit x acc seen underscore rest :
  int_digits acc seen underscore (digit_char x :: rest)
  = int_digits (acc * 10 + x mod 10) true false rest.
Proof. simpl. now rewrite digit_of_digit_char. Qed.

(** [int] on a number that starts with a digit. *)
Lemma int_of_bytes_digit x rest :
  int_of_bytes (digit_char x :: rest)
  = match int_digits (x mod 10) true false rest with
    | Some (n, rest') =>
        match lstrip rest' with
        | [] => Some n
        | _ :: _ => None
        end
    | None => None
    end.
Proof.
  unfold int_of_bytes. cbn [lstrip]. rewrite digit_char_no_space.
  rewrite !(digit_char_is_not x) by reflexivity.
  rewrite int_digits_digit. change (0 * 10 + x mod 10) with (x mod 10).
  destruct (int_digits _ _ _ _) as [[n rest']|]; [|reflexivity].
  destruct (lstrip rest'); [|reflexivity]. f_equal. lia.
Qed.

Lemma int_of_bytes_two a : 0 <= a < 100 ->
  int_of_bytes [digit_char (a / 10); digit_char a] = Some a.
Proof.
  intros Ha. rewrite int_of_bytes_digit, int_digits_digit. simpl. f_equal.
  pose proof (Z.div_mod a 10 ltac:(lia)).
  pose proof (Z.mod_pos_bound a 10 ltac:(lia)).
  assert (0 <= a / 10 < 10) by (split; [apply Z.div_pos; lia | apply Z.div_lt_upper_bound; lia]).
  rewrite (Z.mod_small (a / 10) 10) by lia. lia.
Qed.

Lemma int_of_bytes_four a : 0 <= a < 10000 ->
  int_of_bytes [digit_char (a / 10 / 10 / 10); digit_char (a / 10 / 10);
                digit_char (a / 10); digit_char a] = Some a.
Proof.
  intros Ha. rewrite int_of_bytes_digit, !int_digits_digit. simpl. f_equal.
  pose proof (Z.div_mod a 10 ltac:(lia)).
  pose proof (Z.mod_pos_bound a 10 ltac:(lia)).
  pose proof (Z.div_mod (a / 10) 10 ltac:(lia)).
  pose proof (Z.mod_pos_bound (a / 10) 10 ltac:(lia)).
  pose proof (Z.div_mod (a / 10 / 10) 10 ltac:(lia)).
  pose proof (Z.mod_pos_bound (a / 10 / 10) 10 ltac:(lia)).
  assert (0 <= a / 10 / 10 / 10 < 10).
  { split; [repeat apply Z.div_pos; lia|].
    repeat (apply Z.div_lt_upper_bound; [lia|]). lia. }
  rewrite (Z.mod_small (a / 10 / 10 / 10) 10) by lia. lia.
Qed.

Lemma int_of_bytes_six a : 0 <= a < 1000000 ->
  int_of_bytes [digit_char (a / 10 / 10 / 10 / 10 / 10); digit_char (a / 10 / 10 / 10 / 10);
                digit_char (a / 10 / 10 / 10); digit_char (a / 10 / 10);
                digit_char (a / 10); digit_char a] = Some a.
Proof.
  intros Ha. rewrite int_of_bytes_digit, !int_digits_digit. simpl. f_equal.
  pose proof (Z.div_mod a 10 ltac:(lia)).
  pose proof (Z.mod_pos_bound a 10 ltac:(lia)).
  pose proof (Z.div_mod (a / 10) 10 ltac:(lia)).
  pose proof (Z.mod_pos_bound (a / 10) 10 ltac:(lia)).
  pose proof (Z.div_mod (a / 10 / 10) 10 ltac:(lia)).
  pose proof (Z.mod_pos_bound (a / 10 / 10) 10 ltac:(lia)).
  pose proof (Z.div_mod (a / 10 / 10 / 10) 10 ltac:(lia)).
  pose proof (Z.mod_pos_bound (a / 10 / 10 / 10) 10 ltac:(lia)).
  pose proof (Z.div_mod (a / 10 / 10 / 10 / 10) 10 ltac:(lia)).
  pose proof (Z.mod_pos_bound (a / 10 / 10 / 10 / 10) 10 ltac:(lia)).
  assert (0 <= a / 10 / 10 / 10 / 10 / 10 < 10).
  { split; [repeat apply Z.div_pos; lia|].
    repeat (apply Z.div_lt_upper_bound; [lia|]). lia. }
  rewrite (Z.mod_small (a / 10 / 10 / 10 / 10 / 10) 10) by lia. lia.
Qed.

(** The value of [int] on [k] bytes has fewer than [k] digits after a minus
    sign and at most [k] without. *)
Lemma lstrip_length l : (length (lstrip l) <= length l)%nat.
Proof.
  induction l as [|c l IH]; simpl; [lia|]. destruct (is_space c); simpl; lia.
Qed.

Lemma int_digits_bound l : forall acc seen underscore n rest,
  int_digits acc seen underscore l = Some (n, rest) -> 0 <= acc ->
  acc <= n < (acc + 1) * 10 ^ Z.of_nat (length l).
Proof.
  induction l as [|c l IH]; intros acc seen underscore n rest; simpl int_digits.
  - destruct (_ || _); [discriminate|]. intros [= <- _] Hacc. simpl. lia.
  - intros H Hacc.
    assert (Hpow : 10 ^ Z.of_nat (length (c :: l)) = 10 * 10 ^ Z.of_nat (length l)).
    { simpl length. rewrite Nat2Z.inj_succ, Z.pow_succ_r by lia. reflexivity. }
    pose proof (Z.pow_pos_nonneg 10 (Z.of_nat (length l)) ltac:(lia) ltac:(lia)) as Hpos.
    destruct (digit_of c) as [d|] eqn:Hd.
    + apply digit_of_bound in Hd. apply IH in H; [|lia]. rewrite Hpow. nia.
    + destruct (Ascii.eqb c "_").
      * destruct underscore; [discriminate|]. apply IH in H; [|lia]. rewrite Hpow. nia.
      * destruct (_ || _); [discriminate|]. injection H as <- _. rewrite Hpow. nia.
Qed.

Lemma int_of_bytes_bound l v :
  int_of_bytes l = Some v ->
  - 10 ^ Z.of_nat (length l - 1) < v < 10 ^ Z.of_nat (length l).
Proof.
  unfold int_of_bytes. pose proof (lstrip_length l) as Hlen.
  assert (Hmono : forall a b, (a <= b)%nat -> 10 ^ Z.of_nat a <= 10 ^ Z.of_nat b).
  { intros a b Hab. apply Z.pow_le_mono_r; lia. }
  assert (Hpos : forall a, 0 < 10 ^ Z.of_nat a).
  { intros a. apply Z.pow_pos_nonneg; lia. }
  destruct (lstrip l) as [|c b]; [discriminate|]. simpl length in Hlen.
  assert (Hdigits : forall sign b',
    (sign = 1 /\ (length b' <= length l)%nat
     \/ sign = -1 /\ (length b' <= length l - 1)%nat) ->
    match b' with
    | [] => None
    | c' :: _ =>
        if Ascii.eqb c' "_" then None
        else match int_digits 0 false false b' with
             | Some (n, rest) => match lstrip rest with
                                 | [] => Some (sign * n)
                                 | _ :: _ => None
                                 end
             | None => None
             end
    end = Some v ->
    - 10 ^ Z.of_nat (length l - 1) < v < 10 ^ Z.of_nat (length l)).
  { intros sign b' Hsign H. destruct b' as [|c' b'']; [discriminate|].
    destruct (Ascii.eqb c' "_"); [discriminate|].
    destruct (int_digits 0 false false (c' :: b'')) as [[n rest]|] eqn:Hn; [|discriminate].
    destruct (lstrip rest); [|discriminate]. injection H as <-.
    apply int_digits_bound in Hn; [|lia].
    pose proof (Hpos (length l - 1)%nat). pose proof (Hpos (length l)).
    destruct Hsign as [[-> Hb]|[-> Hb]].
    - pose proof (Hmono _ _ Hb). lia.
    - pose proof (Hmono _ _ Hb). lia. }
  destruct (Ascii.eqb c "-"); [|destruct (Ascii.eqb c "+")]; intros H.
  - apply (Hdigits (-1) b); [right; split; [reflexivity | lia] | exact H].
  - apply (Hdigits 1 b); [left; split; [reflexivity | lia] | exact H].
  - apply (Hdigits 1 (c :: b)); [left; split; [reflexivity | simpl; lia] | exact H].
Qed.

(** *** Ordinals and calendar dates *)

Lemma is_leap_spec y :
  is_leap y = true <-> y mod 4 = 0 /\ (y mod 100 <> 0 \/ y mod 400 = 0).
Proof.
  unfold is_leap. rewrite andb_true_iff, orb_true_iff, negb_true_iff.
  rewrite !Z.eqb_eq, Z.eqb_neq. tauto.
Qed.

Lemma div_mod_at n k q r : 0 <= r < k -> n = k * q + r -> n / k = q /\ n mod k = r.
Proof.
  intros Hr Hn. split.
  - symmetry. apply (Z.div_unique n k q r); [left; exact Hr | exact Hn].
  - symmetry. apply (Z.mod_unique n k q r); [left; exact Hr | exact Hn].
Qed.

(** A year, counted from zero, in cycles of 400, 100 and 4 years. *)
Lemma year_cycles Y :
  0 <= Y ->
  exists a b c e,
    Y = 400 * a + 100 * b + 4 * c + e
    /\ 0 <= a /\ 0 <= b <= 3 /\ 0 <= c <= 24 /\ 0 <= e <= 3
    /\ Y * 365 + Y / 4 - Y / 100 + Y / 400
       = 146097 * a + 36524 * b + 1461 * c + 365 * e.
Proof.
  intros HY.
  pose proof (Z.div_mod Y 400 ltac:(lia)) as H400.
  pose proof (Z.mod_pos_bound Y 400 ltac:(lia)) as B400.
  pose proof (Z.div_mod (Y mod 400) 100 ltac:(lia)) as H100.
  pose proof (Z.mod_pos_bound (Y mod 400) 100 ltac:(lia)) as B100.
  pose proof (Z.div_mod (Y mod 400 mod 100) 4 ltac:(lia)) as H4.
  pose proof (Z.mod_pos_bound (Y mod 400 mod 100) 4 ltac:(lia)) as B4.
  set (a := Y / 400) in *. set (r := Y mod 400) in *.
  set (b := r / 100) in *. set (r2 := r mod 100) in *.
  set (c := r2 / 4) in *. set (e := r2 mod 4) in *.
  assert (Ha : 0 <= a) by lia.
  assert (Hb : 0 <= b <= 3) by lia.
  assert (Hc : 0 <= c <= 24) by lia.
  assert (HYe : Y = 400 * a + 100 * b + 4 * c + e) by lia.
  exists a, b, c, e. repeat split; try lia.
  destruct (div_mod_at Y 4 (100 * a + 25 * b + c) e ltac:(lia) ltac:(lia)) as [-> _].
  destruct (div_mod_at Y 100 (4 * a + b) (4 * c + e) ltac:(lia) ltac:(lia)) as [-> _].
  lia.
Qed.

(** The year and the day of the year of an ordinal, away from the last day
    of a leap year. *)
Lemma year_of_ordinal Y doy :
  0 <= Y -> 0 <= doy < 365 ->
  let n := Y * 365 + Y / 4 - Y / 100 + Y / 400 + doy in
  let n400 := n / 146097 in
  let n100 := n mod 146097 / 36524 in
  let n4 := n mod 146097 mod 36524 / 1461 in
  let n1 := n mod 146097 mod 36524 mod 1461 / 365 in
  n400 * 400 + 1 + n100 * 100 + n4 * 4 + n1 = Y + 1
  /\ n mod 146097 mod 36524 mod 1461 mod 365 = doy
  /\ n1 <> 4 /\ n100 <> 4.
Proof.
  intros HY Hdoy. cbn zeta.
  destruct (year_cycles Y HY) as (a & b & c & e & HYe & Ha & Hb & Hc & He & ->).
  destruct (div_mod_at (146097 * a + 36524 * b + 1461 * c + 365 * e + doy) 146097 a
              (36524 * b + 1461 * c + 365 * e + doy) ltac:(lia) ltac:(lia)) as [-> ->].
  destruct (div_mod_at (36524 * b + 1461 * c + 365 * e + doy) 36524 b
              (1461 * c + 365 * e + doy) ltac:(lia) ltac:(lia)) as [-> ->].
  destruct (div_mod_at (1461 * c + 365 * e + doy) 1461 c
              (365 * e + doy) ltac:(lia) ltac:(lia)) as [-> ->].
  destruct (div_mod_at (365 * e + doy) 365 e doy ltac:(lia) ltac:(lia)) as [-> ->].
  lia.
Qed.

(** The same on the last day of a leap year, which the division by 365
    would put in a year of its own. *)
Lemma year_of_last_leap_day Y :
  0 <= Y -> is_leap (Y + 1) = true ->
  let n := Y * 365 + Y / 4 - Y / 100 + Y / 400 + 365 in
  let n400 := n / 146097 in
  let n100 := n mod 146097 / 36524 in
  let n4 := n mod 146097 mod 36524 / 1461 in
  let n1 := n mod 146097 mod 36524 mod 1461 / 365 in
  (n1 = 4 \/ n100 = 4)
  /\ n400 * 400 + 1 + n100 * 100 + n4 * 4 + n1 - 1 = Y + 1.
Proof.
  intros HY Hleap. cbn zeta. apply is_leap_spec in Hleap as [H4 H100].
  destruct (year_cycles Y HY) as (a & b & c & e & HYe & Ha & Hb & Hc & He & ->).
  assert (E : e = 3).
  { destruct (div_mod_at (Y + 1) 4 (100 * a + 25 * b + c + (e + 1) / 4) ((e + 1) mod 4))
      as [_ Hm].
    - apply Z.mod_pos_bound. lia.
    - pose proof (Z.div_mod (e + 1) 4 ltac:(lia)). lia.
    - rewrite Hm in H4.
      assert (e = 0 \/ e = 1 \/ e = 2 \/ e = 3) as [->|[->|[->| ->]]] by lia;
        try reflexivity; discriminate H4. }
  subst e.
  destruct (Z.eq_dec c 24) as [->|Hc24].
  - assert (E : b = 3).
    { assert (H100' : (Y + 1) mod 100 = 0).
      { apply (div_mod_at (Y + 1) 100 (4 * a + b + 1) 0); lia. }
      destruct H100 as [H100|H400]; [contradiction|].
      destruct (div_mod_at (Y + 1) 400 (a + (b + 1) / 4) (100 * ((b + 1) mod 4)))
        as [_ Hm].
      - pose proof (Z.mod_pos_bound (b + 1) 4 ltac:(lia)). lia.
      - pose proof (Z.div_mod (b + 1) 4 ltac:(lia)). lia.
      - rewrite Hm in H400.
        assert (b = 0 \/ b = 1 \/ b = 2 \/ b = 3) as [->|[->|[->| ->]]] by lia;
          try reflexivity; discriminate H400. }
    subst b.
    destruct (div_mod_at (146097 * a + 36524 * 3 + 1461 * 24 + 365 * 3 + 365) 146097 a
                146096 ltac:(lia) ltac:(lia)) as [-> ->].
    change (146096 / 36524) with 4. change (146096 mod 36524) with 0.
    change (0 / 1461) with 0. change (0 mod 1461) with 0. change (0 / 365) with 0.
    split; [now right | lia].
  - destruct (div_mod_at (146097 * a + 36524 * b + 1461 * c + 365 * 3 + 365) 146097 a
                (36524 * b + 1461 * c + 1460) ltac:(lia) ltac:(lia)) as [-> ->].
    destruct (div_mod_at (36524 * b + 1461 * c + 1460) 36524 b
                (1461 * c + 1460) ltac:(lia) ltac:(lia)) as [-> ->].
    destruct (div_mod_at (1461 * c + 1460) 1461 c 1460 ltac:(lia) ltac:(lia)) as [-> ->].
    change (1460 / 365) with 4. split; [now left | lia].
Qed.

Lemma days_in_month_bound y m : 28 <= days_in_month y m <= 31.
Proof.
  unfold days_in_month.
  destruct (m =? 2); [destruct (is_leap y); lia|].
  destruct (_ || _); lia.
Qed.

Lemma days_before_month_succ y m :
  1 <= m -> days_before_month y (m + 1) = days_before_month y m + days_in_month y m.
Proof.
  intros Hm. unfold days_before_month.
  replace (Z.to_nat (m + 1 - 1)) with (S (Z.to_nat (m - 1))) by lia.
  cbn [days_before_month_aux]. do 2 f_equal. lia.
Qed.

Lemma days_before_month_mono y k : forall m,
  1 <= m -> days_before_month y m <= days_before_month y (m + Z.of_nat k).
Proof.
  induction k as [|k IH]; intros m Hm.
  - replace (m + Z.of_nat 0) with m by lia. lia.
  - replace (m + Z.of_nat (S k)) with (m + Z.of_nat k + 1) by lia.
    rewrite days_before_month_succ by lia.
    pose proof (days_in_month_bound y (m + Z.of_nat k)). specialize (IH m Hm). lia.
Qed.

Lemma days_before_month_13 y :
  days_before_month y 13 = if is_leap y then 366 else 365.
Proof.
  unfold days_before_month. change (Z.to_nat (13 - 1)) with 12%nat.
  cbn [days_before_month_aux].
  repeat match goal with
    | |- context [days_in_month y (Z.of_nat ?k)] =>
        let v := eval vm_compute in (Z.of_nat k) in
        change (Z.of_nat k) with v
    end.
  unfold days_in_month.
  repeat match goal with
    | |- context [?a =? ?b] =>
        let v := eval vm_compute in (a =? b) in
        change (a =? b) with v
    end.
  cbn [orb]. cbv iota. destruct (is_leap y); reflexivity.
Qed.

(** The month and the day of the month of a day of the year. *)
Lemma month_scan_finds y m d fuel : forall month n,
  1 <= month -> month + Z.of_nat fuel = 12 ->
  month <= m <= 12 -> 1 <= d <= days_in_month y m ->
  n = days_before_month y m - days_before_month y month + d - 1 ->
  month_scan y fuel month n = (m, d).
Proof.
  induction fuel as [|fuel IH]; intros month n Hmonth Hfuel Hm Hd Hn.
  - assert (m = month) as -> by lia. simpl. f_equal. lia.
  - cbn [month_scan]. destruct (Z.eq_dec m month) as [->|Hne].
    + replace (n <? days_in_month y month) with true
        by (symmetry; apply Z.ltb_lt; lia).
      f_equal. lia.
    + pose proof (days_before_month_mono y (Z.to_nat (m - (month + 1))) (month + 1)
                    ltac:(lia)) as Hmono.
      replace (month + 1 + Z.of_nat (Z.to_nat (m - (month + 1)))) with m in Hmono by lia.
      rewrite days_before_month_succ in Hmono by lia.
      replace (n <? days_in_month y month) with false
        by (symmetry; apply Z.ltb_ge; lia).
      apply IH; try lia. rewrite days_before_month_succ by lia. lia.
Qed.

Lemma day_of_year_bound y m d :
  1 <= m <= 12 -> 1 <= d <= days_in_month y m ->
  0 <= days_before_month y m + d - 1 < (if is_leap y then 366 else 365).
Proof.
  intros Hm Hd.
  pose proof (days_before_month_mono y (Z.to_nat (m - 1)) 1 ltac:(lia)) as Hlow.
  replace (1 + Z.of_nat (Z.to_nat (m - 1))) with m in Hlow by lia.
  change (days_before_month y 1) with 0 in Hlow.
  pose proof (days_before_month_mono y (Z.to_nat (12 - m)) (m + 1) ltac:(lia)) as Hhigh.
  replace (m + 1 + Z.of_nat (Z.to_nat (12 - m))) with 13 in Hhigh by lia.
  rewrite days_before_month_succ, days_before_month_13 in Hhigh by lia.
  destruct (is_leap y); lia.
Qed.

(** [date.fromordinal(date(y, m, d).toordinal())] is [date(y, m, d)]. *)
Lemma ord2ymd_ymd2ord y m d :
  1 <= y -> 1 <= m <= 12 -> 1 <= d <= days_in_month y m ->
  ord2ymd (ymd2ord y m d) = (y, m, d).
Proof.
  intros Hy Hm Hd.
  pose proof (day_of_year_bound y m d Hm Hd) as Hdoy.
  unfold ord2ymd, ymd2ord, days_before_year.
  set (doy := days_before_month y m + d - 1) in *.
  replace ((y - 1) * 365 + (y - 1) / 4 - (y - 1) / 100 + (y - 1) / 400
           + days_before_month y m + d - 1)
    with ((y - 1) * 365 + (y - 1) / 4 - (y - 1) / 100 + (y - 1) / 400 + doy)
    by (subst doy; lia).
  destruct (Z.eq_dec doy 365) as [E365|Hne].
  - (* 31 December of a leap year *)
    destruct (is_leap y) eqn:Hleap; [|lia].
    assert (Hlast : m = 12 /\ d = 31).
    { pose proof (days_before_month_13 y) as H13. rewrite Hleap in H13.
      pose proof (days_before_month_succ y 12 ltac:(lia)) as H12.
      change (12 + 1) with 13 in H12. change (days_in_month y 12) with 31 in H12.
      destruct (Z.eq_dec m 12) as [->|Hm12]; [subst doy; lia|]. exfalso.
      pose proof (days_before_month_mono y (Z.to_nat (12 - (m + 1))) (m + 1)
                    ltac:(lia)) as Hmono.
      replace (m + 1 + Z.of_nat (Z.to_nat (12 - (m + 1)))) with 12 in Hmono by lia.
      rewrite days_before_month_succ in Hmono by lia. subst doy. lia. }
    destruct Hlast as [-> ->]. rewrite E365.
    replace y with (y - 1 + 1) in Hleap by lia.
    destruct (year_of_last_leap_day (y - 1) ltac:(lia) Hleap) as [Hedge Hyear].
    cbn zeta in Hedge, Hyear.
    replace (_ || _) with true.
    + rewrite Hyear. f_equal. f_equal. lia.
    + symmetry. apply orb_true_iff.
      destruct Hedge as [H|H]; [left | right]; now apply Z.eqb_eq.
  - assert (Hlt : 0 <= doy < 365) by (destruct (is_leap y); lia).
    destruct (year_of_ordinal (y - 1) doy ltac:(lia) Hlt) as (Hyear & Hrem & Hn1 & Hn100).
    cbn zeta in Hyear, Hrem, Hn1, Hn100.
    replace (_ || _) with false.
    + rewrite Hyear, Hrem. replace (y - 1 + 1) with y by lia.
      rewrite (month_scan_finds y m d 11 1 doy); try lia; [reflexivity|].
      change (days_before_month y 1) with 0. subst doy. lia.
    + symmetry. apply orb_false_iff. split; now apply Z.eqb_neq.
Qed.

Lemma div_step y k : 0 < k -> y / k = (y - 1) / k + (if y mod k =? 0 then 1 else 0).
Proof.
  intros Hk.
  pose proof (Z.div_mod y k ltac:(lia)) as H1.
  pose proof (Z.mod_pos_bound y k Hk) as B1.
  destruct (y mod k =? 0) eqn:E.
  - apply Z.eqb_eq in E.
    destruct (div_mod_at (y - 1) k (y / k - 1) (k - 1) ltac:(lia) ltac:(lia)) as [-> _]. lia.
  - apply Z.eqb_neq in E.
    destruct (div_mod_at (y - 1) k (y / k) (y mod k - 1) ltac:(lia) ltac:(lia)) as [-> _]. lia.
Qed.

Lemma days_before_year_succ y :
  days_before_year (y + 1) = days_before_year y + (if is_leap y then 366 else 365).
Proof.
  unfold days_before_year, is_leap. replace (y + 1 - 1) with y by lia. cbn zeta.
  rewrite (div_step y 4), (div_step y 100), (div_step y 400) by lia.
  assert (H100 : y mod 400 = 0 -> y mod 100 = 0).
  { intros H. rewrite (Z.div_mod y 400) by lia. rewrite H, Z.add_0_r.
    replace (400 * (y / 400)) with (4 * (y / 400) * 100) by lia. apply Z.mod_mul. lia. }
  assert (H4 : y mod 100 = 0 -> y mod 4 = 0).
  { intros H. rewrite (Z.div_mod y 100) by lia. rewrite H, Z.add_0_r.
    replace (100 * (y / 100)) with (25 * (y / 100) * 4) by lia. apply Z.mod_mul. lia. }
  destruct (y mod 4 =? 0) eqn:E4; destruct (y mod 100 =? 0) eqn:E100;
    destruct (y mod 400 =? 0) eqn:E400; simpl;
    rewrite ?Z.eqb_eq, ?Z.eqb_neq in *; lia.
Qed.

Lemma valid_date_spec y m d :
  valid_date y m d = true
  <-> 1 <= y <= 9999 /\ 1 <= m <= 12 /\ 1 <= d <= days_in_month y m.
Proof.
  unfold valid_date. rewrite !andb_true_iff, !Z.leb_le. lia.
Qed.

Lemma ymd2ord_last : ymd2ord 9999 12 31 = max_ordinal.
Proof. vm_compute. reflexivity. Qed.

(** The day after a calendar day is a calendar day, unless the years run
    out. *)
Lemma next_day y m d :
  valid_date y m d = true -> ymd2ord y m d + 1 <= max_ordinal ->
  exists y' m' d', valid_date y' m' d' = true /\ ymd2ord y' m' d' = ymd2ord y m d + 1.
Proof.
  rewrite valid_date_spec. intros (Hy & Hm & Hd) Hmax.
  destruct (Z_lt_le_dec d (days_in_month y m)) as [Hlt|Hge].
  - exists y, m, (d + 1). rewrite valid_date_spec. unfold ymd2ord. lia.
  - assert (d = days_in_month y m) as -> by lia.
    destruct (Z_lt_le_dec m 12) as [Hm12|Hm12].
    + exists y, (m + 1), 1. rewrite valid_date_spec.
      pose proof (days_in_month_bound y (m + 1)).
      unfold ymd2ord. rewrite days_before_month_succ by lia. lia.
    + assert (m = 12) as -> by lia.
      assert (Hy' : y <> 9999).
      { intros ->. change (days_in_month 9999 12) with 31 in Hmax.
        rewrite ymd2ord_last in Hmax. lia. }
      exists (y + 1), 1, 1. rewrite valid_date_spec.
      pose proof (days_in_month_bound (y + 1) 1).
      unfold ymd2ord. rewrite days_before_year_succ.
      change (days_before_month (y + 1) 1) with 0.
      pose proof (days_before_month_succ y 12 ltac:(lia)) as H13.
      change (12 + 1) with 13 in H13. rewrite days_before_month_13 in H13. lia.
Qed.

(** *** Printing and parsing *)

Ltac closed_chars :=
  repeat match goal with
  | |- context [Ascii.eqb (Ascii ?a ?b ?c ?d ?e ?f ?g ?h) (Ascii ?a' ?b' ?c' ?d' ?e' ?f' ?g' ?h')] =>
      let t := constr:(Ascii.eqb (Ascii a b c d e f g h) (Ascii a' b' c' d' e' f' g' h')) in
      let v := eval vm_compute in t in change t with v
  | |- context [digit_of (Ascii ?a ?b ?c ?d ?e ?f ?g ?h)] =>
      let t := constr:(digit_of (Ascii a b c d e f g h)) in
      let v := eval vm_compute in t in change t with v
  | |- context [Z.of_N (N_of_ascii (Ascii ?a ?b ?c ?d ?e ?f ?g ?h)) <? 128] =>
      let t := constr:(Z.of_N (N_of_ascii (Ascii a b c d e f g h)) <? 128) in
      let v := eval vm_compute in t in change t with v
  end.

Ltac walk :=
  repeat (progress (
    cbn [app length Nat.ltb Nat.leb Nat.sub Nat.add Nat.eqb slice from firstn skipn at_char
         nth_error mbind option_bind negb andb orb and_then of_option forallb
         leading_digits fraction_match isotime_loop set_component];
    closed_chars;
    rewrite ?firstn_O, ?skipn_O, ?digit_of_digit_char, ?digit_char_ascii;
    rewrite ?digit_char_is_not by reflexivity)).

Lemma parse_isodate_printed y m d rest :
  0 <= y < 10000 -> 0 <= m < 100 -> 0 <= d < 100 ->
  parse_isodate (printed_date y m d ++ rest) = Parsed (y, m, d, 10%nat).
Proof.
  intros Hy Hm Hd. unfold parse_isodate, parse_isodate_common, printed_date.
  walk. rewrite (int_of_bytes_four y Hy). walk.
  rewrite (int_of_bytes_two m Hm). walk.
  rewrite (int_of_bytes_two d Hd). walk.
  reflexivity.
Qed.

Lemma parse_tzstr_printed o :
  -1440 < o < 1440 -> parse_tzstr (printed_offset (Some o)) = Some o.
Proof.
  intros Ho. unfold printed_offset, parse_tzstr.
  assert (Ha : 0 <= Z.abs o < 1440) by lia.
  pose proof (Z.div_mod (Z.abs o) 60 ltac:(lia)) as Hdm.
  pose proof (Z.mod_pos_bound (Z.abs o) 60 ltac:(lia)) as Hmod.
  assert (Hh : 0 <= Z.abs o / 60 < 24).
  { split; [apply Z.div_pos; lia | apply Z.div_lt_upper_bound; lia]. }
  walk.
  assert (Hsign : (if at_char [if o <? 0 then "-"%char else "+"%char] 0 "-" then Some (-1)
                   else if at_char [if o <? 0 then "-"%char else "+"%char] 0 "+" then Some 1
                   else None) = Some (if o <? 0 then -1 else 1)).
  { destruct (o <? 0); reflexivity. }
  cbn [at_char nth_error] in Hsign. rewrite Hsign. walk.
  rewrite (int_of_bytes_two (Z.abs o / 60)) by lia. walk.
  rewrite (int_of_bytes_two (Z.abs o mod 60)) by lia. walk.
  destruct ((Z.abs o / 60 =? 0) && (Z.abs o mod 60 =? 0)) eqn:Ezero.
  - apply andb_prop in Ezero as [E1 E2]. apply Z.eqb_eq in E1, E2. f_equal. lia.
  - replace (59 <? Z.abs o mod 60) with false by (symmetry; apply Z.ltb_ge; lia).
    replace (23 <? Z.abs o / 60) with false by (symmetry; apply Z.ltb_ge; lia).
    f_equal. destruct (o <? 0) eqn:Eo; [apply Z.ltb_lt in Eo | apply Z.ltb_ge in Eo]; lia.
Qed.


Lemma parse_isotime_printed h m s us tz :
  0 <= h <= 23 -> 0 <= m <= 59 -> 0 <= s <= 59 -> 0 <= us <= 999999 ->
  (forall o, tz = Some o -> -1440 < o < 1440) ->
  parse_isotime (printed_time h m s ++ printed_fraction us ++ printed_offset tz)
  = Some (h, m, s, us, tz).
Proof.
  intros Hh Hm Hs Hus Htz.
  assert (Hoff : forall o, tz = Some o -> parse_tzstr (printed_offset (Some o)) = Some o).
  { intros o Ho. apply parse_tzstr_printed, Htz, Ho. }
  assert (H24 : (h =? 24) = false) by (apply Z.eqb_neq; lia).
  unfold parse_isotime, printed_time, printed_fraction.
  destruct (us =? 0) eqn:Eus; [apply Z.eqb_eq in Eus; subst us|];
    (destruct tz as [o|];
     [specialize (Hoff o eq_refl); unfold printed_offset in *|cbn [printed_offset]]).
  - walk. rewrite (int_of_bytes_two h) by lia. walk.
    rewrite (int_of_bytes_two m) by lia. walk.
    rewrite (int_of_bytes_two s) by lia. walk.
    destruct (o <? 0); walk; rewrite Hoff; walk; now rewrite H24.
  - walk. rewrite (int_of_bytes_two h) by lia. walk.
    rewrite (int_of_bytes_two m) by lia. walk.
    rewrite (int_of_bytes_two s) by lia. walk. now rewrite H24.
  - walk. rewrite (int_of_bytes_two h) by lia. walk.
    rewrite (int_of_bytes_two m) by lia. walk.
    rewrite (int_of_bytes_two s) by lia. walk.
    assert (Hsign : digit_of (if o <? 0 then "-"%char else "+"%char) = None)
      by (destruct (o <? 0); reflexivity).
    rewrite Hsign. walk. rewrite (int_of_bytes_six us) by lia. walk.
    change (10 ^ Z.of_nat 0) with 1. rewrite Z.mul_1_r.
    destruct (o <? 0); walk; rewrite Hoff; walk; now rewrite H24.
  - walk. rewrite (int_of_bytes_two h) by lia. walk.
    rewrite (int_of_bytes_two m) by lia. walk.
    rewrite (int_of_bytes_two s) by lia. walk.
    rewrite (int_of_bytes_six us) by lia. walk.
    change (10 ^ Z.of_nat 0) with 1. rewrite Z.mul_1_r. now rewrite H24.
Qed.


Lemma list_ascii_of_string_append a b :
  list_ascii_of_string (a +:+ b) = list_ascii_of_string a ++ list_ascii_of_string b.
Proof. induction a as [|c a IH]; simpl; [reflexivity | now rewrite IH]. Qed.

Lemma date_isoformat_ymd y m d :
  1 <= y -> 1 <= m <= 12 -> 1 <= d <= days_in_month y m ->
  list_ascii_of_string (date_isoformat (ymd2ord y m d)) = printed_date y m d.
Proof.
  intros Hy Hm Hd. unfold date_isoformat. rewrite ord2ymd_ymd2ord by assumption.
  reflexivity.
Qed.

Lemma time_isoformat_hms h m s us :
  0 <= h <= 23 -> 0 <= m <= 59 -> 0 <= s <= 59 -> 0 <= us <= 999999 ->
  list_ascii_of_string (time_isoformat (((h * 60 + m) * 60 + s) * usec_per_second + us))
  = printed_time h m s ++ printed_fraction us.
Proof.
  intros Hh Hm Hs Hus. unfold time_isoformat, printed_fraction.
  set (secs := (h * 60 + m) * 60 + s).
  destruct (div_mod_at (secs * usec_per_second + us) usec_per_second secs us
              ltac:(unfold usec_per_second; lia) ltac:(lia)) as [-> ->].
  destruct (div_mod_at secs 3600 h (m * 60 + s) ltac:(lia) ltac:(subst secs; lia))
    as [-> _].
  destruct (div_mod_at secs 60 (h * 60 + m) s ltac:(lia) ltac:(subst secs; lia))
    as [-> ->].
  destruct (div_mod_at (h * 60 + m) 60 h m ltac:(lia) ltac:(lia)) as [_ ->].
  destruct (us =? 0); reflexivity.
Qed.

Lemma offset_isoformat_printed tz :
  list_ascii_of_string (offset_isoformat tz) = printed_offset tz.
Proof. destruct tz as [o|]; [|reflexivity]. simpl. now destruct (o <? 0). Qed.

Lemma wall_parts ord h m s us :
  0 <= h <= 23 -> 0 <= m <= 59 -> 0 <= s <= 59 -> 0 <= us <= 999999 ->
  let tod := ((h * 60 + m) * 60 + s) * usec_per_second + us in
  date_of (midnight ord + tod) = ord /\ (midnight ord + tod) mod usec_per_day = tod.
Proof.
  intros Hh Hm Hs Hus tod. unfold date_of, midnight.
  replace (ord * usec_per_day + tod) with (usec_per_day * ord + tod) by lia.
  apply div_mod_at; [|reflexivity].
  subst tod. unfold usec_per_day, usec_per_second. lia.
Qed.

(** What [isoformat] prints for a datetime object. *)
Lemma isoformat_printed y m d h mi s us tz :
  valid_date y m d = true ->
  0 <= h <= 23 -> 0 <= mi <= 59 -> 0 <= s <= 59 -> 0 <= us <= 999999 ->
  list_ascii_of_string
    (isoformat (Timestamp (midnight (ymd2ord y m d)
                           + (((h * 60 + mi) * 60 + s) * usec_per_second + us)) tz))
  = printed_date y m d
      ++ "T"%char :: printed_time h mi s ++ printed_fraction us ++ printed_offset tz.
Proof.
  intros Hdate Hh Hm Hs Hus. apply valid_date_spec in Hdate as (Hy & Hmo & Hd).
  unfold isoformat. cbn [wall tzinfo].
  destruct (wall_parts (ymd2ord y m d) h mi s us Hh Hm Hs Hus) as [-> ->].
  rewrite !list_ascii_of_string_append.
  rewrite date_isoformat_ymd, time_isoformat_hms, offset_isoformat_printed by lia.
  now rewrite <- app_assoc.
Qed.

Lemma printed_ascii y m d h mi s us tz :
  forallb (fun c => Z.of_N (N_of_ascii c) <? 128)
    (printed_date y m d
       ++ "T"%char :: printed_time h mi s ++ printed_fraction us ++ printed_offset tz)
  = true.
Proof.
  rewrite forallb_app. cbn [forallb]. rewrite !forallb_app.
  unfold printed_date, printed_time, printed_fraction, printed_offset.
  destruct (us =? 0); destruct tz as [o|]; try destruct (o <? 0); walk; reflexivity.
Qed.

Lemma datetime_of_valid y m d h mi s us tz :
  valid_date y m d = true ->
  0 <= h <= 23 -> 0 <= mi <= 59 -> 0 <= s <= 59 -> 0 <= us <= 999999 ->
  datetime_of y m d h mi s us tz
  = Some (Timestamp (midnight (ymd2ord y m d)
                     + ((h * 60 + mi) * 60 + s) * usec_per_second + us) tz).
Proof.
  intros Hdate Hh Hm Hs Hus. unfold datetime_of. rewrite Hdate.
  repeat match goal with
         | |- context [?a <=? ?b] =>
             replace (a <=? b) with true by (symmetry; apply Z.leb_le; lia)
         end.
  reflexivity.
Qed.

Lemma datetime_of_some y m d h mi s us tz t :
  datetime_of y m d h mi s us tz = Some t ->
  t = Timestamp (midnight (ymd2ord y m d)
                 + ((h * 60 + mi) * 60 + s) * usec_per_second + us) tz
  /\ valid_date y m d = true
  /\ 0 <= h <= 23 /\ 0 <= mi <= 59 /\ 0 <= s <= 59 /\ 0 <= us <= 999999.
Proof.
  unfold datetime_of. destruct (_ && _) eqn:Ok; [|discriminate]. intros [= <-].
  repeat (apply andb_prop in Ok as [Ok ?]).
  repeat match goal with H : (_ <=? _) = true |- _ => apply Z.leb_le in H end.
  repeat split; try reflexivity; rewrite ?valid_date_spec; lia.
Qed.

(** Every well-formed datetime is printed by [isoformat] as a string that
    [isoparse] reads as the same datetime. *)
Lemma isoparse_isoformat_well_formed t :
  well_formed t -> isoparse (isoformat t) = Some t.
Proof.
  destruct t as [w tz].
  intros [(y & m & d & h & mi & s & us & Hw & Hdate & Hh & Hm & Hs & Hus) Htz].
  cbn [wall tzinfo] in Hw, Htz. subst w.
  pose proof Hdate as Hd'. apply valid_date_spec in Hd' as (Hy & Hmo & Hd).
  pose proof (days_in_month_bound y m) as Hdim.
  unfold isoparse, isoparse_bytes.
  rewrite <- Z.add_assoc, isoformat_printed by assumption.
  rewrite printed_ascii. cbn [negb].
  rewrite parse_isodate_printed by lia. cbn [and_then].
  replace ((10 <? length _)%nat) with true.
  2:{ symmetry. apply Nat.ltb_lt. rewrite length_app. simpl. lia. }
  replace (from _ 11) with (printed_time h mi s ++ printed_fraction us ++ printed_offset tz)
    by reflexivity.
  rewrite parse_isotime_printed by assumption. cbn [of_option and_then].
  replace (h =? 24) with false by (symmetry; apply Z.eqb_neq; lia).
  rewrite datetime_of_valid by assumption. cbn [of_option].
  now rewrite <- Z.add_assoc.
Qed.


(** A UTC offset that the parser accepts is of less than a day. *)
Lemma parse_tzstr_bound tzstr o : parse_tzstr tzstr = Some o -> -1440 < o < 1440.
Proof.
  unfold parse_tzstr.
  assert (Hgen :
    (if negb ((length tzstr =? 3)%nat || (length tzstr =? 5)%nat || (length tzstr =? 6)%nat)
     then None
     else
       mult ← (if at_char tzstr 0 "-" then Some (-1)
               else if at_char tzstr 0 "+" then Some 1 else None);
       hours ← int_of_bytes (slice tzstr 1 2);
       minutes ← (if (length tzstr =? 3)%nat then Some 0
                  else int_of_bytes (from tzstr (if at_char tzstr 3 ":" then 4 else 3)));
       if (hours =? 0) && (minutes =? 0) then Some 0
       else if 59 <? minutes then None
       else if 23 <? hours then None
       else Some (mult * (hours * 60 + minutes))) = Some o -> -1440 < o < 1440).
  { destruct (negb _) eqn:Elen; [discriminate|].
    apply negb_false_iff in Elen.
    assert (Hlen : (length tzstr <= 6)%nat).
    { rewrite !orb_true_iff, !Nat.eqb_eq in Elen. lia. }
    assert (Hmult : forall mult,
      (if at_char tzstr 0 "-" then Some (-1)
       else if at_char tzstr 0 "+" then Some 1 else None) = Some mult ->
      mult = -1 \/ mult = 1).
    { intros mult. destruct (at_char tzstr 0 "-"); [intros [= <-]; auto|].
      destruct (at_char tzstr 0 "+"); [intros [= <-]; auto | discriminate]. }
    destruct (if at_char tzstr 0 "-" then _ else _) as [mult|] eqn:Emult; [|discriminate].
    specialize (Hmult mult eq_refl). clear Emult. rename Hmult into Emult.
    cbn [mbind option_bind].
    destruct (int_of_bytes (slice tzstr 1 2)) as [hours|] eqn:Eh; [|discriminate].
    cbn [mbind option_bind].
    apply int_of_bytes_bound in Eh.
    assert (Hhl : (length (slice tzstr 1 2) <= 2)%nat) by (unfold slice; apply firstn_le_length).
    assert (Hh : -10 < hours).
    { assert (10 ^ Z.of_nat (length (slice tzstr 1 2) - 1) <= 10 ^ 1)
        by (apply Z.pow_le_mono_r; lia). lia. }
    assert (Hm : forall minutes,
      (if (length tzstr =? 3)%nat then Some 0
       else int_of_bytes (from tzstr (if at_char tzstr 3 ":" then 4 else 3))) = Some minutes ->
      -100 < minutes).
    { intros minutes. destruct (length tzstr =? 3)%nat; [intros [= <-]; lia|].
      intros Em. apply int_of_bytes_bound in Em.
      assert (Hml : (length (from tzstr (if at_char tzstr 3 ":" then 4 else 3)) <= 3)%nat).
      { unfold from. rewrite length_skipn. destruct (at_char tzstr 3 ":"); lia. }
      assert (10 ^ Z.of_nat (length (from tzstr (if at_char tzstr 3 ":" then 4 else 3)) - 1)
              <= 10 ^ 2) by (apply Z.pow_le_mono_r; lia). lia. }
    destruct (if (length tzstr =? 3)%nat then _ else _) as [minutes|] eqn:Em; [|discriminate].
    specialize (Hm minutes eq_refl). clear Em. rename Hm into Em.
    cbn [mbind option_bind].
    destruct (_ && _); [intros [= <-]; lia|].
    destruct (59 <? minutes) eqn:E59; [discriminate|]. apply Z.ltb_ge in E59.
    destruct (23 <? hours) eqn:E23; [discriminate|]. apply Z.ltb_ge in E23.
    intros [= <-]. destruct Emult as [-> | ->]; lia. }
  destruct tzstr as [|c [|c' rest]]; try exact Hgen.
  clear Hgen. destruct (_ || _); [intros [= ?]; lia | discriminate].
Qed.

Lemma isotime_loop_tz turns timestr : forall pos comp has_sep components pos' components' o,
  isotime_loop turns timestr pos comp has_sep components = Some (pos', components', Some o) ->
  -1440 < o < 1440.
Proof.
  induction turns as [|turns IH]; intros pos comp has_sep components pos' components' o;
    cbn [isotime_loop]; [discriminate|].
  destruct (negb _); [discriminate|].
  destruct (_ || _).
  - destruct (parse_tzstr (from timestr pos)) as [tz|] eqn:Etz; [|discriminate].
    cbn [mbind option_bind]. intros [= _ _ <-]. now apply parse_tzstr_bound in Etz.
  - destruct (if (comp =? 1)%nat && _ then _ else _) as [[pos1 has_sep1]|];
      [|discriminate].
    cbn [mbind option_bind].
    destruct (comp <? 3)%nat.
    + destruct (int_of_bytes _) as [v|]; [|discriminate]. cbn [mbind option_bind]. apply IH.
    + destruct (comp =? 3)%nat; [|apply IH].
      destruct (fraction_match _) as [digits|]; [|apply IH].
      destruct (int_of_bytes _) as [v|]; [|discriminate]. cbn [mbind option_bind]. apply IH.
Qed.

Lemma parse_isotime_some timestr h m s us tz :
  parse_isotime timestr = Some (h, m, s, us, tz) ->
  (forall o, tz = Some o -> -1440 < o < 1440)
  /\ (h = 24 -> m = 0 /\ s = 0 /\ us = 0).
Proof.
  unfold parse_isotime. destruct (_ <? _)%nat; [discriminate|].
  destruct (isotime_loop _ _ _ _ _ _) as [[[pos [[[h' m'] s'] us']] tz']|] eqn:Eloop;
    [|discriminate].
  cbn [mbind option_bind]. destruct (_ <? _)%nat; [discriminate|].
  destruct ((h' =? 24) && _) eqn:E24; [discriminate|]. intros [= -> -> -> -> ->]. split.
  - intros o ->. now apply isotime_loop_tz in Eloop.
  - intros ->. change (24 =? 24) with true in E24. cbn [andb] in E24.
    apply negb_false_iff in E24. rewrite !andb_true_iff, !Z.eqb_eq in E24. lia.
Qed.

(** What [isoparse] returns is a well-formed datetime. *)
Lemma isoparse_well_formed str t : isoparse str = Some t -> well_formed t.
Proof.
  unfold isoparse, isoparse_bytes. destruct (negb _); [discriminate|].
  destruct (parse_isodate _) as [[[[y m] d] pos]| |]; try discriminate.
  cbn [and_then].
  destruct (_ <? _)%nat.
  - destruct (parse_isotime _) as [[[[[h mi] s] us] tz]|] eqn:Etime; [|discriminate].
    apply parse_isotime_some in Etime as [Htz H24]. cbn [of_option and_then].
    destruct (h =? 24) eqn:Eh.
    + apply Z.eqb_eq in Eh. destruct (H24 Eh) as (-> & -> & ->).
      destruct (datetime_of y m d 0 0 0 0 tz) as [t0|] eqn:Et0; [|discriminate].
      cbn [of_option and_then].
      apply datetime_of_some in Et0 as (-> & Hdate & _). cbn [wall].
      destruct (wall_parts (ymd2ord y m d) 0 0 0 0 ltac:(lia) ltac:(lia) ltac:(lia)
                  ltac:(lia)) as [Hday _].
      cbn zeta in Hday. rewrite Z.add_assoc in Hday. rewrite Hday.
      destruct (max_ordinal <? _) eqn:Emax; [discriminate|]. apply Z.ltb_ge in Emax.
      intros [= <-].
      destruct (next_day y m d Hdate Emax) as (y' & m' & d' & Hdate' & Hord).
      split; [|exact Htz].
      exists y', m', d', 0, 0, 0, 0. cbn [wall]. rewrite Hord.
      repeat split; try assumption; try lia.
      unfold midnight, timedelta_days, usec_per_second. lia.
    + destruct (datetime_of y m d h mi s us tz) as [t'|] eqn:Et; [|discriminate].
      cbn [of_option]. intros [= <-].
      apply datetime_of_some in Et as (-> & Hdate & Hh & Hm & Hs & Hus).
      split; [|exact Htz]. exists y, m, d, h, mi, s, us. now repeat split.
  - destruct (datetime_of y m d 0 0 0 0 None) as [t'|] eqn:Et; [|discriminate].
    cbn [of_option]. intros [= <-].
    apply datetime_of_some in Et as (-> & Hdate & Hh & Hm & Hs & Hus).
    split; [|discriminate]. exists y, m, d, 0, 0, 0, 0. now repeat split.
Qed.

(** Every timestamp that [isoparse] returns is printed by [isoformat] as a
    string that [isoparse] reads as the same timestamp. *)
Lemma isoparse_isoformat s t :
  isoparse s = Some t -> isoparse (isoformat t) = Some t.
Proof. intros H. apply isoparse_isoformat_well_formed, (isoparse_well_formed s), H. Qed.

Lemma isoparse_nonempty p t : isoparse p = Some t -> nonempty p = true.
Proof. destruct p; [discriminate | reflexivity]. Qed.

End CalendarRoundTrip.

(** ** The bookmark: advance, record loop, ranges *)

Section Engine.

Variables (account_id tap_stream_id : string).

Implicit Types (st : state) (c : cursor) (api : remote) (r : insight)
  (e : exn) (rs : list (date * date)).


Lemma advance_falsy st b :
  truthy b = false ->
  advance_bookmark account_id st b tap_stream_id = Outcome [WriteState st] st None.
Proof. unfold advance_bookmark. now intros ->. Qed.

Lemma advance_truthy st b dt :
  truthy b = true -> bookmark_datetime b = Some dt ->
  advance_bookmark account_id st b tap_stream_id
  = Outcome [WriteState (stored account_id tap_stream_id st dt)]
      (stored account_id tap_stream_id st dt) None.
Proof. unfold advance_bookmark. now intros -> ->. Qed.

(** The first row seen sets [prev_bookmark] and advances nothing. *)
Lemma emit_first st r k :
  r !! bookmark_key = Some k ->
  emit_insight account_id tap_stream_id (Cursor None st) r
  = Step [WriteRecord tap_stream_id r] (Cursor (Some k) st) None.
Proof.
  intros Hk. unfold emit_insight. rewrite Hk. simpl. now rewrite ltb_irrefl.
Qed.

(** A row of the partition in flight advances nothing. *)
Lemma emit_same st r k :
  r !! bookmark_key = Some k -> nonempty k = true ->
  emit_insight account_id tap_stream_id (Cursor (Some k) st) r
  = Step [WriteRecord tap_stream_id r] (Cursor (Some k) st) None.
Proof.
  intros Hk Hne. unfold emit_insight. rewrite Hk. simpl. rewrite Hne.
  now rewrite ltb_irrefl.
Qed.

(** The first row of a later partition advances the bookmark to the
    partition that was in flight. *)
Lemma emit_later st r p k dt :
  r !! bookmark_key = Some k -> String.ltb p k = true -> nonempty p = true ->
  isoparse p = Some dt ->
  emit_insight account_id tap_stream_id (Cursor (Some p) st) r
  = Step [WriteRecord tap_stream_id r; WriteState (stored account_id tap_stream_id st dt)]
      (Cursor (Some k) (stored account_id tap_stream_id st dt)) None.
Proof.
  intros Hk Hlt Hne Hdt. unfold emit_insight. rewrite Hk. simpl. rewrite Hne, Hlt.
  rewrite (advance_truthy st (BStr p) dt); [reflexivity | exact Hne | exact Hdt].
Qed.

Lemma emit_insights_app c rows1 rows2 :
  emit_insights account_id tap_stream_id c (rows1 ++ rows2)
  = let s := emit_insights account_id tap_stream_id c rows1 in
    match failure s with
    | Some _ => s
    | None =>
        let s' := emit_insights account_id tap_stream_id (reached s) rows2 in
        Step (done_effects s ++ done_effects s') (reached s') (failure s')
    end.
Proof.
  revert c. induction rows1 as [|r rows1 IH]; intros c; simpl.
  - now destruct (emit_insights account_id tap_stream_id c rows2).
  - destruct (failure (emit_insight account_id tap_stream_id c r)) eqn:E1.
    + now rewrite E1.
    + rewrite IH. simpl.
      destruct (emit_insights account_id tap_stream_id
                  (reached (emit_insight account_id tap_stream_id c r)) rows1)
        as [eff1 c1 [e1|]]; simpl.
      * reflexivity.
      * now rewrite app_assoc.
Qed.

(** An exception of the record loop is never the one that is retried. *)
Lemma emit_insight_failure c r e :
  failure (emit_insight account_id tap_stream_id c r) = Some e ->
  forall attempt, seemingly_temporary e attempt = false.
Proof.
  unfold emit_insight, advance_bookmark.
  destruct (r !! bookmark_key) as [k|]; simpl; [|now intros [= <-]].
  destruct (String.ltb _ k); simpl; [|discriminate].
  destruct (negb _); simpl; [discriminate|].
  destruct (isoparse _); simpl; [discriminate|]. intros [= <-] attempt.
  unfold isoparse_error. now destruct (isoparse_overflows _).
Qed.

Lemma emit_insights_failure c rows e :
  failure (emit_insights account_id tap_stream_id c rows) = Some e ->
  forall attempt, seemingly_temporary e attempt = false.
Proof.
  revert c. induction rows as [|r rows IH]; intros c; simpl; [discriminate|].
  destruct (failure (emit_insight account_id tap_stream_id c r)) eqn:E1.
  - rewrite E1. intros [= <-]. eapply emit_insight_failure, E1.
  - simpl. apply IH.
Qed.

(** A report that ends without exception is consumed in one attempt. *)
Lemma report_loop_clean api range attempt c :
  breaks_with (api range attempt) = None ->
  report_loop api account_id tap_stream_id range attempt c
  = emit_insights account_id tap_stream_id c (rows (api range attempt)).
Proof.
  intros Hclean.
  assert (Hno : retries (attempt_report account_id tap_stream_id c (api range attempt))
                  attempt = false).
  { unfold retries, attempt_report.
    destruct (failure (emit_insights _ _ c _)) eqn:E.
    - rewrite E. eapply emit_insights_failure, E.
    - simpl. now rewrite Hclean. }
  funelim (report_loop api account_id tap_stream_id range attempt c); [congruence|].
  unfold attempt_report.
  destruct (emit_insights account_id tap_stream_id c (rows (api range attempt)))
    as [eff0 c0 [err|]]; simpl; [reflexivity | now rewrite Hclean].
Qed.

(** When no report breaks, the ranges are one record loop over all rows. *)
Lemma range_loop_clean api c rs :
  (forall range, In range rs -> breaks_with (api range O) = None) ->
  range_loop api account_id tap_stream_id c rs
  = emit_insights account_id tap_stream_id c
      (concat (map (fun range => rows (api range O)) rs)).
Proof.
  revert c. induction rs as [|range rs IH]; intros c Hclean; simpl; [reflexivity|].
  rewrite report_loop_clean by (apply Hclean; now left).
  rewrite emit_insights_app. simpl.
  destruct (failure (emit_insights _ _ c (rows (api range O)))); [reflexivity|].
  rewrite IH by (intros; apply Hclean; now right). reflexivity.
Qed.

(** C1. Let the reports of an account's ranges all end without exception and
    deliver, in order, five rows whose partition keys are
    [d1, d1, d2, d2, d3] with [d1 < d2 < d3]. Then the bookmark is written
    for [d1] right after the first row of [d2] and not before, for [d2]
    right after the row of [d3], and once more, for [d3], by the final
    advance; the state that is returned holds [d3]. When the reports deliver
    no row at all, the only advance is the final one, to [until]. *)
Theorem lagged_bookmark_advance api rs until st :
  (forall range, In range rs -> breaks_with (api range O) = None) ->
  let delivered := concat (map (fun range => rows (api range O)) rs) in
  (forall r1 r2 r3 r4 r5 d1 d2 d3 t1 t2 t3,
      delivered = [r1; r2; r3; r4; r5] ->
      r1 !! bookmark_key = Some d1 -> r2 !! bookmark_key = Some d1 ->
      r3 !! bookmark_key = Some d2 -> r4 !! bookmark_key = Some d2 ->
      r5 !! bookmark_key = Some d3 ->
      nonempty d1 = true -> String.ltb d1 d2 = true -> String.ltb d2 d3 = true ->
      isoparse d1 = Some t1 -> isoparse d2 = Some t2 -> isoparse d3 = Some t3 ->
      let st1 := stored account_id tap_stream_id st t1 in
      let st2 := stored account_id tap_stream_id st1 t2 in
      let st3 := stored account_id tap_stream_id st2 t3 in
      run_ranges api account_id tap_stream_id st rs until
      = Outcome
          [WriteRecord tap_stream_id r1; WriteRecord tap_stream_id r2;
           WriteRecord tap_stream_id r3; WriteState st1;
           WriteRecord tap_stream_id r4;
           WriteRecord tap_stream_id r5; WriteState st2;
           WriteState st3]
          st3 None)
  /\ (forall t,
      delivered = [] -> isoparse (date_isoformat until) = Some t ->
      run_ranges api account_id tap_stream_id st rs until
      = Outcome [WriteState (stored account_id tap_stream_id st t)]
          (stored account_id tap_stream_id st t) None).
Proof.
  intros Hclean delivered. split.
  - intros r1 r2 r3 r4 r5 d1 d2 d3 t1 t2 t3 Hrows H1 H2 H3 H4 H5 Hne H12 H23 T1 T2 T3.
    pose proof (ltb_nonempty _ _ H12) as Hne2.
    pose proof (ltb_nonempty _ _ H23) as Hne3.
    unfold run_ranges. rewrite range_loop_clean by assumption.
    fold delivered. rewrite Hrows. simpl.
    rewrite (emit_first st r1 d1 H1). simpl.
    rewrite (emit_same st r2 d1 H2 Hne). simpl.
    rewrite (emit_later st r3 d1 d2 t1 H3 H12 Hne T1). simpl.
    rewrite (emit_same _ r4 d2 H4 Hne2). simpl.
    rewrite (emit_later _ r5 d2 d3 t2 H5 H23 Hne2 T2). simpl.
    rewrite Hne3.
    rewrite (advance_truthy _ (BStr d3) t3 Hne3 T3). reflexivity.
  - intros t Hrows T.
    unfold run_ranges. rewrite range_loop_clean by assumption.
    fold delivered. rewrite Hrows. simpl.
    now rewrite (advance_truthy st (BDate until) t eq_refl T).
Qed.

(** *** The retry loop, unfolded once *)

Lemma report_loop_eq api range attempt c :
  report_loop api account_id tap_stream_id range attempt c
  = let s := attempt_report account_id tap_stream_id c (api range attempt) in
    if retries s attempt then
      let s' := report_loop api account_id tap_stream_id range (S attempt) (reached s) in
      Step (done_effects s ++ Sleep 20 :: done_effects s') (reached s') (failure s')
    else s.
Proof.
  funelim (report_loop api account_id tap_stream_id range attempt c); cbn zeta;
    match goal with
    | E : retries _ _ = _ |- _ => rewrite E; reflexivity
    end.
Qed.

Lemma retries_lt s attempt : retries s attempt = true -> (attempt < 5)%nat.
Proof.
  unfold retries, seemingly_temporary.
  destruct (failure s) as [[]|]; try discriminate.
  intros H. apply andb_prop in H as [_ H]. now apply Nat.ltb_lt in H.
Qed.

(** Induction along the turns of the retry loop. *)
Lemma report_loop_turns api range (P : nat -> cursor -> step -> Prop) :
  (forall attempt c,
      let s := attempt_report account_id tap_stream_id c (api range attempt) in
      retries s attempt = false -> P attempt c s) ->
  (forall attempt c s',
      let s := attempt_report account_id tap_stream_id c (api range attempt) in
      retries s attempt = true -> P (S attempt) (reached s) s' ->
      P attempt c (Step (done_effects s ++ Sleep 20 :: done_effects s')
                     (reached s') (failure s'))) ->
  forall attempt c, P attempt c (report_loop api account_id tap_stream_id range attempt c).
Proof.
  intros Hstop Hturn attempt.
  remember (5 - attempt)%nat as left eqn:Hleft.
  revert attempt Hleft. induction left as [left IH] using lt_wf_ind.
  intros attempt Hleft c. rewrite report_loop_eq. cbn zeta.
  destruct (retries _ attempt) eqn:Hre.
  - apply Hturn; [exact Hre|].
    apply retries_lt in Hre.
    apply (IH (5 - S attempt)%nat); [lia | reflexivity].
  - now apply Hstop.
Qed.

(** *** Errors before any row *)

Lemma emit_insights_records c rows1 :
  records (done_effects (emit_insights account_id tap_stream_id c rows1)) = [] ->
  rows1 = [].
Proof.
  destruct rows1 as [|r rows1]; [reflexivity|]. simpl.
  assert (Hhd : exists l, done_effects (emit_insight account_id tap_stream_id c r)
                          = WriteRecord tap_stream_id r :: l).
  { unfold emit_insight. destruct (r !! bookmark_key); [|eauto].
    destruct (String.ltb _ _); [|eauto].
    destruct (raised _); eauto. }
  destruct Hhd as [l Hl].
  destruct (failure (emit_insight account_id tap_stream_id c r)); simpl;
    rewrite Hl; discriminate.
Qed.

Lemma records_app l1 l2 : records (l1 ++ l2) = records l1 ++ records l2.
Proof. apply omap_app. Qed.

Lemma states_app l1 l2 : states (l1 ++ l2) = states l1 ++ states l2.
Proof. apply omap_app. Qed.

Lemma sleeps_app l1 l2 : sleeps (l1 ++ l2) = sleeps l1 ++ sleeps l2.
Proof. apply omap_app. Qed.

Lemma attempt_report_records c rep :
  records (done_effects (attempt_report account_id tap_stream_id c rep)) = [] ->
  attempt_report account_id tap_stream_id c rep = Step [] c (breaks_with rep).
Proof.
  unfold attempt_report. intros H.
  assert (Hrows : rows rep = []).
  { apply (emit_insights_records c).
    destruct (failure (emit_insights account_id tap_stream_id c (rows rep))); exact H. }
  now rewrite Hrows.
Qed.

(** While no row arrives, the loop variables stay as they are. *)
Lemma report_loop_records api range attempt c :
  let s := report_loop api account_id tap_stream_id range attempt c in
  records (done_effects s) = [] ->
  reached s = c /\ states (done_effects s) = [].
Proof.
  cbn zeta. revert attempt c.
  apply (report_loop_turns api range (fun _ c s =>
           records (done_effects s) = [] ->
           reached s = c /\ states (done_effects s) = [])); cbn zeta.
  - intros attempt c _ Hrec. now rewrite attempt_report_records.
  - intros attempt c s' _ IH. simpl. rewrite records_app, states_app. simpl.
    intros Hrec. apply app_eq_nil in Hrec as [Hrec1 Hrec2].
    pose proof (attempt_report_records _ _ Hrec1) as Ha.
    rewrite Ha in IH |- *. simpl in *. exact (IH Hrec2).
Qed.

Lemma range_loop_records api c rs :
  let s := range_loop api account_id tap_stream_id c rs in
  records (done_effects s) = [] ->
  reached s = c /\ states (done_effects s) = [].
Proof.
  revert c. induction rs as [|range rs IH]; intros c; simpl; [now split|].
  pose proof (report_loop_records api range O c) as Hr. cbn zeta in Hr.
  destruct (failure (report_loop api account_id tap_stream_id range O c)).
  - exact Hr.
  - simpl. rewrite records_app. intros Hrec.
    apply app_eq_nil in Hrec as [Hrec1 Hrec2].
    destruct (Hr Hrec1) as [Hc Hs]. rewrite Hc in *.
    destruct (IH c Hrec2) as [Hc' Hs']. split; [exact Hc'|].
    now rewrite states_app, Hs, Hs'.
Qed.

(** C10. Called with a falsy bookmark ([None], or the empty string), the
    advance emits the state it was given and returns it: no bookmark of any
    stream or account is added, changed or removed. Hence when the ranges of
    an account fail before any row was written, the handler of the failure
    emits the state the account started from, no other state was emitted
    before it, that state is the one left behind, and the failure goes on to
    the caller. *)
Theorem flush_without_bookmark api rs until st b :
  truthy b = false ->
  advance_bookmark account_id st b tap_stream_id = Outcome [WriteState st] st None
  /\ (forall e,
      let s := range_loop api account_id tap_stream_id (Cursor None st) rs in
      failure s = Some e -> records (done_effects s) = [] ->
      run_ranges api account_id tap_stream_id st rs until
      = Outcome (done_effects s ++ [WriteState st]) st (Some e)
        /\ states (done_effects s) = []).
Proof.
  intros Hb. split; [now apply advance_falsy|].
  intros e s Hfail Hrec. unfold run_ranges. fold s. rewrite Hfail.
  destruct (range_loop_records api (Cursor None st) rs Hrec) as [Hc Hs].
  fold s in Hc, Hs. rewrite Hc. simpl. now split.
Qed.

(** *** The retry of a report job *)

Lemma step_eta (s : step) : Step (done_effects s) (reached s) (failure s) = s.
Proof. now destruct s. Qed.

Lemma seemingly_temporary_flaky attempt :
  seemingly_temporary flaky attempt = (attempt <? 5)%nat.
Proof. reflexivity. Qed.

Lemma seemingly_temporary_other e attempt :
  e <> flaky -> seemingly_temporary e attempt = false.
Proof.
  intros Hne. destruct e as [code subcode| | |]; try reflexivity. simpl.
  destruct (code =? 2601) eqn:Ec; [|reflexivity].
  destruct (subcode =? 1815107) eqn:Es; [|reflexivity].
  apply Z.eqb_eq in Ec, Es. subst. now contradict Hne.
Qed.

(** [k] runs in a row that break with the signature, each before any row
    arrived, cost [k] sleeps of 20 seconds and leave the loop variables as
    they were, as long as the counter stays within its bound. *)
Lemma report_loop_flaky api range c k :
  forall attempt, (attempt + k <= 5)%nat ->
  (forall i, (attempt <= i < attempt + k)%nat -> api range i = Report [] (Some flaky)) ->
  report_loop api account_id tap_stream_id range attempt c
  = let s' := report_loop api account_id tap_stream_id range (attempt + k) c in
    Step (replicate k (Sleep 20) ++ done_effects s') (reached s') (failure s').
Proof.
  induction k as [|k IH]; intros attempt Hle Hflaky; cbn zeta.
  - rewrite Nat.add_0_r. simpl. now rewrite step_eta.
  - rewrite report_loop_eq. cbn zeta.
    rewrite (Hflaky attempt) by lia. unfold attempt_report, retries. simpl.
    replace (attempt <? 5)%nat with true by (symmetry; apply Nat.ltb_lt; lia).
    rewrite (IH (S attempt)); [|lia|intros i Hi; apply Hflaky; lia].
    cbn zeta. simpl. now replace (attempt + S k)%nat with (S (attempt + k)) by lia.
Qed.

(** C9. For one range: when the first [k <= 5] runs of the report job break
    with error code 2601 and subcode 1815107 and the next run does not
    break, the engine sleeps 20 seconds after each of the [k] failures, runs
    the job again for the same range and goes on with the rows of the run
    that worked. When six runs in a row break with the signature, the engine
    has slept five times 20 seconds and the sixth error leaves
    [process_account], after the flush of the state. An error that does not
    carry the signature leaves at once, without sleep and without another
    run. *)
Theorem flaky_report_retry api range c :
  (forall k rows1,
      (k <= 5)%nat ->
      (forall i, (i < k)%nat -> api range i = Report [] (Some flaky)) ->
      api range k = Report rows1 None ->
      let s := emit_insights account_id tap_stream_id c rows1 in
      report_loop api account_id tap_stream_id range 0 c
      = Step (replicate k (Sleep 20) ++ done_effects s) (reached s) (failure s))
  /\ ((forall i, (i <= 5)%nat -> api range i = Report [] (Some flaky)) ->
      report_loop api account_id tap_stream_id range 0 c
      = Step (replicate 5 (Sleep 20)) c (Some flaky)
      /\ forall st rs until,
          run_ranges api account_id tap_stream_id st (range :: rs) until
          = Outcome (replicate 5 (Sleep 20) ++ [WriteState st]) st (Some flaky))
  /\ (forall e,
      e <> flaky -> api range O = Report [] (Some e) ->
      report_loop api account_id tap_stream_id range 0 c = Step [] c (Some e)
      /\ forall st rs until,
          run_ranges api account_id tap_stream_id st (range :: rs) until
          = Outcome [WriteState st] st (Some e)).
Proof.
  assert (Hcap : forall c', (forall i, (i <= 5)%nat -> api range i = Report [] (Some flaky)) ->
            report_loop api account_id tap_stream_id range 0 c'
            = Step (replicate 5 (Sleep 20)) c' (Some flaky)).
  { intros c' Hflaky.
    rewrite (report_loop_flaky api range c' 5 0); [|lia|intros i Hi; apply Hflaky; lia].
    cbn zeta. simpl Nat.add. rewrite report_loop_eq. cbn zeta.
    rewrite (Hflaky 5%nat) by lia.
    reflexivity. }
  assert (Hother : forall c' e, e <> flaky -> api range O = Report [] (Some e) ->
            report_loop api account_id tap_stream_id range 0 c' = Step [] c' (Some e)).
  { intros c' e Hne Hrep. rewrite report_loop_eq. cbn zeta. rewrite Hrep.
    unfold attempt_report, retries. simpl.
    now rewrite (seemingly_temporary_other e 0 Hne). }
  repeat split.
  - intros k rows1 Hk Hflaky Hgood. cbn zeta.
    rewrite (report_loop_flaky api range c k 0); [|lia|intros i Hi; apply Hflaky; lia].
    cbn zeta. simpl. rewrite report_loop_clean by now rewrite Hgood.
    now rewrite Hgood.
  - now apply Hcap.
  - intros st rs until. unfold run_ranges. simpl. rewrite Hcap by assumption. reflexivity.
  - now apply Hother.
  - intros st rs until. unfold run_ranges. simpl. rewrite (Hother _ e) by assumption.
    reflexivity.
Qed.

(** *** What [prev_bookmark] holds *)

Lemma keys_app l1 l2 : keys (l1 ++ l2) = keys l1 ++ keys l2.
Proof. unfold keys. now rewrite records_app, omap_app. Qed.

Lemma greatest_raise p k ks :
  greatest p ks -> String.leb p k = true -> greatest k (ks ++ [k]).
Proof.
  intros [_ Hall] Hle. split; [apply in_or_app; right; now left|].
  apply Forall_app. split.
  - eapply Forall_impl; [exact Hall|]. intros x Hx. cbv beta in *.
    eapply leb_trans; eassumption.
  - constructor; [apply leb_refl | constructor].
Qed.

Lemma greatest_keep p k ks :
  greatest p ks -> String.leb k p = true -> greatest p (ks ++ [k]).
Proof.
  intros [Hin Hall] Hle. split; [apply in_or_app; now left|].
  apply Forall_app. split; [exact Hall | now constructor].
Qed.

Lemma greatest_first k : greatest k [k].
Proof. split; [now left | constructor; [apply leb_refl | constructor]]. Qed.

Lemma seed_prev_cases prev k :
  (seed_prev prev k = k /\ (prev = None \/ prev = Some ""))
  \/ (prev = Some (seed_prev prev k) /\ nonempty (seed_prev prev k) = true).
Proof.
  destruct prev as [p|]; simpl; [|left; auto].
  destruct (nonempty p) eqn:E; [right; auto|].
  left. split; [reflexivity|]. right. f_equal.
  unfold nonempty in E. apply negb_false_iff, String.eqb_eq in E. exact E.
Qed.

(** After the seeding and the comparison of lines 131-134, the greater of
    [prev_bookmark] and the new key is the greatest key seen. *)
Lemma seed_prev_greatest prev k ks :
  last_seen prev ks ->
  let p := seed_prev prev k in
  greatest (if String.ltb p k then k else p) (ks ++ [k])
  /\ (String.ltb p k = true -> prev = Some p /\ nonempty p = true).
Proof.
  intros Hseen p. subst p.
  destruct (seed_prev_cases prev k) as [[E Hnone]|[E Hne]].
  - rewrite E, ltb_irrefl. split; [|discriminate].
    destruct Hnone as [Hnone|Hnone]; rewrite Hnone in Hseen; simpl in Hseen.
    + subst ks. apply greatest_first.
    + eapply greatest_raise; [exact Hseen | apply leb_empty].
  - split; [|auto]. rewrite E in Hseen. simpl in Hseen.
    destruct (String.ltb _ k) eqn:Hlt.
    + eapply greatest_raise; [exact Hseen | now apply ltb_leb].
    + apply greatest_keep; [exact Hseen | now apply ltb_false_leb].
Qed.

Lemma keys_written_row r k l :
  r !! bookmark_key = Some k -> records l = [] ->
  keys (WriteRecord tap_stream_id r :: l) = [k].
Proof. intros Hk Hl. unfold keys. simpl. now rewrite Hk, Hl. Qed.

Lemma advance_records st b :
  records (effects (advance_bookmark account_id st b tap_stream_id)) = [].
Proof.
  unfold advance_bookmark. destruct (negb _); [reflexivity|].
  now destruct (bookmark_datetime b).
Qed.

Section FromState.

Variable st0 : state.

Lemma emit_insight_in_flight c r ks :
  in_flight st0 c ks ->
  let s := emit_insight account_id tap_stream_id c r in
  in_flight st0 (reached s) (ks ++ keys (done_effects s)) \/ stopped_in_advance s (ks ++ keys (done_effects s)).
Proof.
  intros [Hseen Hst] s. subst s. unfold emit_insight.
  destruct (r !! bookmark_key) as [k|] eqn:Hk.
  2:{ left. simpl. unfold keys. simpl. rewrite Hk. simpl. rewrite app_nil_r. now split. }
  cbn zeta.
  destruct (seed_prev_greatest _ k ks Hseen) as [Hgreat Hold]. cbn zeta in Hgreat, Hold.
  destruct (String.ltb (seed_prev (prev_bookmark c) k) k) eqn:Hlt.
  - destruct (Hold eq_refl) as [Hprev Hne].
    pose proof (advance_records (cur_state c) (BStr (seed_prev (prev_bookmark c) k))) as Hrec.
    destruct (raised (advance_bookmark account_id (cur_state c)
                        (BStr (seed_prev (prev_bookmark c) k)) tap_stream_id)) eqn:Hr.
    + right. unfold advance_bookmark in Hr. simpl in Hr.
      rewrite Hne in Hr.
      simpl in Hr. destruct (isoparse (seed_prev (prev_bookmark c) k)) eqn:Hparse;
        [discriminate|]. simpl in Hr. injection Hr as <-.
      exists (seed_prev (prev_bookmark c) k), k, ks. simpl.
      rewrite (keys_written_row r k _ Hk Hrec).
      rewrite Hprev in Hseen. simpl in Hseen.
      repeat (split; [reflexivity || assumption|]). assumption.
    + left. simpl. rewrite (keys_written_row r k _ Hk Hrec). split; [exact Hgreat|].
      discriminate.
  - left. simpl. rewrite (keys_written_row r k [] Hk eq_refl). split; [exact Hgreat|].
    discriminate.
Qed.

Lemma stopped_in_advance_failure s ks : stopped_in_advance s ks -> failure s <> None.
Proof. intros (p & k & ks' & _ & _ & _ & H & _). congruence. Qed.

Lemma emit_insights_in_flight rows1 : forall c ks,
  in_flight st0 c ks ->
  let s := emit_insights account_id tap_stream_id c rows1 in
  in_flight st0 (reached s) (ks ++ keys (done_effects s)) \/ stopped_in_advance s (ks ++ keys (done_effects s)).
Proof.
  induction rows1 as [|r rows1 IH]; intros c ks Hin; cbn zeta; simpl.
  - left. unfold keys. simpl. now rewrite app_nil_r.
  - pose proof (emit_insight_in_flight c r ks Hin) as H1. cbn zeta in H1.
    destruct (failure (emit_insight account_id tap_stream_id c r)) eqn:E1; [exact H1|].
    destruct H1 as [H1|H1]; [|now apply stopped_in_advance_failure in H1].
    specialize (IH _ _ H1). cbn zeta in IH. simpl.
    rewrite keys_app, app_assoc. exact IH.
Qed.

Lemma attempt_report_in_flight c rep ks :
  in_flight st0 c ks ->
  let s := attempt_report account_id tap_stream_id c rep in
  in_flight st0 (reached s) (ks ++ keys (done_effects s)) \/ stopped_in_advance s (ks ++ keys (done_effects s)).
Proof.
  intros Hin. pose proof (emit_insights_in_flight (rows rep) c ks Hin) as H.
  cbn zeta in *. unfold attempt_report.
  destruct (failure (emit_insights account_id tap_stream_id c (rows rep))) eqn:E;
    [exact H|].
  destruct H as [H|H]; [now left | now apply stopped_in_advance_failure in H].
Qed.

Lemma report_loop_in_flight api range attempt c :
  forall ks, in_flight st0 c ks ->
  let s := report_loop api account_id tap_stream_id range attempt c in
  in_flight st0 (reached s) (ks ++ keys (done_effects s)) \/ stopped_in_advance s (ks ++ keys (done_effects s)).
Proof.
  revert attempt c.
  apply (report_loop_turns api range (fun _ c s => forall ks, in_flight st0 c ks ->
           in_flight st0 (reached s) (ks ++ keys (done_effects s))
           \/ stopped_in_advance s (ks ++ keys (done_effects s)))); cbn zeta.
  - intros attempt c _ ks Hin. now apply attempt_report_in_flight.
  - intros attempt c s' Hre IH ks Hin.
    pose proof (attempt_report_in_flight c (api range attempt) ks Hin) as H1.
    cbn zeta in H1. destruct H1 as [H1|(p & k & ks' & _ & _ & _ & H1 & _)].
    + simpl. rewrite keys_app.
      change (keys (Sleep 20 :: done_effects s')) with (keys (done_effects s')).
      rewrite app_assoc. exact (IH _ H1).
    + unfold retries in Hre. rewrite H1 in Hre. unfold isoparse_error in Hre.
      destruct (isoparse_overflows p); discriminate.
Qed.

Lemma range_loop_in_flight api rs : forall c ks,
  in_flight st0 c ks ->
  let s := range_loop api account_id tap_stream_id c rs in
  in_flight st0 (reached s) (ks ++ keys (done_effects s)) \/ stopped_in_advance s (ks ++ keys (done_effects s)).
Proof.
  induction rs as [|range rs IH]; intros c ks Hin; cbn zeta; simpl.
  - left. unfold keys. simpl. now rewrite app_nil_r.
  - pose proof (report_loop_in_flight api range O c ks Hin) as H1. cbn zeta in H1.
    destruct (failure (report_loop api account_id tap_stream_id range O c)) eqn:E1;
      [exact H1|].
    destruct H1 as [H1|H1]; [|now apply stopped_in_advance_failure in H1].
    specialize (IH _ _ H1). cbn zeta in IH. simpl.
    rewrite keys_app, app_assoc. exact IH.
Qed.

End FromState.

(** C3, as the code has it. When the ranges of an account stop with an
    exception, the handler advances the bookmark with [prev_bookmark] before
    the exception goes on. With no key seen so far that flush leaves the
    state as the account found it. Otherwise [prev_bookmark] is the greatest
    partition key among the rows written so far, that is the partition in
    flight and not the one of the last advance; the one exception is the
    failure of the lagged advance itself, on a [prev_bookmark] that does not
    parse, where the row just written has a key above it and
    [prev_bookmark] is the greatest key of the rows before that one. When
    [prev_bookmark] parses as a date it is what the state left behind holds
    for the account. When it is not empty and does not parse, the flush
    raises the error of the parser in place of the exception that was being
    handled, and writes nothing; when it is empty the state is written out
    as it is. *)
Theorem error_flush_key_in_flight api rs until st e :
  let s := range_loop api account_id tap_stream_id (Cursor None st) rs in
  let o := run_ranges api account_id tap_stream_id st rs until in
  let ks := keys (done_effects s) in
  failure s = Some e ->
  match prev_bookmark (reached s) with
  | None =>
      ks = [] /\ o = Outcome (done_effects s ++ [WriteState st]) st (Some e)
  | Some p =>
      (greatest p ks
       \/ (e = isoparse_error p /\ isoparse p = None
           /\ exists ks' k, ks = ks' ++ [k] /\ greatest p ks' /\ String.ltb p k = true))
      /\ (forall t, isoparse p = Some t ->
          greatest p ks
          /\ o = Outcome
                 (done_effects s
                    ++ [WriteState (stored account_id tap_stream_id
                                      (cur_state (reached s)) t)])
                 (stored account_id tap_stream_id (cur_state (reached s)) t) (Some e))
      /\ (nonempty p = true -> isoparse p = None ->
          o = Outcome (done_effects s) (cur_state (reached s)) (Some (isoparse_error p)))
      /\ (nonempty p = false ->
          greatest p ks
          /\ o = Outcome (done_effects s ++ [WriteState (cur_state (reached s))])
                 (cur_state (reached s)) (Some e))
  end.
Proof.
  intros s o ks Hfail.
  assert (Hstart : in_flight st (Cursor None st) []) by (split; [reflexivity | auto]).
  pose proof (range_loop_in_flight st api rs _ _ Hstart) as Hinv.
  cbn zeta in Hinv. fold s in Hinv. simpl in Hinv. fold ks in Hinv.
  subst o. unfold run_ranges. fold s. rewrite Hfail.
  destruct (prev_bookmark (reached s)) as [p|] eqn:Hprev.
  - assert (Hkeys : greatest p ks
                    \/ (e = isoparse_error p /\ isoparse p = None /\ nonempty p = true
                        /\ exists ks' k, ks = ks' ++ [k] /\ greatest p ks'
                                         /\ String.ltb p k = true)).
    { destruct Hinv as [[Hseen _]|(q & k & ks' & Hq & Hne & Hnone & Hf & Hks & Hg & Hlt)].
      - left. rewrite Hprev in Hseen. exact Hseen.
      - right. rewrite Hprev in Hq. injection Hq as <-. fold s in Hf.
        rewrite Hfail in Hf. injection Hf as ->. eauto 10. }
    split; [destruct Hkeys as [H|(H1 & H2 & _ & H3)]; [now left | right; auto]|].
    split; [|split].
    + intros t Hparse. pose proof (isoparse_nonempty p t Hparse) as Hne.
      rewrite (advance_truthy _ (BStr p) t Hne Hparse). simpl. split; [|reflexivity].
      destruct Hkeys as [H|(_ & Hnone & _)]; [exact H | congruence].
    + intros Hne Hnone. unfold advance_bookmark. simpl. rewrite Hne, Hnone. simpl.
      now rewrite app_nil_r.
    + intros Hempty. rewrite advance_falsy by (simpl; exact Hempty). simpl.
      split; [|reflexivity].
      destruct Hkeys as [H|(_ & _ & Hne & _)]; [exact H | congruence].
  - destruct Hinv as [[Hseen Hst]|(q & k & ks' & Hq & _)];
      [|fold s in Hq; rewrite Hprev in Hq; discriminate].
    rewrite Hprev in Hseen. simpl in Hseen. rewrite (Hst Hprev). simpl.
    split; [exact Hseen | reflexivity].
Qed.

(** *** The bookmarks written during one run *)

Lemma bookmark_at_stored st t :
  bookmark_at account_id tap_stream_id (stored account_id tap_stream_id st t) = Some (isoformat t).
Proof.
  unfold bookmark_at, get_bookmark, stored, write_bookmark.
  rewrite lookup_insert_eq, lookup_insert_eq. apply lookup_singleton_eq.
Qed.

Lemma not_below_refl a : not_below a a.
Proof. destruct a; simpl; [apply leb_refl | exact I]. Qed.

Lemma ascending_nil : ascending account_id tap_stream_id [].
Proof. intros i s s' H. discriminate. Qed.

Lemma ascending_one s : ascending account_id tap_stream_id [s].
Proof. intros [|i] s1 s2 _ H; discriminate. Qed.

Lemma ascending_snoc W s' :
  ascending account_id tap_stream_id W ->
  (forall s, last W = Some s ->
     not_below (bookmark_at account_id tap_stream_id s)
       (bookmark_at account_id tap_stream_id s')) ->
  ascending account_id tap_stream_id (W ++ [s']).
Proof.
  intros Hasc Hlast i s1 s2 H1 H2.
  destruct (decide (S i < length W)%nat) as [Hlt|Hge].
  - rewrite lookup_app_l in H1 by lia. rewrite lookup_app_l in H2 by lia.
    eapply Hasc; eassumption.
  - assert (Hi : S i = length W).
    { apply lookup_lt_Some in H2. rewrite length_app in H2. simpl in H2. lia. }
    rewrite lookup_app_l in H1 by lia.
    rewrite lookup_app_r, Hi, Nat.sub_diag in H2 by lia. injection H2 as <-.
    apply Hlast. rewrite last_lookup. now replace (pred (length W)) with i by lia.
Qed.

Section Run.

Variable api : remote.

Hypothesis keys_chronological :
  forall k k', delivers api k -> delivers api k' -> String.ltb k k' = true ->
               chronological k k'.

Local Abbreviation tracked := (tracked api account_id tap_stream_id).
Local Abbreviation ascending := (ascending account_id tap_stream_id).

Lemma tracked_start st : tracked (Cursor None st) [].
Proof.
  split; [apply ascending_nil|]. split; [congruence | discriminate].
Qed.

(** An advance with the key in flight keeps the written bookmarks ascending. *)
Lemma tracked_advance c W p t :
  tracked c W -> prev_bookmark c = Some p -> isoparse p = Some t ->
  ascending (W ++ [stored account_id tap_stream_id (cur_state c) t]).
Proof.
  intros (Hasc & Hlast & Hdel) Hprev Hparse. apply ascending_snoc; [exact Hasc|].
  intros s Hs. rewrite bookmark_at_stored.
  destruct (Hlast ltac:(intros E; now rewrite E in Hs))
    as (l & tl & p' & Hdl & Hpl & Hcur & Hbm & Hp' & Hlt).
  rewrite Hprev in Hp'. injection Hp' as <-.
  rewrite Hcur in Hs. injection Hs as <-. rewrite Hbm. simpl.
  apply (keys_chronological l p Hdl (Hdel p Hprev) Hlt tl t Hpl Hparse).
Qed.

Lemma emit_insight_tracked c W r :
  tracked c W -> (exists range attempt, In r (rows (api range attempt))) ->
  let s := emit_insight account_id tap_stream_id c r in
  tracked (reached s) (W ++ states (done_effects s)).
Proof.
  intros Htr (range & attempt & Hin) s. subst s. unfold emit_insight.
  destruct (r !! bookmark_key) as [k|] eqn:Hk.
  2:{ simpl. now rewrite app_nil_r. }
  cbn zeta.
  assert (Hdk : delivers api k) by (exists range, attempt, r; auto).
  pose proof Htr as (Hasc & Hlast & Hdel).
  destruct (seed_prev_cases (prev_bookmark c) k) as [[E Hnone]|[E Hne]].
  - (* the first key seen: nothing was written so far *)
    rewrite E, ltb_irrefl. simpl. rewrite app_nil_r.
    assert (HW : W = []).
    { destruct W as [|s0 W']; [reflexivity|]. exfalso.
      destruct (Hlast ltac:(discriminate)) as (l & _ & p & _ & _ & _ & _ & Hp & Hlt).
      apply ltb_nonempty in Hlt.
      destruct Hnone as [Hn|Hn]; rewrite Hn in Hp; [discriminate|].
      injection Hp as <-. discriminate. }
    subst W. split; [exact Hasc|]. split; [congruence|].
    simpl. intros p [= <-]. exact Hdk.
  - set (p := seed_prev (prev_bookmark c) k) in *.
    destruct (String.ltb p k) eqn:Hlt.
    + unfold advance_bookmark. simpl.
      rewrite Hne. simpl.
      destruct (isoparse p) as [t|] eqn:Hparse; simpl.
      * split; [now apply (tracked_advance c W p t)|]. split.
        -- intros _. exists p, t, k. repeat split; auto.
           ++ apply last_snoc.
           ++ apply bookmark_at_stored.
        -- intros q [= <-]. exact Hdk.
      * rewrite app_nil_r. split; [exact Hasc|]. split.
        -- intros HW. destruct (Hlast HW) as (l & tl & p' & H1 & H2 & H3 & H4 & H5 & H6).
           exists l, tl, p'. repeat split; auto. simpl. congruence.
        -- simpl. intros q [= <-]. now apply Hdel.
    + simpl. rewrite app_nil_r. split; [exact Hasc|]. split.
      * intros HW. destruct (Hlast HW) as (l & tl & p' & H1 & H2 & H3 & H4 & H5 & H6).
        exists l, tl, p'. repeat split; auto. simpl. congruence.
      * simpl. intros q [= <-]. now apply Hdel.
Qed.

Lemma emit_insights_tracked rows1 : forall c W,
  tracked c W ->
  (forall r, In r rows1 -> exists range attempt, In r (rows (api range attempt))) ->
  let s := emit_insights account_id tap_stream_id c rows1 in
  tracked (reached s) (W ++ states (done_effects s)).
Proof.
  induction rows1 as [|r rows1 IH]; intros c W Htr Hrows; cbn zeta; simpl.
  - now rewrite app_nil_r.
  - pose proof (emit_insight_tracked c W r Htr (Hrows r (or_introl eq_refl))) as H1.
    cbn zeta in H1.
    destruct (failure (emit_insight account_id tap_stream_id c r)); [exact H1|].
    simpl. rewrite states_app, app_assoc. apply IH; [exact H1|].
    intros r' Hr'. apply Hrows. now right.
Qed.

Lemma attempt_report_tracked c W range attempt :
  tracked c W ->
  let s := attempt_report account_id tap_stream_id c (api range attempt) in
  tracked (reached s) (W ++ states (done_effects s)).
Proof.
  intros Htr. cbn zeta. unfold attempt_report.
  pose proof (emit_insights_tracked (rows (api range attempt)) c W Htr
                ltac:(eauto)) as H.
  cbn zeta in H.
  now destruct (failure (emit_insights account_id tap_stream_id c (rows (api range attempt)))).
Qed.

Lemma report_loop_tracked range attempt c :
  forall W, tracked c W ->
  let s := report_loop api account_id tap_stream_id range attempt c in
  tracked (reached s) (W ++ states (done_effects s)).
Proof.
  revert attempt c.
  apply (report_loop_turns api range (fun _ c s => forall W, tracked c W ->
           tracked (reached s) (W ++ states (done_effects s)))); cbn zeta.
  - intros attempt c _ W Htr. now apply attempt_report_tracked.
  - intros attempt c s' _ IH W Htr. simpl. rewrite states_app.
    change (states (Sleep 20 :: done_effects s')) with (states (done_effects s')).
    rewrite app_assoc. apply IH. now apply attempt_report_tracked.
Qed.

Lemma range_loop_tracked rs : forall c W,
  tracked c W ->
  let s := range_loop api account_id tap_stream_id c rs in
  tracked (reached s) (W ++ states (done_effects s)).
Proof.
  induction rs as [|range rs IH]; intros c W Htr; cbn zeta; simpl.
  - now rewrite app_nil_r.
  - pose proof (report_loop_tracked range O c W Htr) as H1. cbn zeta in H1.
    destruct (failure (report_loop api account_id tap_stream_id range O c)); [exact H1|].
    simpl. rewrite states_app, app_assoc. now apply IH.
Qed.

(** The flush of the handler and the final advance keep the order too. *)
Lemma tracked_last_advance c W b :
  tracked c W ->
  b = of_prev (prev_bookmark c)
  \/ (truthy (of_prev (prev_bookmark c)) = false /\ exists d, b = BDate d) ->
  ascending (W ++ states (effects (advance_bookmark account_id (cur_state c) b
                                     tap_stream_id))).
Proof.
  intros Htr Hb. pose proof Htr as (Hasc & Hlast & Hdel).
  unfold advance_bookmark.
  destruct (truthy b) eqn:Htruthy; simpl.
  - destruct (bookmark_datetime b) as [t|] eqn:Hparse; simpl;
      [|now rewrite app_nil_r].
    destruct Hb as [Hb|[Hfalsy [d Hb]]].
    + destruct (prev_bookmark c) as [p|] eqn:Hprev; subst b; [|discriminate].
      now apply (tracked_advance c W p t).
    + destruct W as [|s0 W']; [apply ascending_one|]. exfalso.
      destruct (Hlast ltac:(discriminate)) as (l & _ & p & _ & _ & _ & _ & Hp & Hlt).
      apply ltb_nonempty in Hlt. rewrite Hp in Hfalsy. simpl in Hfalsy.
      rewrite Hlt in Hfalsy. discriminate.
  - apply ascending_snoc; [exact Hasc|]. intros s Hs.
    destruct (Hlast ltac:(intros E; now rewrite E in Hs))
      as (_ & _ & _ & _ & _ & Hcur & _).
    rewrite Hcur in Hs. injection Hs as <-. apply not_below_refl.
Qed.

(** C2, as the code has it. Let the keys that the remote side delivers be
    chronological: the timestamps written for two of them are ordered like
    the keys. Then among the states that one run over the ranges of an
    account writes, whether it ends with an exception or not, the bookmark of
    the account never decreases from one state to the next. Nothing is said
    of the first state written against the state the run started from. *)
Theorem bookmark_ascends_within_run rs until st :
  ascending (states (effects (run_ranges api account_id tap_stream_id st rs until))).
Proof.
  pose proof (range_loop_tracked rs (Cursor None st) [] (tracked_start st)) as Htr.
  cbn zeta in Htr. simpl in Htr. unfold run_ranges.
  destruct (failure (range_loop api account_id tap_stream_id (Cursor None st) rs));
    simpl; rewrite states_app.
  - apply (tracked_last_advance _ _ _ Htr). now left.
  - apply (tracked_last_advance _ _ _ Htr).
    destruct (truthy (of_prev _)) eqn:E; [now left | right; eauto].
Qed.

End Run.
(** *** The start date *)

Lemma parsed_some s t : isoparse s = Some t -> parsed s = inr t.
Proof. unfold parsed. now intros ->. Qed.


Lemma get_start_eq cfg utcnow st :
  get_start cfg utcnow account_id st tap_stream_id
  = match start_date cfg with
    | Some s =>
        if nonempty s then
          match parsed s with
          | inr d => match persisted account_id tap_stream_id st with
                     | Some b => parsed b
                     | None => inr (naive (wall d))
                     end
          | inl e => inl e
          end
        else match persisted account_id tap_stream_id st with
             | Some b => parsed b
             | None => inr (naive (utcnow + timedelta_weeks 4))
             end
    | None => match persisted account_id tap_stream_id st with
              | Some b => parsed b
              | None => inr (naive (utcnow + timedelta_weeks 4))
              end
    end.
Proof.
  assert (H : forall d,
    (if bool_decide (st = ∅) then inr d
     else match get_bookmark st tap_stream_id account_id with
          | None => inr d
          | Some account_record =>
              if bool_decide (account_record = ∅) then inr d
              else match account_record !! bookmark_key with
                   | None => inr d
                   | Some current_bookmark =>
                       if nonempty current_bookmark then parsed current_bookmark
                       else inr d
                   end
          end)
    = match persisted account_id tap_stream_id st with
      | Some b => parsed b
      | None => inr d
      end).
  { intros d. unfold persisted, bookmark_at, get_bookmark.
    case_bool_decide as Hst; [subst st; now rewrite lookup_empty|].
    destruct (st !! tap_stream_id) as [accounts|]; [|reflexivity].
    destruct (accounts !! account_id) as [account_record|]; [|reflexivity].
    case_bool_decide as Hrec; [subst account_record; now rewrite lookup_empty|].
    destruct (account_record !! bookmark_key) as [b|]; [|reflexivity].
    now destruct (nonempty b). }
  unfold get_start.
  destruct (start_date cfg) as [s|]; [|apply H].
  destruct (nonempty s); [|apply H].
  destruct (parsed s); [reflexivity | apply H].
Qed.


(** *** What a run leaves alone *)

Section Preserved.

(** A property of states that every stored bookmark of this account keeps. *)
Variable P : state -> Prop.
Hypothesis stored_keeps : forall s t, P s -> P (stored account_id tap_stream_id s t).

Lemma advance_keeps st b :
  P st ->
  let o := advance_bookmark account_id st b tap_stream_id in
  Forall P (states (effects o)) /\ P (store o).
Proof.
  intros Hst. unfold advance_bookmark.
  destruct (negb (truthy b)); simpl; [split; [repeat constructor|]; exact Hst|].
  destruct (bookmark_datetime b) as [t|]; simpl.
  - pose proof (stored_keeps st t Hst). split; [repeat constructor|]; assumption.
  - split; [constructor | exact Hst].
Qed.

Lemma emit_insight_keeps c r :
  P (cur_state c) ->
  let s := emit_insight account_id tap_stream_id c r in
  Forall P (states (done_effects s)) /\ P (cur_state (reached s)).
Proof.
  intros Hc. unfold emit_insight.
  destruct (r !! bookmark_key) as [k|]; cbn zeta; [|split; [constructor | exact Hc]].
  destruct (String.ltb _ k); [|split; [constructor | exact Hc]].
  pose proof (advance_keeps (cur_state c) (BStr (seed_prev (prev_bookmark c) k)) Hc)
    as [Heff Hstore].
  cbn zeta in Heff, Hstore.
  destruct (raised _); simpl; split; assumption.
Qed.

Lemma emit_insights_keeps rows1 : forall c,
  P (cur_state c) ->
  let s := emit_insights account_id tap_stream_id c rows1 in
  Forall P (states (done_effects s)) /\ P (cur_state (reached s)).
Proof.
  induction rows1 as [|r rows1 IH]; intros c Hc; cbn zeta; simpl.
  - split; [constructor | exact Hc].
  - pose proof (emit_insight_keeps c r Hc) as H1. cbn zeta in H1.
    destruct (failure (emit_insight account_id tap_stream_id c r)); [exact H1|].
    destruct H1 as [H1 H1c]. destruct (IH _ H1c) as [H2 H2c]. simpl.
    rewrite states_app. split; [now apply Forall_app | exact H2c].
Qed.

Lemma attempt_report_keeps c rep :
  P (cur_state c) ->
  let s := attempt_report account_id tap_stream_id c rep in
  Forall P (states (done_effects s)) /\ P (cur_state (reached s)).
Proof.
  intros Hc. cbn zeta. unfold attempt_report.
  pose proof (emit_insights_keeps (rows rep) c Hc) as H. cbn zeta in H.
  now destruct (failure (emit_insights account_id tap_stream_id c (rows rep))).
Qed.

Lemma report_loop_keeps api range attempt c :
  P (cur_state c) ->
  let s := report_loop api account_id tap_stream_id range attempt c in
  Forall P (states (done_effects s)) /\ P (cur_state (reached s)).
Proof.
  revert attempt c.
  apply (report_loop_turns api range (fun _ c s => P (cur_state c) ->
           Forall P (states (done_effects s)) /\ P (cur_state (reached s)))); cbn zeta.
  - intros attempt c _ Hc. now apply attempt_report_keeps.
  - intros attempt c s' _ IH Hc.
    destruct (attempt_report_keeps c (api range attempt) Hc) as [H1 H1c].
    destruct (IH H1c) as [H2 H2c]. simpl. rewrite states_app.
    split; [|exact H2c]. apply Forall_app. split; [exact H1 | exact H2].
Qed.

Lemma range_loop_keeps api rs : forall c,
  P (cur_state c) ->
  let s := range_loop api account_id tap_stream_id c rs in
  Forall P (states (done_effects s)) /\ P (cur_state (reached s)).
Proof.
  induction rs as [|range rs IH]; intros c Hc; cbn zeta; simpl.
  - split; [constructor | exact Hc].
  - pose proof (report_loop_keeps api range O c Hc) as H1. cbn zeta in H1.
    destruct (failure (report_loop api account_id tap_stream_id range O c)); [exact H1|].
    destruct H1 as [H1 H1c]. destruct (IH _ H1c) as [H2 H2c]. simpl.
    rewrite states_app. split; [now apply Forall_app | exact H2c].
Qed.

Lemma run_ranges_keeps api rs until st :
  P st ->
  let o := run_ranges api account_id tap_stream_id st rs until in
  Forall P (states (effects o)) /\ P (store o).
Proof.
  intros Hst. cbn zeta. unfold run_ranges.
  destruct (range_loop_keeps api rs (Cursor None st) Hst) as [H1 H1c].
  destruct (failure (range_loop api account_id tap_stream_id (Cursor None st) rs));
    simpl; rewrite states_app;
    match goal with
    | |- context [advance_bookmark _ ?s ?b _] =>
        destruct (advance_keeps s b H1c) as [H2 H2c]
    end;
    (split; [now apply Forall_app | exact H2c]).
Qed.

Lemma process_account_keeps cfg clk api st :
  P st ->
  let o := process_account cfg clk api account_id tap_stream_id st in
  Forall P (states (effects o)) /\ P (store o).
Proof.
  intros Hst. cbn zeta. unfold process_account.
  destruct (get_start cfg (utcnow_default clk) account_id st tap_stream_id)
    as [e|[start [minutes|]]].
  - simpl. split; [constructor | exact Hst].
  - simpl. split; [constructor | exact Hst].
  - now apply run_ranges_keeps.
Qed.

End Preserved.

Lemma get_bookmark_stored_other st t stream' account' :
  stream' <> tap_stream_id \/ account' <> account_id ->
  get_bookmark (stored account_id tap_stream_id st t) stream' account'
  = get_bookmark st stream' account'.
Proof.
  intros Hother. unfold get_bookmark, stored, write_bookmark.
  destruct (decide (tap_stream_id = stream')) as [<-|Hs].
  - destruct Hother as [Hs|Ha]; [congruence|].
    rewrite lookup_insert_eq, lookup_insert_ne by congruence.
    now destruct (st !! tap_stream_id).
  - now rewrite lookup_insert_ne.
Qed.

(** The run of an account touches no bookmark but its own: in every state it
    writes, and in the state it leaves, the record of any other account, and
    of this account in any other stream, is what it was at the start; this
    holds whether the run returns or raises. *)
Theorem run_leaves_other_accounts cfg clk api st stream' account' :
  stream' <> tap_stream_id \/ account' <> account_id ->
  let o := process_account cfg clk api account_id tap_stream_id st in
  Forall (fun s => get_bookmark s stream' account' = get_bookmark st stream' account')
    (states (effects o))
  /\ get_bookmark (store o) stream' account' = get_bookmark st stream' account'.
Proof.
  intros Hother.
  apply (process_account_keeps
           (fun s => get_bookmark s stream' account' = get_bookmark st stream' account')).
  - intros s t Hs. now rewrite get_bookmark_stored_other.
  - reflexivity.
Qed.

(** *** What is written, and what the run leaves behind *)

Lemma emit_insight_records c r :
  records (done_effects (emit_insight account_id tap_stream_id c r)) = [r].
Proof.
  unfold emit_insight. destruct (r !! bookmark_key) as [k|]; [|reflexivity].
  cbn zeta. destruct (String.ltb _ k); [|reflexivity].
  pose proof (advance_records (cur_state c) (BStr (seed_prev (prev_bookmark c) k))) as H.
  destruct (raised _); simpl; now rewrite H.
Qed.

(** The rows written by the record loop are the rows that arrived, up to and
    including the one on which it stopped. *)
Lemma emit_insights_written rows1 : forall c,
  let s := emit_insights account_id tap_stream_id c rows1 in
  records (done_effects s) `prefix_of` rows1
  /\ (failure s = None -> records (done_effects s) = rows1).
Proof.
  induction rows1 as [|r rows1 IH]; intros c; cbn zeta; simpl.
  - split; [apply prefix_nil | reflexivity].
  - pose proof (emit_insight_records c r) as Hr.
    destruct (failure (emit_insight account_id tap_stream_id c r)) eqn:E.
    + rewrite Hr, E. split; [|discriminate]. exists rows1. reflexivity.
    + simpl. rewrite records_app, Hr. simpl.
      destruct (IH (reached (emit_insight account_id tap_stream_id c r))) as [Hpre Heq].
      split; [now apply prefix_cons | intros Hn; now rewrite Heq].
Qed.

Lemma run_ranges_records api rs until st :
  records (effects (run_ranges api account_id tap_stream_id st rs until))
  = records (done_effects (range_loop api account_id tap_stream_id (Cursor None st) rs)).
Proof.
  unfold run_ranges.
  destruct (failure (range_loop api account_id tap_stream_id (Cursor None st) rs));
    simpl; now rewrite records_app, advance_records, app_nil_r.
Qed.

(** When no report breaks, the rows written by a run are rows that the
    reports of its ranges delivered, in their order, none twice and none
    made up, up to the row on which the run stopped; a run that returns has
    written every one of them. *)
Theorem rows_written_once api rs until st :
  (forall range, In range rs -> breaks_with (api range O) = None) ->
  let delivered := concat (map (fun range => rows (api range O)) rs) in
  let o := run_ranges api account_id tap_stream_id st rs until in
  records (effects o) `prefix_of` delivered
  /\ (raised o = None -> records (effects o) = delivered).
Proof.
  intros Hclean delivered o. subst o. rewrite run_ranges_records.
  unfold run_ranges. rewrite (range_loop_clean api _ rs Hclean). fold delivered.
  destruct (emit_insights_written delivered (Cursor None st)) as [Hpre Heq].
  split; [exact Hpre|].
  destruct (failure (emit_insights account_id tap_stream_id (Cursor None st) delivered));
    simpl; [|auto].
  destruct (raised (advance_bookmark _ _ _ _)); discriminate.
Qed.

Lemma advance_sleeps st b :
  sleeps (effects (advance_bookmark account_id st b tap_stream_id)) = [].
Proof.
  unfold advance_bookmark. destruct (negb _); [reflexivity|].
  now destruct (bookmark_datetime b).
Qed.

(** The record loop never sleeps. *)
Lemma emit_insights_sleeps rows1 : forall c,
  sleeps (done_effects (emit_insights account_id tap_stream_id c rows1)) = [].
Proof.
  induction rows1 as [|r rows1 IH]; intros c; simpl; [reflexivity|].
  assert (Hone : sleeps (done_effects (emit_insight account_id tap_stream_id c r)) = []).
  { unfold emit_insight. destruct (r !! bookmark_key) as [k|]; [|reflexivity].
    cbn zeta. destruct (String.ltb _ k); [|reflexivity].
    pose proof (advance_sleeps (cur_state c) (BStr (seed_prev (prev_bookmark c) k))) as H.
    destruct (raised _); simpl; exact H. }
  destruct (failure (emit_insight account_id tap_stream_id c r)); [exact Hone|].
  simpl. now rewrite sleeps_app, Hone, IH.
Qed.

(** A report that breaks with the retried signature after rows have arrived
    is asked for again, and the rows of the second run are written after the
    rows of the first: what arrived before the failure is written twice when
    the second report holds it again. *)
Theorem retry_writes_rows_again api range c rows0 rows1 :
  api range O = Report rows0 (Some flaky) ->
  api range 1%nat = Report rows1 None ->
  let s0 := emit_insights account_id tap_stream_id c rows0 in
  failure s0 = None ->
  failure (emit_insights account_id tap_stream_id (reached s0) rows1) = None ->
  let s := report_loop api account_id tap_stream_id range 0 c in
  failure s = None
  /\ records (done_effects s) = rows0 ++ rows1
  /\ sleeps (done_effects s) = [20].
Proof.
  intros H0 H1 s0 Hs0 Hs1 s. subst s s0.
  assert (Ha : attempt_report account_id tap_stream_id c (Report rows0 (Some flaky))
               = Step (done_effects (emit_insights account_id tap_stream_id c rows0))
                   (reached (emit_insights account_id tap_stream_id c rows0))
                   (Some flaky)).
  { unfold attempt_report. simpl. now rewrite Hs0. }
  rewrite report_loop_eq. cbn zeta. rewrite H0, Ha. unfold retries. simpl.
  rewrite report_loop_clean by now rewrite H1. rewrite H1. simpl rows.
  split; [exact Hs1|].
  destruct (emit_insights_written rows0 c) as [_ Heq0].
  destruct (emit_insights_written rows1
              (reached (emit_insights account_id tap_stream_id c rows0))) as [_ Heq1].
  rewrite records_app, sleeps_app. simpl.
  change (records (Sleep 20 :: ?l)) with (records l).
  rewrite (Heq0 Hs0), (Heq1 Hs1). split; [reflexivity|].
  change (sleeps (Sleep 20 :: ?l)) with (20 :: sleeps l).
  now rewrite !emit_insights_sleeps.
Qed.

(** A run that returns leaves, for its account, the timestamp of the
    greatest partition key among the rows it wrote; when it wrote no row
    with a key, the timestamp of [until]. *)
Theorem returned_bookmark_is_greatest_key api rs until st :
  let o := run_ranges api account_id tap_stream_id st rs until in
  raised o = None ->
  (keys (effects o) = [] ->
   exists t, isoparse (date_isoformat until) = Some t
             /\ store o = stored account_id tap_stream_id st t)
  /\ (forall p, greatest p (keys (effects o)) -> nonempty p = true ->
      exists t, isoparse p = Some t
                /\ bookmark_at account_id tap_stream_id (store o) = Some (isoformat t)).
Proof.
  intros o Hret.
  assert (Hkeys : keys (effects o)
                  = keys (done_effects (range_loop api account_id tap_stream_id
                                          (Cursor None st) rs))).
  { unfold keys. subst o. now rewrite run_ranges_records. }
  rewrite Hkeys. subst o. unfold run_ranges in *.
  assert (Hstart : in_flight st (Cursor None st) []) by (split; [reflexivity | auto]).
  pose proof (range_loop_in_flight st api rs _ _ Hstart) as Hinv.
  cbn zeta in Hinv. simpl in Hinv.
  destruct (range_loop api account_id tap_stream_id (Cursor None st) rs)
    as [eff [prev cur] [e|]]; simpl in *.
  { destruct (raised (advance_bookmark _ _ _ _)); discriminate. }
  destruct Hinv as [[Hseen Hst]|Hstop]; [|now apply stopped_in_advance_failure in Hstop].
  simpl in Hseen, Hst. split.
  - intros Hnone. destruct prev as [p|].
    + destruct Hseen as [Hin _]. rewrite Hnone in Hin. contradiction.
    + rewrite (Hst eq_refl) in *. simpl in *.
      unfold advance_bookmark in *. simpl in *.
      destruct (isoparse (date_isoformat until)) as [t|]; [|discriminate].
      exists t. split; reflexivity.
  - intros p Hgreat Hne. destruct prev as [q|].
    + assert (q = p) as ->.
      { destruct Hseen as [Hq Hallq]. destruct Hgreat as [Hp Hallp].
        rewrite List.Forall_forall in Hallq, Hallp.
        apply String.leb_antisym; [apply Hallp | apply Hallq]; assumption. }
      simpl in *. rewrite Hne in *. unfold advance_bookmark in *. simpl in *.
      rewrite Hne in *. simpl in *.
      destruct (isoparse p) as [t|]; [|discriminate].
      exists t. split; [reflexivity | apply bookmark_at_stored].
    + simpl in Hseen. rewrite Hseen in Hgreat. destruct Hgreat as [[] _].
Qed.

(** *** Edges of the start date *)

(** Whatever start was resolved, and however the clock moved between the
    test and the override, as long as it did not go backwards, the start
    that the ranges are computed from lies at most 37 months of 30 days and
    one day before the time of the test: the step of one day back is also
    taken from a start that sits on the limit of 37 months. *)
Theorem adjusted_start_bound clk start :
  utcnow_test clk <= utcnow_clamp clk ->
  utcnow_test clk - adjust_start clk start <= timedelta_days (37 * 30 + 1).
Proof.
  intros Hclock. unfold adjust_start, timedelta_days, usec_per_day, usec_per_second.
  destruct (_ <? _) eqn:Hold.
  - lia.
  - apply Z.ltb_ge in Hold.
    unfold timedelta_days, usec_per_day, usec_per_second in Hold. lia.
Qed.

Lemma date_of_add_days dt n :
  date_of (dt + timedelta_days n) = date_of dt + n.
Proof.
  unfold date_of, timedelta_days. apply Z.div_add.
  unfold usec_per_day, usec_per_second. lia.
Qed.

(** With neither a bookmark in the state nor a [start_date] in the config,
    and today less than four weeks after the day of the clock, the run asks
    for a single range, which starts 27 days after the day of the clock and
    ends the day before today: its start lies after its end. *)
Theorem unconfigured_run_asks_future_range cfg clk api st :
  persisted account_id tap_stream_id st = None ->
  start_date cfg = None \/ start_date cfg = Some "" ->
  utcnow_test clk <= utcnow_default clk + timedelta_days (37 * 30) ->
  today clk < date_of (utcnow_default clk) + 28 ->
  process_account cfg clk api account_id tap_stream_id st
  = run_ranges api account_id tap_stream_id st
      [(date_of (utcnow_default clk) + 27, today clk - 1)] (today clk - 1)
  /\ today clk - 1 < date_of (utcnow_default clk) + 27.
Proof.
  intros Hnone Hcfg Hclock Htoday. split; [|lia]. unfold process_account.
  rewrite get_start_eq, Hnone.
  assert (Hstart : match start_date cfg with
                   | Some s => if nonempty s
                               then match parsed s with
                                    | inr d => inr (naive (wall d))
                                    | inl e0 => inl e0
                                    end
                               else inr (naive (utcnow_default clk + timedelta_weeks 4))
                   | None => inr (naive (utcnow_default clk + timedelta_weeks 4))
                   end = inr (naive (utcnow_default clk + timedelta_weeks 4)))
    by (destruct Hcfg as [->| ->]; reflexivity).
  rewrite Hstart. cbn [naive tzinfo wall]. cbn zeta.
  assert (Hadj : adjust_start clk (utcnow_default clk + timedelta_weeks 4)
                 = utcnow_default clk + timedelta_days 27).
  { unfold adjust_start, timedelta_weeks.
    replace (_ <? _) with false; [unfold timedelta_days; lia|].
    symmetry. apply Z.ltb_ge.
    unfold timedelta_days, usec_per_day, usec_per_second in *. lia. }
  rewrite Hadj. unfold parse_date. rewrite date_of_add_days.
  unfold time_ranges_of.
  now replace (1 <? _) with false by (symmetry; apply Z.ltb_ge; lia).
Qed.

(** *** From one run to the next *)

Lemma isoformat_nonempty s t : isoparse s = Some t -> nonempty (isoformat t) = true.
Proof. intros H. apply isoparse_isoformat in H. now destruct (isoformat t). Qed.

Lemma persisted_stored st x t :
  isoparse x = Some t ->
  persisted account_id tap_stream_id (stored account_id tap_stream_id st t)
  = Some (isoformat t).
Proof.
  intros Hx. unfold persisted. rewrite bookmark_at_stored.
  now rewrite (isoformat_nonempty x t Hx).
Qed.

(** A run that returns has stored, last, a timestamp that was parsed from a
    string. *)
Lemma run_returns_stored api rs until st :
  let o := run_ranges api account_id tap_stream_id st rs until in
  raised o = None ->
  exists x t st', isoparse x = Some t
                  /\ store o = stored account_id tap_stream_id st' t.
Proof.
  cbn zeta. unfold run_ranges.
  destruct (range_loop api account_id tap_stream_id (Cursor None st) rs)
    as [eff [prev cur] [e|]]; simpl.
  { destruct (raised (advance_bookmark _ _ _ _)); discriminate. }
  set (b := if truthy (of_prev prev) then of_prev prev else BDate until).
  assert (Hb : truthy b = true /\ exists x, bookmark_datetime b = isoparse x).
  { subst b. destruct (truthy (of_prev prev)) eqn:E.
    - split; [exact E|]. destruct prev as [p|]; [|discriminate]. now exists p.
    - split; [reflexivity|]. now exists (date_isoformat until). }
  destruct Hb as [Htruthy [x Hx]]. unfold advance_bookmark. rewrite Htruthy. simpl.
  destruct (bookmark_datetime b) as [t|] eqn:Ht; simpl; [|discriminate].
  intros _. exists x, t, cur. split; [now rewrite <- Hx | reflexivity].
Qed.

(** The state that a returned run leaves is read back by the next run of
    the account: [__get_start] resolves the very timestamp that was stored,
    whatever the clock says and, a configured start date being a date,
    whatever it is. When that timestamp has no UTC offset and is not older
    than 37 months, the ranges of the next run start on the day before it
    and end yesterday; when it has a UTC offset, because the partition key
    had one, the next run raises a TypeError before any request. *)
Theorem returned_run_is_resumed api rs until st cfg clk api' :
  let o := run_ranges api account_id tap_stream_id st rs until in
  raised o = None ->
  (forall s, start_date cfg = Some s -> nonempty s = true -> isoparse s <> None) ->
  exists t,
    bookmark_at account_id tap_stream_id (store o) = Some (isoformat t)
    /\ get_start cfg (utcnow_default clk) account_id (store o) tap_stream_id = inr t
    /\ (tzinfo t = None ->
        utcnow_test clk - wall t <= timedelta_days (37 * 30) ->
        process_account cfg clk api' account_id tap_stream_id (store o)
        = run_ranges api' account_id tap_stream_id (store o)
            (time_ranges_of (date_of (wall t) - 1) (today clk - 1)) (today clk - 1))
    /\ (tzinfo t <> None ->
        process_account cfg clk api' account_id tap_stream_id (store o)
        = Outcome [] (store o) (Some (OtherError "TypeError"))).
Proof.
  intros o Hret Hcfg.
  destruct (run_returns_stored api rs until st Hret) as (x & t & st' & Hx & Hstore).
  fold o in Hstore. exists t.
  assert (Hstart : get_start cfg (utcnow_default clk) account_id (store o) tap_stream_id
                   = inr t).
  { rewrite get_start_eq, Hstore, (persisted_stored st' x t Hx).
    rewrite (parsed_some _ t (isoparse_isoformat x t Hx)).
    destruct (start_date cfg) as [s|]; [|reflexivity].
    destruct (nonempty s) eqn:Hs; [|reflexivity].
    specialize (Hcfg s eq_refl Hs). unfold parsed. now destruct (isoparse s). }
  split; [rewrite Hstore; apply bookmark_at_stored|]. split; [exact Hstart|]. split.
  - intros Hnaive Hrecent. unfold process_account. rewrite Hstart, Hnaive. cbn zeta.
    unfold adjust_start.
    replace (_ <? _) with false by (symmetry; apply Z.ltb_ge; lia).
    unfold parse_date.
    replace (wall t - timedelta_days 1) with (wall t + timedelta_days (-1))
      by (unfold timedelta_days; lia).
    rewrite date_of_add_days. reflexivity.
  - intros Haware. unfold process_account. rewrite Hstart.
    destruct (tzinfo t); [reflexivity | contradiction].
Qed.

End Engine.

(** ** The report job poller *)

Section PollerProperties.

Import Poller.

Implicit Types (j : job) (rest responses : list response).

Lemma poll_keeps_polling j rest :
  keeps_polling j ->
  poll (Answers j :: rest)
  = (ApiGet :: LogStatus (id j) (async_status j) :: Sleep 2 :: fst (poll rest),
     snd (poll rest)).
Proof.
  intros H. simpl. destruct (poll rest) as [events r].
  destruct H as [H|[H|[H|[H Hpct]]]]; rewrite H; simpl; try reflexivity.
  now replace (async_percent_completion j =? 100) with false
    by (symmetry; apply Z.eqb_neq; lia).
Qed.







End PollerProperties.

(** ** The accounts of a stream, one after the other *)

Section Stream.

Implicit Types (runs : list (string * clock * remote)) (st : state).

(** The accounts that a list of runs is for. *)
Local Abbreviation accounts_of runs := (map (fun run => fst (fst run)) runs).

Lemma stream_keeps (P : state -> Prop) cfg tap_stream_id runs : forall st,
  (forall a s t, In a (accounts_of runs) -> P s -> P (stored a tap_stream_id s t)) ->
  P st ->
  let o := stream cfg runs st tap_stream_id in
  Forall P (states (effects o)) /\ P (store o).
Proof.
  induction runs as [|[[a clk] api] runs IH]; intros st Hkeeps Hst; cbn zeta; simpl.
  - split; [constructor | exact Hst].
  - pose proof (process_account_keeps a tap_stream_id P
                  (fun s t => Hkeeps a s t (or_introl eq_refl)) cfg clk api st Hst)
      as [H1 H1s].
    cbn zeta in H1, H1s.
    destruct (raised (process_account cfg clk api a tap_stream_id st)); [now split|].
    destruct (IH (store (process_account cfg clk api a tap_stream_id st))
                (fun a' s t Hin => Hkeeps a' s t (or_intror Hin)) H1s) as [H2 H2s].
    simpl. rewrite states_app. split; [now apply Forall_app | exact H2s].
Qed.

(** The bookmark that the run of an account has left is the bookmark that
    the state holds for it when the whole stream is over, whatever the runs
    of the accounts after it did, as long as the account is not run again. *)
Theorem stream_keeps_finished_account cfg tap_stream_id a clk api runs st :
  ~ In a (accounts_of runs) ->
  get_bookmark (store (stream cfg ((a, clk, api) :: runs) st tap_stream_id))
    tap_stream_id a
  = get_bookmark (store (process_account cfg clk api a tap_stream_id st))
      tap_stream_id a.
Proof.
  intros Hfresh. simpl.
  destruct (raised (process_account cfg clk api a tap_stream_id st)); [reflexivity|].
  simpl.
  set (st1 := store (process_account cfg clk api a tap_stream_id st)).
  apply (stream_keeps
           (fun s => get_bookmark s tap_stream_id a = get_bookmark st1 tap_stream_id a)
           cfg tap_stream_id runs st1); [|reflexivity].
  intros a' s t Hin Hs. rewrite get_bookmark_stored_other; [exact Hs|].
  right. intros ->. contradiction.
Qed.

Lemma stream_app cfg tap_stream_id runs1 runs2 : forall st,
  stream cfg (runs1 ++ runs2) st tap_stream_id
  = let o1 := stream cfg runs1 st tap_stream_id in
    match raised o1 with
    | Some _ => o1
    | None =>
        let o2 := stream cfg runs2 (store o1) tap_stream_id in
        Outcome (effects o1 ++ effects o2) (store o2) (raised o2)
    end.
Proof.
  induction runs1 as [|[[a clk] api] runs1 IH]; intros st; cbn zeta; simpl.
  - now destruct (stream cfg runs2 st tap_stream_id).
  - destruct (raised (process_account cfg clk api a tap_stream_id st)) eqn:E1;
      [now rewrite E1|].
    rewrite IH. cbn zeta. simpl.
    destruct (stream cfg runs1 _ tap_stream_id) as [eff1 s1 [e1|]]; simpl;
      [reflexivity|].
    now rewrite app_assoc.
Qed.

(** A stream stops at the first account whose run raises: the accounts
    after it are not run, nothing more is written, and the state is left as
    that run left it. *)
Theorem stream_stops_at_failed_account cfg tap_stream_id runs1 a clk api runs2 st e :
  let o1 := stream cfg runs1 st tap_stream_id in
  let o := process_account cfg clk api a tap_stream_id (store o1) in
  raised o1 = None ->
  raised o = Some e ->
  stream cfg (runs1 ++ (a, clk, api) :: runs2) st tap_stream_id
  = Outcome (effects o1 ++ effects o) (store o) (Some e).
Proof.
  intros o1 o Hok Hfail. subst o o1. rewrite stream_app. cbn zeta.
  rewrite Hok. simpl. rewrite Hfail. simpl. now rewrite Hfail.
Qed.

End Stream.
(** ** The throttle classifier and the retried request *)

Section ClientProperties.

Import Client.

Implicit Types (r : response) (rest : list attempt).

(** The two nested loops of [is_throttle] stop at the first estimate of the
    header. *)
Lemma scan_usage_first usage :
  scan_usage usage
  = match first_estimate usage with
    | Some m => if m =? 0 then ([], Returns false) else sleep_then_retry (m * 60)
    | None => ([], Returns false)
    end.
Proof.
  unfold first_estimate.
  induction usage as [|[account_id account_metadata] usage IH]; [reflexivity|].
  simpl. rewrite omap_app.
  induction account_metadata as [|m account_metadata IHm]; simpl; [exact IH|].
  destruct (estimated_time_to_regain_access m) as [w|]; simpl; [|exact IHm].
  now destruct (w =? 0).
Qed.

Lemma sleep_then_retry_positive seconds :
  0 <= seconds -> sleep_then_retry seconds = ([Sleep seconds], Returns false).
Proof.
  intros H. unfold sleep_then_retry.
  now replace (seconds <? 0) with false by (symmetry; apply Z.ltb_ge; lia).
Qed.

Lemma sleep_then_retry_negative seconds :
  seconds < 0 -> sleep_then_retry seconds = ([], Throws ValueError).
Proof.
  intros H. unfold sleep_then_retry.
  now replace (seconds <? 0) with true by (symmetry; apply Z.ltb_lt; lia).
Qed.

Lemma is_throttle_rate_limited r :
  rate_limited r ->
  is_throttle r
  = match use_case_usage r with
    | Some usage => scan_usage usage
    | None => ([], Returns false)
    end.
Proof.
  intros (_ & err & c & Herr & Htr & Hc & Hcode & Hsub).
  unfold is_throttle. rewrite Herr, Htr, Hc, Hsub. simpl.
  replace (rate_limit_code c) with true
    by (destruct Hcode as [->|[->| ->]]; reflexivity).
  reflexivity.
Qed.

(** The classifier sleeps at most once. *)
Lemma is_throttle_events r :
  fst (is_throttle r) = [] \/ exists seconds, fst (is_throttle r) = [Sleep seconds].
Proof.
  unfold is_throttle. destruct (body_error r) as [err|]; [|now left].
  destruct (negb _); [now left|]. destruct (negb _); [now left|].
  destruct (use_case_usage r) as [usage|]; [|now left].
  rewrite scan_usage_first. destruct (first_estimate usage) as [m|]; [|now left].
  destruct (m =? 0); [now left|]. unfold sleep_then_retry.
  destruct (_ <? 0); [now left | right; eauto].
Qed.

Lemma retry_on r tries rest sleeps :
  raises_for_status r = true -> is_throttle r = (sleeps, Returns false) ->
  retry tries (Responds r :: rest)
  = (Request :: sleeps ++ Backoff (S tries) (expo tries) :: fst (retry (S tries) rest),
     snd (retry (S tries) rest)).
Proof.
  intros Hraise Hthr. simpl. rewrite Hraise, Hthr.
  now destruct (retry (S tries) rest).
Qed.

(** C7, as the code has it. On a transient error with one of the three
    rate-limit codes and the rate-limit subcode, whose usage header gives an
    estimate of [m] minutes first, [m] being positive and [m * 60] seconds a
    length that can be slept, the classifier sleeps [m * 60] seconds and
    lets the decorator retry; the decorator then counts the failed call,
    sleeps the next wait of its exponential generator, which keeps growing
    with the number of failed calls, and calls again. Without header,
    without estimate, or with an estimate of zero, the same happens without
    the sleep of [m * 60] seconds. With a negative estimate the sleep of the
    classifier raises a ValueError, which ends the call: nothing is retried.
    No number of tries ends the retrying otherwise: after [n] such responses
    the decorator calls once more, for as long as its waits, of up to
    [2 ^ k] seconds before the retry number [k + 1], can be slept. *)
Theorem remote_wait_then_backoff r tries rest :
  rate_limited r ->
  (forall usage m,
      use_case_usage r = Some usage -> first_estimate usage = Some m ->
      0 < m -> m * 60 <= sleep_limit ->
      retry tries (Responds r :: rest)
      = (Request :: Sleep (m * 60) :: Backoff (S tries) (expo tries)
           :: fst (retry (S tries) rest),
         snd (retry (S tries) rest)))
  /\ (use_case_usage r = None
      \/ (exists usage, use_case_usage r = Some usage
                        /\ (first_estimate usage = None \/ first_estimate usage = Some 0)) ->
      retry tries (Responds r :: rest)
      = (Request :: Backoff (S tries) (expo tries) :: fst (retry (S tries) rest),
         snd (retry (S tries) rest)))
  /\ (forall usage m,
      use_case_usage r = Some usage -> first_estimate usage = Some m -> m < 0 ->
      retry tries (Responds r :: rest) = ([Request], Raised ValueError))
  /\ (forall n,
      (forall usage m,
          use_case_usage r = Some usage -> first_estimate usage = Some m ->
          0 <= m /\ m * 60 <= sleep_limit) ->
      (forall k, (k < n)%nat -> expo (tries + k) <= sleep_limit) ->
      snd (retry tries (repeat (Responds r) n)) = Retrying).
Proof.
  intros Hr. pose proof Hr as [Hraise _].
  pose proof (is_throttle_rate_limited r Hr) as Hthr.
  split; [|split; [|split]].
  - intros usage m Hu Hm Hpos _. rewrite Hu, scan_usage_first, Hm in Hthr.
    replace (m =? 0) with false in Hthr by (symmetry; apply Z.eqb_neq; lia).
    rewrite sleep_then_retry_positive in Hthr by lia.
    now rewrite (retry_on r tries rest _ Hraise Hthr).
  - intros [Hu|(usage & Hu & [Hm|Hm])]; rewrite Hu in Hthr;
      try rewrite scan_usage_first, Hm in Hthr; simpl in Hthr;
      now rewrite (retry_on r tries rest _ Hraise Hthr).
  - intros usage m Hu Hm Hneg. rewrite Hu, scan_usage_first, Hm in Hthr.
    replace (m =? 0) with false in Hthr by (symmetry; apply Z.eqb_neq; lia).
    rewrite sleep_then_retry_negative in Hthr by lia.
    simpl. now rewrite Hraise, Hthr.
  - intros n Hest _.
    assert (Hgo : exists sleeps, is_throttle r = (sleeps, Returns false)).
    { rewrite Hthr. destruct (use_case_usage r) as [usage|]; [|eauto].
      rewrite scan_usage_first. destruct (first_estimate usage) as [m|] eqn:Hm; [|eauto].
      destruct (m =? 0); [eauto|]. destruct (Hest usage m eq_refl Hm) as [Hpos _].
      rewrite sleep_then_retry_positive by lia. eauto. }
    destruct Hgo as [sleeps Hgo]. clear Hest. revert tries.
    induction n as [|n IH]; intros tries; [reflexivity|].
    simpl repeat. rewrite (retry_on r tries _ _ Hraise Hgo). apply IH.
Qed.

(** C8, as the code has it. On a response with a 4xx or 5xx status whose
    body has no member ["error"], and likewise on one whose error is not
    marked transient, the classifier answers that the decorator is to give
    up: the call is not made again, no wait is taken, and the HTTP error goes
    to the caller. *)
Theorem no_error_body_gives_up r tries rest :
  raises_for_status r = true ->
  body_error r = None
  \/ (exists err, body_error r = Some err /\ default false (is_transient err) = false) ->
  is_throttle r = ([], Returns true)
  /\ retry tries (Responds r :: rest) = ([Request], Raised (HTTPError r)).
Proof.
  intros Hraise Hbody.
  assert (Hthr : is_throttle r = ([], Returns true)).
  { unfold is_throttle. destruct Hbody as [->|(err & -> & ->)]; reflexivity. }
  split; [exact Hthr|]. simpl. now rewrite Hraise, Hthr.
Qed.

End ClientProperties.

(** ** Encoding of parameters and paging *)

Section RequestProperties.

Import Requests.

Variable json_dumps : dict -> string.

Implicit Types (d params : dict) (v : value) (k : string).

Local Abbreviation encode_value := (encode_value json_dumps).
Local Abbreviation encode_params := (encode_params json_dumps).

Lemma encode_value_scalar v v' : encode_value v = Some v' -> scalar v'.
Proof.
  destruct v as [s|n|items|members]; simpl.
  - now intros [= <-].
  - now intros [= <-].
  - destruct (strings_of items); [now intros [= <-] | discriminate].
  - now intros [= <-].
Qed.

Lemma encode_value_of_scalar v : scalar v -> encode_value v = Some v.
Proof. now destruct v. Qed.

Lemma strings_of_some items l : strings_of items = Some l -> items = map VStr l.
Proof.
  revert l. induction items as [|[s|n|items'|members] items IH]; intros l; simpl;
    try discriminate.
  - now intros [= <-].
  - destruct (strings_of items) as [l'|]; [|discriminate]. intros [= <-].
    simpl. now rewrite (IH l' eq_refl).
Qed.

(** When the encoding succeeds, the encoded parameters have the keys of the
    given ones, in the same order. Under each key, a dict has become its
    JSON text, a list, which then holds strings only, has become these
    strings joined by commas, and a string or a number is what it was. So
    none of the values is a list or a dict any more, and encoding the result
    again changes nothing. *)
Theorem encode_params_flattens params encoded :
  encode_params params = Some encoded ->
  Forall2 (fun given sent =>
             fst sent = fst given
             /\ (forall members, snd given = VDict members ->
                 snd sent = VStr (json_dumps members))
             /\ (forall items, snd given = VList items ->
                 exists l, items = map VStr l /\ snd sent = VStr (String.concat "," l))
             /\ (scalar (snd given) -> snd sent = snd given))
    params encoded
  /\ map fst encoded = map fst params
  /\ Forall scalar (map snd encoded)
  /\ encode_params encoded = Some encoded.
Proof.
  revert encoded. induction params as [|[k v] params IH]; intros encoded; simpl.
  - intros [= <-]. repeat split; constructor.
  - destruct (encode_value v) as [v'|] eqn:Hv; [|discriminate].
    destruct (Requests.encode_params json_dumps params) as [rest|]; [|discriminate].
    intros [= <-]. destruct (IH rest eq_refl) as (Hall & Hk & Hs & Hi).
    pose proof (encode_value_scalar v v' Hv) as Hsc. simpl.
    split; [|split; [|split]].
    + constructor; [|exact Hall]. simpl. split; [reflexivity|].
      split; [|split].
      * intros members ->. simpl in Hv. now injection Hv as <-.
      * intros items ->. simpl in Hv.
        destruct (strings_of items) as [l|] eqn:Hl; [|discriminate].
        injection Hv as <-. exists l. split; [now apply strings_of_some | reflexivity].
      * intros Hscalar. rewrite (encode_value_of_scalar v Hscalar) in Hv.
        now injection Hv as <-.
    + now rewrite Hk.
    + now constructor.
    + now rewrite (encode_value_of_scalar v' Hsc), Hi.
Qed.

(** The encoding fails, with the TypeError of [join], exactly when some
    parameter is a list with an element that is not a string. *)
Theorem encode_params_fails_on_mixed_list params :
  encode_params params = None <-> Exists (fun kv => unjoinable (snd kv)) params.
Proof.
  induction params as [|[k v] params IH]; simpl.
  - split; [discriminate | intros H; inversion H].
  - destruct (encode_value v) as [v'|] eqn:Hv.
    + destruct (Requests.encode_params json_dumps params) as [rest|].
      * split; [discriminate|]. intros H. inversion H as [? ? Hbad|? ? Hbad]; subst.
        -- simpl in Hbad. destruct v as [s|n|items|members]; try contradiction.
           simpl in Hv, Hbad. rewrite Hbad in Hv. discriminate.
        -- apply IH in Hbad. discriminate.
      * split; [|reflexivity]. intros _. apply Exists_cons_tl. now apply IH.
    + split; [|reflexivity]. intros _. apply Exists_cons_hd. simpl.
      destruct v as [s|n|items|members]; try discriminate. simpl in *.
      now destruct (strings_of items).
Qed.

Lemma dict_get_set_eq k v d : dict_get k (dict_set k v d) = Some v.
Proof.
  induction d as [|[k' v'] d IH]; simpl.
  - now rewrite String.eqb_refl.
  - destruct (String.eqb k k') eqn:E; simpl; rewrite ?String.eqb_refl, ?E; auto.
Qed.

Lemma dict_get_set_ne k k' v d :
  k' <> k -> dict_get k' (dict_set k v d) = dict_get k' d.
Proof.
  intros Hne. induction d as [|[k0 v0] d IH]; simpl.
  - now replace (String.eqb k' k) with false by (symmetry; now apply String.eqb_neq).
  - destruct (String.eqb k k0) eqn:E; simpl.
    + apply String.eqb_eq in E. subst k0.
      now replace (String.eqb k' k) with false by (symmetry; now apply String.eqb_neq).
    + now rewrite IH.
Qed.

Lemma dict_get_encoded k d encoded :
  encode_params d = Some encoded ->
  dict_get k encoded = match dict_get k d with
                       | Some v => encode_value v
                       | None => None
                       end.
Proof.
  revert encoded. induction d as [|[k' v'] d IH]; intros encoded; simpl.
  - now intros [= <-].
  - destruct (encode_value v') as [v''|] eqn:Hv; [|discriminate].
    destruct (Requests.encode_params json_dumps d) as [rest|]; [|discriminate].
    intros [= <-]. simpl. destruct (String.eqb k k'); [now rewrite Hv | now apply IH].
Qed.

(** The parameters of every request hold the access token of the client
    under ["access_token"], also when the caller passed a parameter of that
    name; every other parameter is the caller's, encoded. *)
Theorem request_carries_access_token access_token params encoded :
  request_params json_dumps access_token params = Some encoded ->
  dict_get "access_token" encoded = Some (VStr access_token)
  /\ (forall k, k <> "access_token" ->
      dict_get k encoded = match dict_get k params with
                           | Some v => encode_value v
                           | None => None
                           end).
Proof.
  unfold request_params. intros Henc. split.
  - rewrite (dict_get_encoded _ _ _ Henc), dict_get_set_eq. reflexivity.
  - intros k Hk. rewrite (dict_get_encoded _ _ _ Henc).
    now rewrite dict_get_set_ne.
Qed.

(** *** Paging *)

Lemma do_page_through srv l r access_token url params :
  snd (limits l r) = true ->
  do_page json_dumps srv l r access_token url params
  = (fst (limits l r), answers json_dumps srv access_token params url).
Proof. unfold do_page. destruct (limits l r) as [l' through]. simpl. now intros ->. Qed.

Lemma do_page_refused srv l r access_token url params :
  snd (limits l r) = false ->
  do_page json_dumps srv l r access_token url params = (fst (limits l r), Nothing).
Proof. unfold do_page. destruct (limits l r) as [l' through]. simpl. now intros ->. Qed.

(** A call takes one of the calls of the window, or the first of a new
    window. *)
Lemma limits_count l r : (num_calls (fst (limits l r)) <= S (num_calls l))%nat.
Proof. unfold limits. destruct (_ <=? 0); simpl; lia. Qed.

Lemma limits_through l r :
  snd (limits l r) = negb (clamped_calls <? num_calls (fst (limits l r)))%nat.
Proof. reflexivity. Qed.

Lemma lets_through_budget ticks : forall l,
  (num_calls l + length ticks <= clamped_calls)%nat -> lets_through l ticks.
Proof.
  induction ticks as [|r ticks IH]; intros l Hbudget; cbn [lets_through]; [exact I|].
  cbn [length] in Hbudget. pose proof (limits_count l r) as Hcount. split.
  - rewrite limits_through. apply negb_true_iff, Nat.ltb_ge. lia.
  - apply IH. lia.
Qed.

Lemma limits_within l r :
  at_test r - last_reset l < period ->
  limits l r = (Limiter (last_reset l) (S (num_calls l)),
                negb (clamped_calls <? S (num_calls l))%nat).
Proof.
  intros Hin. unfold limits.
  now replace (_ <=? 0) with false by (symmetry; apply Z.leb_gt; lia).
Qed.

Lemma paginate_refused srv l r ticks access_token url params :
  ~ lets_through l (firstn 1 (r :: ticks)) ->
  paginate json_dumps srv l (r :: ticks) access_token url params
  = Drained [] [] (Raised (OtherError "TypeError")) (counted l (firstn 1 (r :: ticks))).
Proof.
  rewrite firstn_cons, firstn_O. cbn [lets_through counted fold_left paginate].
  intros Hno.
  assert (Hrefused : snd (limits l r) = false).
  { destruct (snd (limits l r)); [exfalso; apply Hno; now split | reflexivity]. }
  now rewrite (do_page_refused _ _ _ _ _ _ Hrefused).
Qed.

(** Drained with a clock reading for every page, the generator asks for
    the first url and then for the url that each page names as next, yields
    the data of the pages in that order, duplicates included, and ends
    without error on the first page that names no next url; when a request
    fails it has yielded the data of the pages before and raises. The pages
    after the end are never asked for. All this as long as the rate limiter
    lets the calls through, which it does whatever the clock when the pages
    are no more than the calls left of the 20 of the window. At the first
    call that the limiter refuses the generator raises a TypeError instead,
    without a request, after the data of the pages before. *)
Theorem paginate_follows_next srv access_token params url pages e :
  follows json_dumps srv access_token params url pages e ->
  forall l ticks,
    (length pages <= length ticks)%nat ->
    (lets_through l (firstn (length pages) ticks) ->
     paginate json_dumps srv l ticks access_token url params
     = Drained (map fst pages) (concat (map snd pages)) e
         (counted l (firstn (length pages) ticks)))
    /\ (forall i,
        (i < length pages)%nat ->
        lets_through l (firstn i ticks) ->
        ~ lets_through l (firstn (S i) ticks) ->
        paginate json_dumps srv l ticks access_token url params
        = Drained (map fst (firstn i pages)) (concat (map snd (firstn i pages)))
            (Raised (OtherError "TypeError")) (counted l (firstn (S i) ticks)))
    /\ ((num_calls l + length pages <= clamped_calls)%nat ->
        lets_through l (firstn (length pages) ticks)).
Proof.
  intros Hf l ticks Hlen.
  split; [|split].
  - revert l ticks Hlen.
    induction Hf as [url data next Hpage Hnext|url e Hfail
                    |url data next pages e Hpage Hne Hf IH]; intros l ticks Hlen;
      (destruct ticks as [|r ticks]; [simpl in Hlen; lia|]); simpl;
      intros [Hthrough Hrest]; rewrite (do_page_through _ _ _ _ _ _ Hthrough).
    + rewrite Hpage, app_nil_r. now destruct Hnext as [->| ->].
    + now rewrite Hfail.
    + rewrite Hpage, Hne. rewrite (IH _ ticks) by (simpl in Hlen; lia || exact Hrest).
      reflexivity.
  - revert l ticks Hlen.
    induction Hf as [url data next Hpage Hnext|url e Hfail
                    |url data next pages e Hpage Hne Hf IH]; intros l ticks Hlen i Hi;
      (destruct ticks as [|r ticks]; [simpl in Hlen; lia|]).
    + assert (i = 0)%nat as -> by (simpl in Hi; lia). intros _. apply paginate_refused.
    + assert (i = 0)%nat as -> by (simpl in Hi; lia). intros _. apply paginate_refused.
    + destruct i as [|i]; [intros _; apply paginate_refused|].
      rewrite !firstn_cons. cbn [lets_through counted fold_left paginate map concat].
      intros [Hthrough Hrest] Hno.
      rewrite (do_page_through _ _ _ _ _ _ Hthrough), Hpage, Hne.
      rewrite (IH (fst (limits l r)) ticks ltac:(simpl in Hlen; lia) i
                 ltac:(simpl in Hi; lia) Hrest).
      * reflexivity.
      * intros Hyes. apply Hno. split; assumption.
  - intros Hbudget. apply lets_through_budget.
    rewrite length_firstn. lia.
Qed.

(** A page that names itself as next is asked for again and again, and its
    data yielded again: the generator has no end of its own, and is still
    paging when the clock readings are used up, as long as the rate limiter
    lets the calls through. Within one window of the limiter, that is when
    no reading is taken 60 seconds or more after its start, the calls that
    are left of the 20 go through and the next one raises a TypeError. *)
Theorem cycle_ends_at_rate_limit srv access_token params url data l ticks :
  answers json_dumps srv access_token params url = Page data (Some url) ->
  nonempty url = true ->
  (lets_through l ticks ->
   paginate json_dumps srv l ticks access_token url params
   = Drained (repeat url (length ticks)) (concat (repeat data (length ticks))) Paging
       (counted l ticks))
  /\ (within_window l ticks ->
      (num_calls l <= clamped_calls)%nat ->
      (clamped_calls - num_calls l < length ticks)%nat ->
      let left := (clamped_calls - num_calls l)%nat in
      paginate json_dumps srv l ticks access_token url params
      = Drained (repeat url left) (concat (repeat data left))
          (Raised (OtherError "TypeError")) (Limiter (last_reset l) (S clamped_calls))).
Proof.
  intros Hpage Hne. split.
  - revert l. induction ticks as [|r ticks IH]; intros l;
      cbn [lets_through paginate length repeat concat counted fold_left]; [reflexivity|].
    intros [Hthrough Hrest].
    rewrite (do_page_through _ _ _ _ _ _ Hthrough), Hpage, Hne.
    now rewrite (IH _ Hrest).
  - cbn zeta. revert l. induction ticks as [|r ticks IH]; intros l Hwin Hcalls Hmore;
      [simpl in Hmore; lia|].
    apply Forall_cons in Hwin as [Hr Hwin].
    pose proof (limits_within l r Hr) as Hlim. cbn [paginate].
    destruct (Nat.eq_dec (num_calls l) clamped_calls) as [Hfull|Hroom].
    + rewrite do_page_refused.
      * rewrite Hlim, Hfull, Nat.sub_diag. reflexivity.
      * rewrite Hlim, Hfull. reflexivity.
    + rewrite do_page_through.
      * rewrite Hpage, Hne, Hlim. cbn [fst].
        rewrite (IH (Limiter (last_reset l) (S (num_calls l)))).
        -- cbn [num_calls last_reset asked yielded ended limiter_left].
           replace (clamped_calls - num_calls l)%nat
             with (S (clamped_calls - S (num_calls l))) by lia.
           reflexivity.
        -- exact Hwin.
        -- cbn [num_calls]. lia.
        -- cbn [num_calls length] in *. lia.
      * rewrite Hlim. cbn [snd]. apply negb_true_iff, Nat.ltb_ge. lia.
Qed.

(** *** [list_insights] *)

Lemma strings_of_strs l : strings_of (map VStr l) = Some l.
Proof. induction l as [|s l IH]; simpl; [reflexivity | now rewrite IH]. Qed.

Lemma parse_date_refused (arg : dateobj) :
  (exists e, parse_date arg = inl e) <-> refused arg.
Proof.
  destruct arg as [|s|dt|day]; simpl.
  - split; eauto.
  - unfold parsed. destruct (isoparse s); split; eauto; try discriminate.
    intros [e He]. discriminate.
  - split; [intros [e He]; discriminate | contradiction].
  - split; eauto.
Qed.

(** A call of [list_insights] raises, before any request is made and
    without a call being counted by the rate limiter, exactly when the start
    date is missing or empty, or is not a [datetime] or a string that
    [isoparse] reads (a plain [date] is refused), or when an end date is
    given that is not one either. Otherwise the parameters of its requests,
    its lists being lists of strings, can always be encoded; the request
    asks for the range from the day of the start date to the day of the end
    date, or to yesterday when no end date is given, at level ["ad"] and
    with a time increment of 1 whatever [time_increments] was passed, and
    goes to the insights of the account. *)
Theorem list_insights_request srv l ticks access_token version today q :
  (forall e, insights_params today q = inl e ->
   list_insights json_dumps srv l ticks access_token version today q
   = Drained [] [] (Raised e) l)
  /\ ((exists e, insights_params today q = inl e) <->
      given (start_date q) = false \/ refused (start_date q)
      \/ (given (end_date q) = true /\ refused (end_date q)))
  /\ (given (start_date q) = false ->
      insights_params today q = inl (ValueError "client: start_date is required"))
  /\ (forall since,
      given (start_date q) = true -> parse_date (start_date q) = inr since ->
      given (end_date q) = false \/ (exists u, parse_date (end_date q) = inr u) ->
      exists params encoded until,
        insights_params today q = inr params
        /\ request_params json_dumps access_token params = Some encoded
        /\ (if given (end_date q) then parse_date (end_date q) = inr until
            else until = today - 1)
        /\ dict_get "time_range" encoded
           = Some (VStr (json_dumps [("since", VStr (date_isoformat since));
                                     ("until", VStr (date_isoformat until))]))
        /\ dict_get "time_increment" encoded = Some (VInt 1)
        /\ dict_get "level" encoded = Some (VStr "ad")
        /\ list_insights json_dumps srv l ticks access_token version today q
           = paginate json_dumps srv l ticks access_token
               ("https://graph.facebook.com/" +:+ version +:+ "/" +:+ account_id q
                  +:+ "/insights")
               params).
Proof.
  split; [|split; [|split]].
  - intros e Hnone. unfold list_insights. now rewrite Hnone.
  - rewrite <- !parse_date_refused. unfold insights_params. split.
    + destruct (given (start_date q)); simpl; [|auto].
      destruct (parse_date (start_date q)) as [e0|since]; [eauto|].
      destruct (given (end_date q)); [|intros [e He]; discriminate].
      destruct (parse_date (end_date q)) as [e1|u]; [eauto|].
      intros [e He]. discriminate.
    + intros [Hno|[[e0 Hbad]|[Hend [e1 Hbad]]]].
      * rewrite Hno. simpl. eauto.
      * rewrite Hbad. destruct (negb _); eauto.
      * destruct (negb (given (start_date q))); [eauto|].
        destruct (parse_date (start_date q)); [eauto|].
        rewrite Hend, Hbad. eauto.
  - intros Hno. unfold insights_params. now rewrite Hno.
  - intros since Hgiven Hsince Hend.
    assert (Huntil : exists u, (if given (end_date q) then parse_date (end_date q)
                                else inr (today + -1)) = inr u
                               /\ (if given (end_date q) then parse_date (end_date q) = inr u
                                   else u = today - 1)).
    { destruct (given (end_date q)); [|exists (today + -1); split; [reflexivity | lia]].
      destruct Hend as [Hend|[u Hu]]; [discriminate | eauto]. }
    destruct Huntil as (u & Hu & Hwhich).
    unfold list_insights, insights_params. rewrite Hgiven, Hsince. simpl negb. cbn iota.
    rewrite Hu. eexists. eexists. exists u.
    split; [reflexivity|]. split.
    { unfold request_params. simpl. now rewrite !strings_of_strs. }
    split; [exact Hwhich|]. repeat split.
Qed.

End RequestProperties.

(** ** More on the classifier, the retries and the poller *)

Section ClientSchedule.

Import Client.

Implicit Types (r : response) (rest : list attempt).


Lemma bounds_app l1 l2 : bounds (l1 ++ l2) = bounds l1 ++ bounds l2.
Proof. apply omap_app. Qed.

Lemma waits_app l1 l2 : waits (l1 ++ l2) = waits l1 ++ waits l2.
Proof. apply omap_app. Qed.

Lemma retry_schedule r sleeps good rest n : forall tries,
  raises_for_status r = true -> is_throttle r = (sleeps, Returns false) ->
  raises_for_status good = false ->
  let run := retry tries (repeat (Responds r) n ++ Responds good :: rest) in
  snd run = Returned good
  /\ requests (fst run) = S n
  /\ bounds (fst run) = map expo (seq tries n)
  /\ waits (fst run) = concat (repeat (waits sleeps) n).
Proof.
  intros tries Hraise Hthr Hgood. cbn zeta. revert tries.
  assert (Hsleeps : sleeps = [] \/ exists seconds, sleeps = [Sleep seconds]).
  { pose proof (is_throttle_events r) as H. now rewrite Hthr in H. }
  assert (Hreq : forall l, requests (sleeps ++ l) = requests l).
  { intros l. destruct Hsleeps as [->|[seconds ->]]; reflexivity. }
  assert (Hbd : bounds sleeps = []).
  { destruct Hsleeps as [->|[seconds ->]]; reflexivity. }
  induction n as [|n IH]; intros tries; simpl.
  - rewrite Hgood. repeat split.
  - rewrite Hraise, Hthr.
    destruct (IH (S tries)) as (Hres & Hn & Hb & Hw).
    destruct (retry (S tries) (repeat (Responds r) n ++ Responds good :: rest))
      as [events res]. simpl in *. repeat split.
    + exact Hres.
    + change (requests (Request :: ?l)) with (S (requests l)).
      rewrite Hreq. change (requests (Backoff ?a ?b :: ?l)) with (requests l).
      now rewrite Hn.
    + change (bounds (Request :: ?l)) with (bounds l).
      rewrite bounds_app, Hbd.
      change (bounds (Backoff ?a ?b :: ?l)) with (b :: bounds l).
      now rewrite Hb.
    + change (waits (Request :: ?l)) with (waits l).
      rewrite waits_app.
      change (waits (Backoff ?a ?b :: ?l)) with (waits l).
      now rewrite Hw.
Qed.

Lemma sum_expo n : forall tries,
  foldr Z.add 0 (map expo (seq tries n)) = expo (tries + n) - expo tries.
Proof.
  induction n as [|n IH]; intros tries; simpl.
  - rewrite Nat.add_0_r. lia.
  - rewrite IH. unfold expo.
    replace (Z.of_nat (S tries + n)) with (Z.of_nat (tries + S n)) by lia.
    replace (Z.of_nat (S tries)) with (Z.of_nat tries + 1) by lia.
    rewrite Z.pow_add_r by lia. lia.
Qed.

(** When a call fails [n] times with a response that the classifier lets
    the decorator retry, and then gets a response without error status, the
    decorator has made [n + 1] requests and returns the last response;
    before the retry number [i] it has waited up to [2 ^ (i - 1)] seconds,
    so that the bounds of its waits add up to [2 ^ n - 1] seconds, next to
    the waits that the classifier took itself, once per failure. This for
    as many failures as leave the waits of a length that can be slept. *)
Theorem retries_back_off_exponentially r sleeps good rest n :
  raises_for_status r = true -> is_throttle r = (sleeps, Returns false) ->
  raises_for_status good = false ->
  Forall (fun seconds => seconds <= sleep_limit) (waits sleeps) ->
  (forall k, (k < n)%nat -> expo k <= sleep_limit) ->
  let run := do (repeat (Responds r) n ++ Responds good :: rest) in
  snd run = Returned good
  /\ requests (fst run) = S n
  /\ bounds (fst run) = map expo (seq 0 n)
  /\ foldr Z.add 0 (bounds (fst run)) = 2 ^ Z.of_nat n - 1
  /\ waits (fst run) = concat (repeat (waits sleeps) n).
Proof.
  intros Hraise Hthr Hgood _ _ run. subst run. unfold do.
  destruct (retry_schedule r sleeps good rest n 0%nat Hraise Hthr Hgood)
    as (Hres & Hn & Hb & Hw).
  repeat split; try assumption.
  rewrite Hb, sum_expo. reflexivity.
Qed.

End ClientSchedule.

Section PollerSchedule.

Import Poller.

Implicit Types (j : job) (js : list job) (rest : list response).

Lemma poll_unlisted j rest :
  unlisted j ->
  poll (Answers j :: rest) = (ApiGet :: fst (poll rest), snd (poll rest)).
Proof.
  intros [Hf Hp]. simpl. rewrite Hf, Hp.
  replace (String.eqb (async_status j) "Job Completed") with false.
  - simpl. now destruct (poll rest).
  - unfold pending_status in Hp. symmetry.
    now apply orb_false_iff in Hp as [_ Hp].
Qed.

Lemma poll_settled j rest :
  settled j ->
  snd (poll (Answers j :: rest)) = Returned j
  /\ polls (fst (poll (Answers j :: rest))) = 1%nat
  /\ slept (fst (poll (Answers j :: rest))) = [].
Proof.
  intros [H|[H|[H Hp]]]; simpl; rewrite H; simpl; try rewrite Hp; repeat split.
Qed.

(** Until the job is settled (failed, skipped, or completed at 100 percent)
    the poller sleeps 2 seconds after each answer with a status of its list
    and polls again: [n] such answers and the settled one make [n + 1]
    polls and [n] sleeps of 2 seconds, and the settled job is returned.
    Nothing bounds [n]. *)
Theorem poller_sleeps_between_polls js j rest :
  Forall keeps_polling js -> settled j ->
  let run := run_adreport None (map Answers js ++ Answers j :: rest) in
  snd run = Returned j
  /\ polls (fst run) = S (length js)
  /\ slept (fst run) = repeat 2 (length js).
Proof.
  intros Hjs Hj. cbn zeta. unfold run_adreport.
  induction Hjs as [|j0 js Hj0 _ IH]; simpl map; simpl app.
  - apply (poll_settled j rest Hj).
  - rewrite (poll_keeps_polling j0 _ Hj0). simpl fst. simpl snd.
    destruct IH as (Hres & Hpolls & Hslept). repeat split.
    + exact Hres.
    + change (polls (ApiGet :: LogStatus ?a ?b :: Sleep 2 :: ?l)) with (S (polls l)).
      now rewrite Hpolls.
    + change (slept (ApiGet :: LogStatus ?a ?b :: Sleep 2 :: ?l)) with (2 :: slept l).
      now rewrite Hslept.
Qed.

(** On a status that is in neither list of the poller, the job is polled
    again at once: [n] such answers in a row cost [n] polls, no sleep and no
    line in the log. An exception of [api_get] ends the polling and goes to
    the caller, and so does one of the submission, before any poll. *)
Theorem poller_polls_unlisted_status_at_once js rest e :
  Forall unlisted js ->
  (let run := run_adreport None (map Answers js ++ rest) in
   fst run = repeat ApiGet (length js) ++ fst (run_adreport None rest)
   /\ snd run = snd (run_adreport None rest))
  /\ run_adreport None (map Answers js ++ Throws e :: rest)
     = (repeat ApiGet (S (length js)), Raised e)
  /\ run_adreport (Some e) rest = ([], Raised e).
Proof.
  intros Hjs. unfold run_adreport.
  assert (H : forall rest', poll (map Answers js ++ rest')
                            = (repeat ApiGet (length js) ++ fst (poll rest'),
                               snd (poll rest'))).
  { intros rest'. induction Hjs as [|j0 js Hj0 _ IH]; simpl map; simpl app.
    - now destruct (poll rest').
    - rewrite (poll_unlisted j0 _ Hj0), IH. reflexivity. }
  split; [|split].
  - cbn zeta. rewrite H. split; reflexivity.
  - rewrite H. simpl. f_equal. symmetry. apply List.repeat_cons.
  - reflexivity.
Qed.

End PollerSchedule.

(** ** The properties on concrete runs *)

Section Scenarios.

Import Examples.

(** *** Calendar *)

Example isoparse_date : isoparse "2024-01-05" = Some (naive (midnight (jan 5))).
Proof. vm_compute. reflexivity. Qed.

Example isoformat_leap_day :
  option_map isoformat (isoparse "2024-02-29") = Some "2024-02-29T00:00:00".
Proof. vm_compute. reflexivity. Qed.

Example isoparse_timestamp :
  option_map isoformat (isoparse "2023-12-31T23:59:58") = Some "2023-12-31T23:59:58".
Proof. vm_compute. reflexivity. Qed.

(** The other layouts of ISO 8601: the UTC offset, which is kept, the basic
    format, the fraction of a second, midnight as 24:00, ordinal dates and
    week dates. *)
Example isoparse_layouts :
  isoparse "2024-01-05T00:00:00Z" = Some (Timestamp (midnight (jan 5)) (Some 0))
  /\ option_map isoformat (isoparse "2024-01-05T00:00:00Z")
     = Some "2024-01-05T00:00:00+00:00"
  /\ option_map isoformat (isoparse "20240105T101500,25-0530")
     = Some "2024-01-05T10:15:00.250000-05:30"
  /\ isoparse "2024-01-04T24:00" = Some (naive (midnight (jan 5)))
  /\ isoparse "2024-005" = Some (naive (midnight (jan 5)))
  /\ isoparse "2024-W01-5" = Some (naive (midnight (jan 5))).
Proof. vm_compute. repeat split. Qed.

Example isoparse_rejects :
  isoparse "2024-02-30" = None /\ isoparse "yesterday" = None
  /\ isoparse_error "yesterday" = ValueError "isoparse"
  /\ isoparse "9999-12-31T24:00" = None
  /\ isoparse_error "9999-12-31T24:00" = OtherError "OverflowError".
Proof. vm_compute. repeat split. Qed.

Example date_isoformat_new_year :
  date_isoformat (ymd2ord 2024 12 31 + 1) = "2025-01-01".
Proof. vm_compute. reflexivity. Qed.

(** The end-to-end scenario of the specification: a bookmark of 2024-01-05
    and a run on 2024-01-09 request the ranges 01-04..01-05, 01-06..01-07
    and 01-08..01-08. *)
Example ranges_of_resumed_run :
  let st := bookmarked "2024-01-05T00:00:00" in
  match get_start (Config None) (utcnow_default morning) account st stream_id with
  | inr start =>
      map (fun r => (date_isoformat (fst r), date_isoformat (snd r)))
        (time_ranges_of (parse_date (adjust_start morning (wall start)))
           (today morning - 1))
  | inl _ => []
  end
  = [("2024-01-04", "2024-01-05"); ("2024-01-06", "2024-01-07");
     ("2024-01-08", "2024-01-08")].
Proof. vm_compute. reflexivity. Qed.

(** *** C4 *)

Lemma time_ranges_partition_witness :
  jan 4 <= jan 8
  /\ time_ranges_of (jan 4) (jan 8) = [(jan 4, jan 5); (jan 6, jan 7); (jan 8, jan 8)]
  /\ concat (map days_of (time_ranges_of (jan 4) (jan 8)))
     = seqZ (jan 4) (jan 8 - jan 4 + 1)
  /\ (jan 5 - jan 4 <= 1 -> time_ranges_of (jan 4) (jan 5) = [(jan 4, jan 5)]).
Proof.
  assert (H48 : jan 4 <= jan 8) by (vm_compute; discriminate).
  assert (H45 : jan 4 <= jan 5) by (vm_compute; discriminate).
  pose proof (time_ranges_partition (jan 4) (jan 8) H48) as (_ & _ & Hdays & _).
  pose proof (time_ranges_partition (jan 4) (jan 5) H45)
    as (_ & _ & _ & _ & _ & Hone & _).
  split; [exact H48|]. split; [vm_compute; reflexivity|].
  split; [exact Hdays | exact Hone].
Defined.

(** *** C1 *)

Lemma steady_never_breaks range attempt : breaks_with (steady range attempt) = None.
Proof.
  unfold steady. destruct (fst range =? jan 4); [reflexivity|].
  now destruct (fst range =? jan 6).
Qed.

Lemma lagged_bookmark_advance_witness :
  let st := bookmarked "2024-01-01T00:00:00" in
  let o := run_ranges steady account stream_id st
             [(jan 4, jan 5); (jan 6, jan 7); (jan 8, jan 8)] (jan 8) in
  map (bookmark_at account stream_id) (states (effects o))
  = [Some "2024-01-04T00:00:00"; Some "2024-01-05T00:00:00";
     Some "2024-01-06T00:00:00"]
  /\ length (effects o) = 8%nat
  /\ run_ranges silent account stream_id st [(jan 4, jan 5)] (jan 8)
     = Outcome [WriteState (stored account stream_id st (naive (midnight (jan 8))))]
         (stored account stream_id st (naive (midnight (jan 8)))) None.
Proof.
  cbn zeta.
  pose proof (lagged_bookmark_advance account stream_id steady
                [(jan 4, jan 5); (jan 6, jan 7); (jan 8, jan 8)] (jan 8)
                (bookmarked "2024-01-01T00:00:00")
                (fun range _ => steady_never_breaks range O)) as [Hfive _].
  rewrite (Hfive (row "1" "2024-01-04") (row "2" "2024-01-04")
             (row "1" "2024-01-05") (row "2" "2024-01-05") (row "1" "2024-01-06")
             "2024-01-04" "2024-01-05" "2024-01-06"
             (naive (midnight (jan 4))) (naive (midnight (jan 5))) (naive (midnight (jan 6))));
    try (vm_compute; reflexivity).
  pose proof (lagged_bookmark_advance account stream_id silent
                [(jan 4, jan 5)] (jan 8) (bookmarked "2024-01-01T00:00:00")
                (fun _ _ => eq_refl)) as [_ Hnone].
  rewrite (Hnone (naive (midnight (jan 8)))); try (vm_compute; reflexivity).
  repeat split; vm_compute; reflexivity.
Defined.

(** *** C2 *)

(** Against C2 as the specification has it: the run that resumes from a
    bookmark of 2024-01-05 starts on 2024-01-04, and its first advance writes
    2024-01-04 over the bookmark. *)
Lemma bookmark_can_decrease :
  let st := bookmarked "2024-01-05T00:00:00" in
  let o := process_account (Config None) morning steady account stream_id st in
  raised o = None
  /\ bookmark_at account stream_id st = Some "2024-01-05T00:00:00"
  /\ (exists s, head (states (effects o)) = Some s
                /\ bookmark_at account stream_id s = Some "2024-01-04T00:00:00"
                /\ ~ not_below (bookmark_at account stream_id st)
                       (bookmark_at account stream_id s)).
Proof.
  cbn zeta. split; [vm_compute; reflexivity|]. split; [vm_compute; reflexivity|].
  eexists. split; [vm_compute; reflexivity|]. split; [vm_compute; reflexivity|].
  vm_compute. discriminate.
Qed.

Lemma steady_delivers k :
  delivers steady k -> k = "2024-01-04" \/ k = "2024-01-05" \/ k = "2024-01-06".
Proof.
  intros (range & attempt & r & Hin & Hk). unfold steady in Hin.
  destruct (fst range =? jan 4); [|destruct (fst range =? jan 6)]; simpl in Hin;
    repeat (destruct Hin as [<-|Hin]; [vm_compute in Hk; injection Hk as <-; auto|]);
    contradiction.
Qed.

Lemma steady_chronological k k' :
  delivers steady k -> delivers steady k' -> String.ltb k k' = true ->
  chronological k k'.
Proof.
  intros Hk Hk' Hlt t t' Ht Ht'.
  apply steady_delivers in Hk, Hk'.
  destruct Hk as [->|[->| ->]]; destruct Hk' as [->|[->| ->]];
    try discriminate Hlt;
    vm_compute in Ht, Ht'; injection Ht as <-; injection Ht' as <-;
    vm_compute; reflexivity.
Qed.

Lemma bookmark_ascends_within_run_witness :
  ascending account stream_id
    (states (effects (run_ranges steady account stream_id
                        (bookmarked "2024-01-05T00:00:00")
                        [(jan 4, jan 5); (jan 6, jan 7); (jan 8, jan 8)] (jan 8)))).
Proof.
  apply (bookmark_ascends_within_run account stream_id steady steady_chronological).
Defined.

(** *** C3 *)

(** Against C3 as the specification has it: when the connection drops after the
    first row of 2024-01-05, the last advance had written 2024-01-04, and the
    flush of the handler writes 2024-01-05, the partition in flight. *)
Lemma error_flush_writes_partition_in_flight :
  let o := run_ranges cut_short account stream_id ∅ [(jan 4, jan 5)] (jan 8) in
  raised o = Some (OtherError "ConnectionError")
  /\ map (fun r : insight => r !! "date_start") (records (effects o))
     = [Some "2024-01-04"; Some "2024-01-04"; Some "2024-01-05"]
  /\ map (bookmark_at account stream_id) (states (effects o))
     = [Some "2024-01-04T00:00:00"; Some "2024-01-05T00:00:00"]
  /\ bookmark_at account stream_id (store o) = Some "2024-01-05T00:00:00"
  /\ bookmark_at account stream_id (store o) <> Some "2024-01-04T00:00:00".
Proof. vm_compute. repeat split; congruence. Qed.

Lemma error_flush_key_in_flight_witness :
  let s := range_loop cut_short account stream_id (Cursor None ∅) [(jan 4, jan 5)] in
  let s' := range_loop unreadable account stream_id (Cursor None ∅) [(jan 4, jan 5)] in
  (failure s = Some (OtherError "ConnectionError")
   /\ isoparse "2024-01-05" = Some (naive (midnight (jan 5)))
   /\ greatest "2024-01-05" (keys (done_effects s))
   /\ store (run_ranges cut_short account stream_id ∅ [(jan 4, jan 5)] (jan 8))
      = stored account stream_id (cur_state (reached s)) (naive (midnight (jan 5))))
  /\ (failure s' = Some (ValueError "isoparse")
      /\ keys (done_effects s') = ["abc"; "abd"]
      /\ prev_bookmark (reached s') = Some "abc"
      /\ run_ranges unreadable account stream_id ∅ [(jan 4, jan 5)] (jan 8)
         = Outcome (done_effects s') ∅ (Some (ValueError "isoparse"))).
Proof.
  cbn zeta. split.
  - assert (Hfail : failure (range_loop cut_short account stream_id (Cursor None ∅)
                               [(jan 4, jan 5)]) = Some (OtherError "ConnectionError"))
      by (vm_compute; reflexivity).
    assert (Hprev : prev_bookmark (reached (range_loop cut_short account stream_id
                                              (Cursor None ∅) [(jan 4, jan 5)]))
                    = Some "2024-01-05")
      by (vm_compute; reflexivity).
    assert (Hparse : isoparse "2024-01-05" = Some (naive (midnight (jan 5))))
      by (vm_compute; reflexivity).
    pose proof (error_flush_key_in_flight account stream_id cut_short
                  [(jan 4, jan 5)] (jan 8) ∅ _ Hfail) as H.
    cbn zeta in H. rewrite Hprev in H. destruct H as (_ & H & _).
    destruct (H _ Hparse) as [Hgreat Hrun].
    split; [exact Hfail|]. split; [exact Hparse|]. split; [exact Hgreat|].
    now rewrite Hrun.
  - assert (Hfail : failure (range_loop unreadable account stream_id (Cursor None ∅)
                               [(jan 4, jan 5)]) = Some (ValueError "isoparse"))
      by (vm_compute; reflexivity).
    assert (Hprev : prev_bookmark (reached (range_loop unreadable account stream_id
                                              (Cursor None ∅) [(jan 4, jan 5)]))
                    = Some "abc")
      by (vm_compute; reflexivity).
    pose proof (error_flush_key_in_flight account stream_id unreadable
                  [(jan 4, jan 5)] (jan 8) ∅ _ Hfail) as H.
    cbn zeta in H. rewrite Hprev in H. destruct H as (_ & _ & H & _).
    split; [exact Hfail|]. split; [vm_compute; reflexivity|]. split; [exact Hprev|].
    rewrite (H eq_refl); [|vm_compute; reflexivity].
    f_equal.
Defined.

(** *** C6 *)



(** *** C7 *)

(** Against C7 as the specification has it: after each wait of 60 seconds that the
    header asked for, the decorator sleeps its own wait as well, and the
    second of these is drawn from the second value of the generator: the
    first cycle was counted, the state of the backoff is not a fresh one. *)
Lemma remote_wait_is_counted :
  Client.do [Client.Responds throttled; Client.Responds throttled; Client.Responds good]
  = ([Client.Request; Client.Sleep 60; Client.Backoff 1 (Client.expo 0);
      Client.Request; Client.Sleep 60; Client.Backoff 2 (Client.expo 1);
      Client.Request],
     Client.Returned good)
  /\ Client.expo 1 <> Client.expo 0.
Proof. split; [vm_compute; reflexivity | vm_compute; discriminate]. Qed.

Lemma throttled_rate_limited : rate_limited throttled.
Proof.
  split; [reflexivity|].
  exists (Client.Error (Some 80000) (Some 2446079) (Some true)), 80000.
  repeat split; auto.
Qed.

Lemma overdue_rate_limited : rate_limited overdue.
Proof.
  split; [reflexivity|].
  exists (Client.Error (Some 80004) (Some 2446079) (Some true)), 80004.
  repeat split; auto.
Qed.

Lemma remote_wait_then_backoff_witness :
  Client.retry 3 [Client.Responds throttled; Client.Responds good]
  = ([Client.Request; Client.Sleep 60; Client.Backoff 4 8; Client.Request],
     Client.Returned good)
  /\ snd (Client.retry 0 (repeat (Client.Responds throttled) 20)) = Client.Retrying
  /\ Client.retry 0 [Client.Responds overdue; Client.Responds good]
     = ([Client.Request], Client.Raised Client.ValueError).
Proof.
  pose proof (remote_wait_then_backoff throttled 3 [Client.Responds good]
                throttled_rate_limited) as (Hwait & _ & _).
  pose proof (remote_wait_then_backoff throttled 0 [] throttled_rate_limited)
    as (_ & _ & _ & Hever).
  pose proof (remote_wait_then_backoff overdue 0 [Client.Responds good]
                overdue_rate_limited) as (_ & _ & Hneg & _).
  split; [|split].
  - rewrite (Hwait _ 1 eq_refl); [reflexivity | reflexivity | lia|].
    vm_compute. discriminate.
  - apply Hever.
    + intros usage m [= <-] [= <-]. vm_compute. split; discriminate.
    + intros k Hk. unfold Client.expo, sleep_limit.
      assert (2 ^ Z.of_nat (0 + k) <= 2 ^ 19) by (apply Z.pow_le_mono_r; lia).
      change (2 ^ 19) with 524288 in *. lia.
  - apply (Hneg _ (-1) eq_refl); [reflexivity | lia].
Defined.

(** *** C8 *)

(** Against C8 as the specification has it: a status 500 whose body has no error is
    not retried; the second request of the script is never made. *)
Lemma bare_failure_is_not_retried :
  Client.do [Client.Responds bare_failure; Client.Responds good]
  = ([Client.Request], Client.Raised (Client.HTTPError bare_failure))
  /\ fst (Client.is_throttle bare_failure) = []
  /\ snd (Client.is_throttle bare_failure) = Client.Returns true.
Proof. vm_compute. auto. Qed.

Lemma no_error_body_gives_up_witness :
  Client.retry 0 [Client.Responds bare_failure; Client.Responds good]
  = ([Client.Request], Client.Raised (Client.HTTPError bare_failure))
  /\ Client.retry 0 [Client.Responds permanent; Client.Responds good]
     = ([Client.Request], Client.Raised (Client.HTTPError permanent)).
Proof.
  split.
  - apply (no_error_body_gives_up bare_failure 0 [Client.Responds good]);
      [reflexivity | now left].
  - apply (no_error_body_gives_up permanent 0 [Client.Responds good]);
      [reflexivity|]. right. eexists. split; reflexivity.
Defined.

(** *** C9 *)

Lemma flaky_report_retry_witness :
  (* three failures with the signature, then a report *)
  sleeps (done_effects (report_loop (flaky_for 3) account stream_id (jan 4, jan 5) 0
                          (Cursor None ∅)))
  = [20; 20; 20]
  /\ failure (report_loop (flaky_for 3) account stream_id (jan 4, jan 5) 0
                (Cursor None ∅)) = None
  (* six failures with the signature *)
  /\ run_ranges (flaky_for 6) account stream_id ∅ [(jan 4, jan 5); (jan 6, jan 7)] (jan 8)
     = Outcome (replicate 5 (Sleep 20) ++ [WriteState ∅]) ∅ (Some flaky)
  (* another error *)
  /\ run_ranges unauthorized account stream_id ∅ [(jan 4, jan 5); (jan 6, jan 7)] (jan 8)
     = Outcome [WriteState ∅] ∅ (Some (FacebookRequestError 190 460)).
Proof.
  pose proof (flaky_report_retry account stream_id (flaky_for 3) (jan 4, jan 5)
                (Cursor None ∅)) as (Hretry & _ & _).
  pose proof (flaky_report_retry account stream_id (flaky_for 6) (jan 4, jan 5)
                (Cursor None ∅)) as (_ & Hcap & _).
  pose proof (flaky_report_retry account stream_id unauthorized (jan 4, jan 5)
                (Cursor None ∅)) as (_ & _ & Hother).
  assert (H3 : forall i, (i < 3)%nat ->
            flaky_for 3 (jan 4, jan 5) i = Report [] (Some flaky)).
  { intros i Hi. unfold flaky_for.
    now replace (i <? 3)%nat with true by (symmetry; apply Nat.ltb_lt; lia). }
  assert (H6 : forall i, (i <= 5)%nat ->
            flaky_for 6 (jan 4, jan 5) i = Report [] (Some flaky)).
  { intros i Hi. unfold flaky_for.
    now replace (i <? 6)%nat with true by (symmetry; apply Nat.ltb_lt; lia). }
  rewrite (Hretry 3%nat [row "1" "2024-01-04"] ltac:(lia) H3 eq_refl).
  split; [reflexivity|]. split; [reflexivity|].
  split; [apply (proj2 (Hcap H6))|].
  apply (proj2 (Hother (FacebookRequestError 190 460) ltac:(discriminate) eq_refl)).
Defined.

(** *** C10 *)

Lemma flush_without_bookmark_witness :
  let st := bookmarked "2024-01-05T00:00:00" in
  advance_bookmark account st BNone stream_id = Outcome [WriteState st] st None
  /\ advance_bookmark account st (BStr "") stream_id = Outcome [WriteState st] st None
  /\ run_ranges unauthorized account stream_id st [(jan 4, jan 5)] (jan 8)
     = Outcome [WriteState st] st (Some (FacebookRequestError 190 460)).
Proof.
  cbn zeta.
  pose proof (flush_without_bookmark account stream_id unauthorized [(jan 4, jan 5)]
                (jan 8) (bookmarked "2024-01-05T00:00:00") BNone eq_refl)
    as [Hnone Hrun].
  pose proof (flush_without_bookmark account stream_id unauthorized [(jan 4, jan 5)]
                (jan 8) (bookmarked "2024-01-05T00:00:00") (BStr "") eq_refl)
    as [Hempty _].
  split; [exact Hnone|]. split; [exact Hempty|].
  destruct (Hrun (FacebookRequestError 190 460)) as [Heq _];
    [vm_compute; reflexivity | vm_compute; reflexivity|].
  rewrite Heq. vm_compute. reflexivity.
Defined.

(** *** Further runs *)

Import Samples.

Lemma time_ranges_count_witness :
  length (time_ranges_of (jan 4) (jan 8)) = 3%nat
  /\ length (time_ranges_of (jan 4) (jan 4 + 365)) = 183%nat.
Proof.
  pose proof (time_ranges_count (jan 4) (jan 8) ltac:(vm_compute; discriminate)) as H1.
  pose proof (time_ranges_count (jan 4) (jan 4 + 365) ltac:(lia)) as H2.
  replace (jan 8 - jan 4) with 4 in H1 by (vm_compute; reflexivity).
  replace (jan 4 + 365 - jan 4) with 365 in H2 by lia.
  change (4 / 2 + 1) with 3 in H1. change (365 / 2 + 1) with 183 in H2.
  split; lia.
Defined.

Lemma run_leaves_other_accounts_witness :
  let o := process_account (Config None) morning steady account stream_id crowded in
  bookmark_at account stream_id (store o) = Some "2024-01-06T00:00:00"
  /\ get_bookmark (store o) stream_id "act_2" = get_bookmark crowded stream_id "act_2"
  /\ get_bookmark (store o) "leads" account = get_bookmark crowded "leads" account.
Proof.
  cbn zeta. split; [vm_compute; reflexivity|]. split.
  - apply (run_leaves_other_accounts account stream_id (Config None) morning steady
             crowded stream_id "act_2"). right. discriminate.
  - apply (run_leaves_other_accounts account stream_id (Config None) morning steady
             crowded "leads" account). left. discriminate.
Defined.

Lemma rows_written_once_witness :
  let o := run_ranges steady account stream_id ∅
             [(jan 4, jan 5); (jan 6, jan 7); (jan 8, jan 8)] (jan 8) in
  raised o = None
  /\ records (effects o)
     = [row "1" "2024-01-04"; row "2" "2024-01-04"; row "1" "2024-01-05";
        row "2" "2024-01-05"; row "1" "2024-01-06"].
Proof.
  cbn zeta.
  assert (Hret : raised (run_ranges steady account stream_id ∅
                           [(jan 4, jan 5); (jan 6, jan 7); (jan 8, jan 8)] (jan 8))
                 = None) by (vm_compute; reflexivity).
  split; [exact Hret|].
  rewrite (proj2 (rows_written_once account stream_id steady
                    [(jan 4, jan 5); (jan 6, jan 7); (jan 8, jan 8)] (jan 8) ∅
                    (fun range _ => steady_never_breaks range O)) Hret).
  vm_compute. reflexivity.
Defined.

Lemma retry_writes_rows_again_witness :
  let s := report_loop breaks_once account stream_id (jan 4, jan 5) 0 (Cursor None ∅) in
  records (done_effects s)
  = [row "1" "2024-01-04"; row "2" "2024-01-04";
     row "1" "2024-01-04"; row "2" "2024-01-04"; row "1" "2024-01-05"]
  /\ sleeps (done_effects s) = [20].
Proof.
  cbn zeta.
  destruct (retry_writes_rows_again account stream_id breaks_once (jan 4, jan 5)
              (Cursor None ∅) _ _ eq_refl eq_refl
              ltac:(vm_compute; reflexivity) ltac:(vm_compute; reflexivity))
    as (_ & Hrec & Hsleep).
  split; [exact Hrec | exact Hsleep].
Defined.

Lemma returned_bookmark_is_greatest_key_witness :
  let o := run_ranges steady account stream_id ∅
             [(jan 4, jan 5); (jan 6, jan 7); (jan 8, jan 8)] (jan 8) in
  bookmark_at account stream_id (store o) = Some "2024-01-06T00:00:00"
  /\ (exists t, isoparse (date_isoformat (jan 8)) = Some t
                /\ store (run_ranges silent account stream_id ∅ [(jan 4, jan 5)] (jan 8))
                   = stored account stream_id ∅ t).
Proof.
  cbn zeta. split.
  - destruct (returned_bookmark_is_greatest_key account stream_id steady
                [(jan 4, jan 5); (jan 6, jan 7); (jan 8, jan 8)] (jan 8) ∅
                ltac:(vm_compute; reflexivity)) as [_ Hkey].
    destruct (Hkey "2024-01-06") as (t & Ht & Hbm).
    + split; [vm_compute; auto 10|]. vm_compute. repeat constructor.
    + reflexivity.
    + rewrite Hbm. vm_compute in Ht. injection Ht as <-. vm_compute. reflexivity.
  - destruct (returned_bookmark_is_greatest_key account stream_id silent
                [(jan 4, jan 5)] (jan 8) ∅ ltac:(vm_compute; reflexivity))
      as [Hnone _].
    apply Hnone. vm_compute. reflexivity.
Defined.

Lemma adjusted_start_bound_witness :
  utcnow_test on_the_limit - adjust_start on_the_limit (midnight (jan 5))
  <= timedelta_days (37 * 30 + 1)
  /\ utcnow_test on_the_limit - adjust_start on_the_limit (midnight (jan 5))
     = timedelta_days (37 * 30 + 1).
Proof.
  split; [|vm_compute; reflexivity].
  apply (adjusted_start_bound on_the_limit (midnight (jan 5))).
  vm_compute. discriminate.
Defined.

Lemma unconfigured_run_asks_future_range_witness :
  process_account (Config None) morning silent account stream_id ∅
  = run_ranges silent account stream_id ∅ [(jan 9 + 27, jan 8)] (jan 8).
Proof.
  destruct (unconfigured_run_asks_future_range account stream_id (Config None) morning
              silent ∅) as [Hrun _].
  - reflexivity.
  - now left.
  - vm_compute. discriminate.
  - vm_compute. reflexivity.
  - rewrite Hrun. vm_compute. reflexivity.
Defined.

Lemma returned_run_is_resumed_witness :
  let o := run_ranges steady account stream_id ∅
             [(jan 4, jan 5); (jan 6, jan 7); (jan 8, jan 8)] (jan 8) in
  let o' := run_ranges zoned account stream_id ∅ [(jan 4, jan 5)] (jan 8) in
  (exists t,
      bookmark_at account stream_id (store o) = Some (isoformat t)
      /\ get_start (Config (Some "2023-06-01T00:00:00Z")) (utcnow_default morning) account
           (store o) stream_id = inr t)
  /\ process_account (Config None) morning steady account stream_id (store o)
     = run_ranges steady account stream_id (store o) [(jan 5, jan 6); (jan 7, jan 8)] (jan 8)
  /\ bookmark_at account stream_id (store o') = Some "2024-01-04T00:00:00+00:00"
  /\ process_account (Config None) morning steady account stream_id (store o')
     = Outcome [] (store o') (Some (OtherError "TypeError")).
Proof.
  cbn zeta.
  destruct (returned_run_is_resumed account stream_id steady
              [(jan 4, jan 5); (jan 6, jan 7); (jan 8, jan 8)] (jan 8) ∅
              (Config (Some "2023-06-01T00:00:00Z")) morning silent
              ltac:(vm_compute; reflexivity)) as (t & Hbm & Hstart & _).
  { intros s [= <-] _. vm_compute. discriminate. }
  destruct (returned_run_is_resumed account stream_id steady
              [(jan 4, jan 5); (jan 6, jan 7); (jan 8, jan 8)] (jan 8) ∅
              (Config None) morning steady
              ltac:(vm_compute; reflexivity)) as (t1 & Hbm1 & Hstart1 & Hnaive & _).
  { intros s [=]. }
  destruct (returned_run_is_resumed account stream_id zoned [(jan 4, jan 5)] (jan 8) ∅
              (Config None) morning steady
              ltac:(vm_compute; reflexivity)) as (t2 & Hbm2 & Hstart2 & _ & Haware).
  { intros s [=]. }
  split; [exists t; split; assumption|].
  assert (Ht1 : t1 = naive (midnight (jan 6))).
  { vm_compute in Hstart1. injection Hstart1 as <-. vm_compute. reflexivity. }
  assert (Ht2 : t2 = Timestamp (midnight (jan 4)) (Some 0)).
  { vm_compute in Hstart2. injection Hstart2 as <-. vm_compute. reflexivity. }
  split; [|split].
  - rewrite Hnaive; subst t1; vm_compute; try reflexivity. discriminate.
  - rewrite Hbm2. subst t2. vm_compute. reflexivity.
  - apply Haware. subst t2. discriminate.
Defined.

Lemma stream_keeps_finished_account_witness :
  let runs := [(account, morning, steady); ("act_2", morning, silent)] in
  bookmark_at account stream_id (store (stream (Config None) runs crowded stream_id))
  = Some "2024-01-06T00:00:00".
Proof.
  cbn zeta. unfold bookmark_at.
  rewrite (stream_keeps_finished_account (Config None) stream_id account morning steady
             [("act_2", morning, silent)] crowded).
  - vm_compute. reflexivity.
  - simpl. intros [H|[]]. discriminate H.
Defined.

Lemma stream_stops_at_failed_account_witness :
  let runs := [(account, morning, steady); ("act_2", morning, unauthorized);
               ("act_3", morning, steady)] in
  let o := stream (Config None) runs crowded stream_id in
  raised o = Some (FacebookRequestError 190 460)
  /\ bookmark_at "act_3" stream_id (store o) = None.
Proof.
  cbn zeta.
  pose proof (stream_stops_at_failed_account (Config None) stream_id
                [(account, morning, steady)] "act_2" morning unauthorized
                [("act_3", morning, steady)] crowded (FacebookRequestError 190 460)
                ltac:(vm_compute; reflexivity) ltac:(vm_compute; reflexivity)) as H.
  simpl app in H. rewrite H.
  split; [reflexivity | vm_compute; reflexivity].
Defined.

(** *** Requests, retries and polls *)

Lemma encode_params_flattens_witness :
  exists encoded,
    Requests.encode_params dumps_range plain_params = Some encoded
    /\ map fst encoded = map fst plain_params
    /\ Requests.dict_get "fields" encoded = Some (Requests.VStr "ad_id,clicks")
    /\ Requests.encode_params dumps_range encoded = Some encoded
    /\ Forall2 (fun given sent =>
                  forall items, snd given = Requests.VList items ->
                                exists l, snd sent = Requests.VStr (String.concat "," l))
         plain_params encoded.
Proof.
  destruct (Requests.encode_params dumps_range plain_params) as [encoded|] eqn:Henc;
    [|vm_compute in Henc; discriminate].
  destruct (encode_params_flattens dumps_range plain_params encoded Henc)
    as (Hall & Hkeys & _ & Hagain).
  exists encoded. split; [reflexivity|]. split; [exact Hkeys|]. split; [|split].
  - vm_compute in Henc. injection Henc as <-. vm_compute. reflexivity.
  - exact Hagain.
  - eapply Forall2_impl; [exact Hall|]. intros given sent (_ & _ & Hlist & _) items Hi.
    destruct (Hlist items Hi) as (l & _ & Hsent). eauto.
Defined.

Lemma encode_params_fails_on_mixed_list_witness :
  Requests.encode_params dumps_range mixed_params = None
  /\ ~ Exists (fun kv => unjoinable (snd kv)) plain_params.
Proof.
  split.
  - apply (proj2 (encode_params_fails_on_mixed_list dumps_range mixed_params)).
    apply Exists_cons_tl, Exists_cons_hd. vm_compute. reflexivity.
  - intros Hbad.
    apply (proj2 (encode_params_fails_on_mixed_list dumps_range plain_params)) in Hbad.
    vm_compute in Hbad. discriminate.
Defined.

Lemma request_carries_access_token_witness :
  exists encoded,
    Requests.request_params dumps_range "fresh" plain_params = Some encoded
    /\ Requests.dict_get "access_token" encoded = Some (Requests.VStr "fresh")
    /\ Requests.dict_get "limit" encoded = Some (Requests.VInt 100).
Proof.
  destruct (Requests.request_params dumps_range "fresh" plain_params)
    as [encoded|] eqn:Henc; [|vm_compute in Henc; discriminate].
  destruct (request_carries_access_token dumps_range "fresh" plain_params encoded Henc)
    as [Htoken Hrest].
  exists encoded. split; [reflexivity|]. split; [exact Htoken|].
  rewrite (Hrest "limit") by discriminate. reflexivity.
Defined.

Lemma three_pages_followed :
  follows dumps_range three_pages "token" plain_params
    "https://graph.facebook.com/v4.0/act_1/insights"
    [("https://graph.facebook.com/v4.0/act_1/insights", [row "1" "2024-01-04"]);
     ("https://graph.facebook.com/page2", []);
     ("https://graph.facebook.com/page3", [row "1" "2024-01-05"; row "1" "2024-01-04"])]
    Requests.Finished.
Proof.
  eapply follows_next; [reflexivity | reflexivity |].
  eapply follows_next; [reflexivity | reflexivity |].
  eapply follows_last; [reflexivity | now left].
Qed.

Lemma paginate_follows_next_witness :
  (* with calls left in the window: to the end *)
  Requests.paginate dumps_range three_pages (counting 17) (seconds_apart 10) "token"
    "https://graph.facebook.com/v4.0/act_1/insights" plain_params
  = Requests.Drained
      ["https://graph.facebook.com/v4.0/act_1/insights";
       "https://graph.facebook.com/page2"; "https://graph.facebook.com/page3"]
      [row "1" "2024-01-04"; row "1" "2024-01-05"; row "1" "2024-01-04"]
      Requests.Finished (counting 20)
  (* with one call left: the second page is not asked for *)
  /\ Requests.paginate dumps_range three_pages (counting 19) (seconds_apart 10) "token"
       "https://graph.facebook.com/v4.0/act_1/insights" plain_params
     = Requests.Drained
         ["https://graph.facebook.com/v4.0/act_1/insights"] [row "1" "2024-01-04"]
         (Requests.Raised (OtherError "TypeError")) (counting 21).
Proof.
  split.
  - destruct (paginate_follows_next dumps_range three_pages "token" plain_params _ _ _
                three_pages_followed (counting 17) (seconds_apart 10))
      as (Hend & _ & Hbudget); [simpl; lia|].
    rewrite Hend; [reflexivity|]. apply Hbudget.
    unfold Requests.clamped_calls. simpl. lia.
  - destruct (paginate_follows_next dumps_range three_pages "token" plain_params _ _ _
                three_pages_followed (counting 19) (seconds_apart 10))
      as (_ & Hcut & _); [simpl; lia|].
    rewrite (Hcut 1%nat); [reflexivity | simpl; lia | vm_compute; auto|].
    vm_compute. intros (_ & H & _). discriminate H.
Defined.

Lemma cycle_ends_at_rate_limit_witness :
  let run := Requests.paginate dumps_range circular (counting 0) (seconds_apart 30) "token"
               "https://graph.facebook.com/v4.0/act_1/insights" plain_params in
  Requests.ended run = Requests.Raised (OtherError "TypeError")
  /\ length (Requests.asked run) = 20%nat
  /\ length (Requests.yielded run) = 20%nat.
Proof.
  cbn zeta.
  destruct (cycle_ends_at_rate_limit dumps_range circular "token" plain_params
              "https://graph.facebook.com/v4.0/act_1/insights" [row "1" "2024-01-04"]
              (counting 0) (seconds_apart 30) eq_refl eq_refl) as (_ & Hcut).
  rewrite Hcut.
  - repeat split.
  - unfold within_window, seconds_apart. apply Forall_map, Forall_forall.
    intros i Hi. apply elem_of_seq in Hi. unfold Requests.period. simpl. lia.
  - simpl. unfold Requests.clamped_calls. lia.
  - simpl. unfold Requests.clamped_calls. lia.
Defined.

Lemma list_insights_request_witness :
  Requests.list_insights dumps_range three_pages (counting 0) (seconds_apart 10) "token"
    "v4.0" (jan 9) (from_january (Requests.DDate (jan 4)))
  = Requests.Drained [] [] (Requests.Raised (ValueError "invalid date")) (counting 0)
  /\ exists params encoded,
       Requests.insights_params (jan 9)
         (from_january (Requests.DStr "2024-01-04T10:00:00Z")) = inr params
       /\ Requests.request_params dumps_range "token" params = Some encoded
       /\ Requests.dict_get "time_range" encoded
          = Some (Requests.VStr
                    (dumps_range [("since", Requests.VStr "2024-01-04");
                                  ("until", Requests.VStr "2024-01-08")]))
       /\ Requests.dict_get "time_increment" encoded = Some (Requests.VInt 1).
Proof.
  split.
  - destruct (list_insights_request dumps_range three_pages (counting 0) (seconds_apart 10)
                "token" "v4.0" (jan 9) (from_january (Requests.DDate (jan 4))))
      as (Hraise & _).
    apply Hraise. reflexivity.
  - destruct (list_insights_request dumps_range three_pages (counting 0) (seconds_apart 10)
                "token" "v4.0" (jan 9)
                (from_january (Requests.DStr "2024-01-04T10:00:00Z")))
      as (_ & _ & _ & Hreq).
    destruct (Hreq (jan 4) eq_refl ltac:(vm_compute; reflexivity) (or_introl eq_refl))
      as (params & encoded & until & Hparams & Henc & Huntil & Hrange & Hinc & _).
    exists params, encoded. split; [exact Hparams|]. split; [exact Henc|].
    split; [|exact Hinc].
    rewrite Hrange. simpl in Huntil. subst until. vm_compute. reflexivity.
Defined.


Lemma retries_back_off_exponentially_witness :
  let run := Client.do (repeat (Client.Responds hiccup) 5 ++ [Client.Responds good]) in
  snd run = Client.Returned good
  /\ requests (fst run) = 6%nat
  /\ bounds (fst run) = [1; 2; 4; 8; 16]
  /\ waits (fst run) = [].
Proof.
  cbn zeta.
  destruct (retries_back_off_exponentially hiccup [] good [] 5 eq_refl eq_refl eq_refl)
    as (Hres & Hreq & Hbounds & _ & Hwaits).
  - constructor.
  - intros k Hk. unfold Client.expo, sleep_limit.
    assert (2 ^ Z.of_nat k <= 2 ^ 4) by (apply Z.pow_le_mono_r; lia).
    change (2 ^ 4) with 16 in *. lia.
  - split; [exact Hres|]. split; [exact Hreq|]. split; [exact Hbounds | exact Hwaits].
Defined.

Lemma poller_sleeps_between_polls_witness :
  let run := Poller.run_adreport None
               (map Poller.Answers
                  [Poller.Job "7" "Job Not Started" 0; Poller.Job "7" "Job Running" 40;
                   Poller.Job "7" "Job Completed" 99]
                ++ [Poller.Answers (Poller.Job "7" "Job Completed" 100)]) in
  snd run = Poller.Returned (Poller.Job "7" "Job Completed" 100)
  /\ Poller.polls (fst run) = 4%nat
  /\ Poller.slept (fst run) = [2; 2; 2].
Proof.
  apply (poller_sleeps_between_polls
           [Poller.Job "7" "Job Not Started" 0; Poller.Job "7" "Job Running" 40;
            Poller.Job "7" "Job Completed" 99]
           (Poller.Job "7" "Job Completed" 100) []).
  - repeat constructor; vm_compute; intuition discriminate.
  - right. right. split; reflexivity.
Defined.

Lemma poller_polls_unlisted_status_at_once_witness :
  Poller.run_adreport None
    (map Poller.Answers [Poller.Job "7" "Job Queued" 0; Poller.Job "7" "" 0]
     ++ Poller.Throws (OtherError "ConnectionError") :: [])
  = (repeat Poller.ApiGet 3, Poller.Raised (OtherError "ConnectionError")).
Proof.
  apply (poller_polls_unlisted_status_at_once
           [Poller.Job "7" "Job Queued" 0; Poller.Job "7" "" 0] []
           (OtherError "ConnectionError")).
  repeat constructor.
Defined.

End Scenarios.
